(** * db_1cd: a shallow embedding of the 1CD low-level driver

    The development follows the layering of the C++ sources:

    - [cache]   : [cache.h]        (FIFO, LRU and 2Q queues over [std::vector]);
    - [pages]   : [db_1cd_8x.cpp]  (the paged block device with its 2Q page cache);
    - [blob]    : [db_1c_8x.h]     (chains of 256-byte blocks, raw-inflate helper);
    - [field] and [records] : [db_1c_8x.h] (slot widths, record stride, row cursor).

    C++ integers are modelled by [Z] with the wrap-around of their width written
    out, container sizes and iterator positions by [nat], raw memory by
    [list byte].  A call either returns, throws or runs into behaviour the
    C++ standard leaves undefined; see [outcome].

    The platform enters in three places.  The file is an oracle for the
    bytes and the error codes of the WinAPI calls, see [file.os_file]; what
    it reports may change from one call of the driver to the next, see
    [pages_props.reachable].  The free store and [FormatMessageA] are the
    class [platform]: the two buffers whose size the caller of the driver
    chooses, the page cache of [pages] and the result of [blob::get], ask
    [allocate] for their storage and pass on its refusal; the storage of
    the other containers is taken as given.  zlib and [MultiByteToWideChar]
    are parameters of the functions that call them. *)

From Stdlib Require Import ZArith Lia.
From Stdlib Require Import Strings.String Strings.Byte.
From stdpp Require Import base tactics option list numbers strings gmap.

Open Scope Z_scope.

(** ** Results of a call *)

(** What a [throw] carries: the library's own [db_1c_8x::exception], the one
    user-visible kind, the [std::out_of_range] of [std::vector::at], or what
    a container throws when it cannot get storage. *)
Inductive exn : Type :=
| exception (what : string)
| std_out_of_range
| std_length_error
| std_bad_alloc.

Inductive outcome (A : Type) : Type :=
| Ret (a : A)                 (* normal return *)
| Throw (e : exn)             (* a [throw] leaving the call *)
| Undefined (why : string).   (* undefined behaviour (asserts compiled out) *)

Arguments Ret {A} a.
Arguments Throw {A} e.
Arguments Undefined {A} why.

Abbreviation throw what := (Throw (exception what)).

#[global] Instance outcome_ret : MRet outcome := fun A a => Ret a.
#[global] Instance outcome_bind : MBind outcome := fun A B k m =>
  match m with
  | Ret a => k a
  | Throw w => Throw w
  | Undefined w => Undefined w
  end.

#[global] Instance outcome_fmap : FMap outcome := fun A B f m =>
  match m with
  | Ret a => Ret (f a)
  | Throw e => Throw e
  | Undefined w => Undefined w
  end.

#[global] Instance exn_eq_dec : EqDecision exn.
Proof. solve_decision. Defined.

#[global] Instance outcome_eq_dec {A : Type} `{EqDecision A} : EqDecision (outcome A).
Proof. solve_decision. Defined.

Definition returns {A : Type} (m : outcome A) : Prop := exists a, m = Ret a.
Definition raises {A : Type} (m : outcome A) : Prop := exists what, m = throw what.
Definition defined {A : Type} (m : outcome A) : Prop := forall w, m <> Undefined w.

(** ** cache.h *)

Module cache.

(** [item_find]: the linear scan shared by [fifo] and [lru]; the iterator it
    returns is modelled by its position, [length items] standing for [end()]. *)
Fixpoint item_find {Tindex Tvalue : Type} `{EqDecision Tindex}
    (items : list (Tindex * Tvalue)) (index_ : Tindex) : nat :=
  match items with
  | [] => 0%nat
  | i :: rest => if decide (i.1 = index_) then 0%nat else S (item_find rest index_)
  end.

Section fifo.
Context {Tindex Tvalue : Type} `{EqDecision Tindex}.

Record fifo : Type := mk_fifo {
  fifo_max_size : nat;                       (* maximum items count *)
  fifo_items : list (Tindex * Tvalue);       (* array of pairs key/value *)
  fifo_next_item : nat                       (* position of next item to overwrite *)
}.

(** The constructor; [fifo_requirement] is its [assert(size_ >= 1)]. *)
Definition fifo_new (size_ : nat) : fifo :=
  {| fifo_max_size := size_; fifo_items := []; fifo_next_item := 0%nat |}.

Definition fifo_requirement (size_ : nat) : bool := bool_decide (1 <= size_)%nat.

Definition fifo_item_push (q : fifo) (value_ : Tindex * Tvalue)
  : outcome (option (Tindex * Tvalue) * fifo) :=
  if decide (length (fifo_items q) < fifo_max_size q)%nat then
    let items := fifo_items q ++ [value_] in
    Ret (None, {| fifo_max_size := fifo_max_size q;
                  fifo_items := items;
                  fifo_next_item := length items |})
  else
    let next_item :=
      if decide (fifo_next_item q = length (fifo_items q))
      then 0%nat else fifo_next_item q in
    match fifo_items q !! next_item with
    | None => Undefined "fifo::item_push: *next_item is past the end of items"
    | Some old =>
        Ret (Some old, {| fifo_max_size := fifo_max_size q;
                          fifo_items := <[next_item := value_]> (fifo_items q);
                          fifo_next_item := S next_item |})
    end.

Definition fifo_find (q : fifo) (index_ : Tindex) : option Tvalue :=
  let i_res := item_find (fifo_items q) index_ in
  if decide (i_res <> length (fifo_items q))
  then snd <$> fifo_items q !! i_res
  else None.

Definition fifo_push (q : fifo) (value_ : Tindex * Tvalue) := fifo_item_push q value_.

Definition fifo_clear (q : fifo) : fifo :=
  {| fifo_max_size := fifo_max_size q; fifo_items := []; fifo_next_item := 0%nat |}.
End fifo.
Arguments fifo : clear implicits.

Section lru.
Context {Tindex Tvalue : Type} `{EqDecision Tindex}.

Record lru : Type := mk_lru {
  lru_max_size : nat;
  lru_items : list (Tindex * Tvalue)
}.

(** The constructor; [lru_requirement] is its [assert(size_ >= 1)]. *)
Definition lru_new (size_ : nat) : lru :=
  {| lru_max_size := size_; lru_items := [] |}.

Definition lru_requirement (size_ : nat) : bool := bool_decide (1 <= size_)%nat.

(** [item_move_top]: copy the item, erase it, append the copy. *)
Definition item_move_top (items : list (Tindex * Tvalue)) (i_item : nat)
  : list (Tindex * Tvalue) :=
  match items !! i_item with
  | Some tmp => delete i_item items ++ [tmp]
  | None => items
  end.

Definition lru_item_push (q : lru) (value_ : Tindex * Tvalue)
  : outcome (option (Tindex * Tvalue) * lru) :=
  if decide (length (lru_items q) < lru_max_size q)%nat then
    Ret (None, {| lru_max_size := lru_max_size q;
                  lru_items := lru_items q ++ [value_] |})
  else
    match lru_items q with
    | [] => Undefined "lru::item_push: *items.begin() on an empty vector"
    | old :: rest =>
        Ret (Some old, {| lru_max_size := lru_max_size q;
                          lru_items := rest ++ [value_] |})
    end.

(** [find] moves a hit to the top and reports the value found there. *)
Definition lru_find (q : lru) (index_ : Tindex) : option Tvalue * lru :=
  let i_res := item_find (lru_items q) index_ in
  if decide (i_res <> length (lru_items q)) then
    let items := item_move_top (lru_items q) i_res in
    (snd <$> last items,
     {| lru_max_size := lru_max_size q; lru_items := items |})
  else (None, q).

Definition lru_push (q : lru) (value_ : Tindex * Tvalue) := lru_item_push q value_.

Definition lru_clear (q : lru) : lru :=
  {| lru_max_size := lru_max_size q; lru_items := [] |}.
End lru.
Arguments lru : clear implicits.

Section twoq.
Context {Tindex Tvalue : Type} `{EqDecision Tindex}.

(** [out] keeps keys only; its [char] payload is always [0]. *)
Record twoq : Type := mk_twoq {
  tq_in : fifo Tindex Tvalue;
  tq_out : fifo Tindex Z;
  tq_main : lru Tindex Tvalue
}.

Definition twoq_new (size_ : nat) : twoq :=
  {| tq_in := fifo_new (size_ / 4);
     tq_out := fifo_new (size_ / 2);
     tq_main := lru_new (size_ - size_ / 4) |}.

Definition twoq_find (q : twoq) (index_ : Tindex) : option Tvalue * twoq :=
  let '(result, main) := lru_find (tq_main q) index_ in
  let q' := {| tq_in := tq_in q; tq_out := tq_out q; tq_main := main |} in
  match result with
  | Some _ => (result, q')
  | None => (fifo_find (tq_in q) index_, q')
  end.

Definition twoq_push (q : twoq) (value_ : Tindex * Tvalue)
  : outcome (option (Tindex * Tvalue) * twoq) :=
  match fifo_find (tq_out q) value_.1 with
  | None =>
      '(result, in') ← fifo_push (tq_in q) value_;
      match result with
      | Some ev =>
          '(_, out') ← fifo_push (tq_out q) (ev.1, 0);
          Ret (result, {| tq_in := in'; tq_out := out'; tq_main := tq_main q |})
      | None =>
          Ret (result, {| tq_in := in'; tq_out := tq_out q; tq_main := tq_main q |})
      end
  | Some _ =>
      '(result, main') ← lru_push (tq_main q) value_;
      Ret (result, {| tq_in := tq_in q; tq_out := tq_out q; tq_main := main' |})
  end.

Definition twoq_clear (q : twoq) : twoq :=
  {| tq_in := fifo_clear (tq_in q);
     tq_out := fifo_clear (tq_out q);
     tq_main := lru_clear (tq_main q) |}.
End twoq.
Arguments twoq : clear implicits.

End cache.

(** ** Raw memory *)

#[global] Instance byte_eq_dec : EqDecision byte := Byte.byte_eq_dec.

Definition buffer_type : Type := list byte.           (* std::vector<unsigned char> *)

Definition byte_to_Z (b : byte) : Z := Z.of_N (Byte.to_N b).
Definition byte_of_Z (z : Z) : byte :=
  default "000"%byte (Byte.of_N (Z.to_N (z mod 256))).

(** Little-endian loads and stores of unsigned integers. *)
Fixpoint le_uint (bs : list byte) : Z :=
  match bs with
  | [] => 0
  | b :: rest => byte_to_Z b + 256 * le_uint rest
  end.

Fixpoint le_bytes (n : nat) (v : Z) : list byte :=
  match n with
  | O => []
  | S n' => byte_of_Z v :: le_bytes n' (v / 256)
  end.

(** [mem_get<type>] at byte offset [off] of a buffer, [size] bytes wide. *)
Definition mem_get (buff : list byte) (off size : nat) : Z :=
  le_uint (take size (drop off buff)).

Definition mem_read (data : list byte) (ptr count : nat) : list byte :=
  take count (drop ptr data).

Definition mem_write (data : list byte) (ptr : nat) (src : list byte) : list byte :=
  take ptr data ++ src ++ drop (ptr + length src) data.

Definition wrap (bits : Z) (z : Z) : Z := z mod 2 ^ bits.
Definition size_t_max : Z := 2 ^ 64 - 1.
Definition uint32_max : Z := 2 ^ 32 - 1.

(** ** The free store and the system messages

    [allocate bytes] is how a container's request for [bytes] bytes of
    storage ends: [None] when the storage is given, or the reason of the
    refusal, [too_long] for a size beyond [max_size()], which throws
    [std::length_error], and [no_memory] when [operator new] fails, which
    throws [std::bad_alloc].

    [FormatMessageA code size] is the WinAPI call of [file::error::to_string]
    for the system error [code] on a buffer of [size] characters: the value
    it returns, [0] reporting a failure, and the characters it stored, which
    stay inside the buffer. *)

Inductive refusal : Type := too_long | no_memory.

Definition refusal_exn (r : refusal) : exn :=
  match r with
  | too_long => std_length_error
  | no_memory => std_bad_alloc
  end.

Class platform : Type := {
  allocate : Z -> option refusal;
  FormatMessageA : Z -> nat -> nat * list byte;
  FormatMessageA_fits : forall code size,
    (length (FormatMessageA code size).2 <= size)%nat
}.

(** A request for storage as it ends for the caller. *)
Definition storage `{!platform} (bytes : Z) : outcome unit :=
  match allocate bytes with
  | None => Ret ()
  | Some r => Throw (refusal_exn r)
  end.

(** ** db_1cd_8x::file

    The platform is an oracle: [os_open_error] is the code [GetLastError]
    yields for [CreateFileW]/[GetFileSizeEx] and [os_read_error pos count] the
    one for [SetFilePointerEx]/[ReadFile], [NO_ERROR] meaning that the calls
    succeeded; [os_short_error] is what [GetLastError] yields after a
    [ReadFile] that succeeded with fewer bytes than requested.  An [os_file]
    is the file as the platform presents it at one moment: a handle keeps
    the bytes, while the answers to the calls may be others later on. *)

Module file.

Definition NO_ERROR : Z := 0.
Definition ERROR_INVALID_HANDLE : Z := 6.

Record os_file : Type := mk_os_file {
  os_bytes : list byte;
  os_open_error : Z;
  os_read_error : Z -> Z -> Z;
  os_short_error : Z
}.

(** [file::error]; its [operator bool] is [ok]. *)
Definition error : Type := Z.
Definition ok (e : error) : bool := bool_decide (e = NO_ERROR).

Record file : Type := mk_file {
  file_handle : option os_file;    (* [None] is [INVALID_HANDLE_VALUE] *)
  file_size : Z
}.

Definition is_valid (f : file) : bool := bool_decide (file_handle f <> None).

Definition file_new : file := {| file_handle := None; file_size := 0 |}.

Definition open (path_name_ : os_file) : error * file :=
  if bool_decide (os_open_error path_name_ = NO_ERROR)
  then (NO_ERROR,
        {| file_handle := Some path_name_;
           file_size := Z.of_nat (length (os_bytes path_name_)) |})
  else (os_open_error path_name_, file_new).

(** [read]: the error and the bytes the platform stored into the buffer. *)
Definition read (f : file) (count_ : Z) (pos_ : Z) : error * list byte :=
  match file_handle f with
  | None => (ERROR_INVALID_HANDLE, [])
  | Some os =>
      if bool_decide (os_read_error os pos_ count_ = NO_ERROR) then
        let d := take (Z.to_nat count_) (drop (Z.to_nat pos_) (os_bytes os)) in
        if bool_decide (Z.of_nat (length d) = count_)
        then (NO_ERROR, d)
        else (os_short_error os, d)
      else (os_read_error os pos_ count_, [])
  end.

Definition size (f : file) : Z := file_size f.

(** [error::to_string]: the 1024 blanks of [result] with the message that
    [FormatMessageA] stored over the first of them, or the fixed text. *)
Definition to_string `{!platform} (mycode : error) : string :=
  let result := replicate 1024 " "%byte in
  let '(len, stored) := FormatMessageA mycode 1024 in
  if bool_decide (len = 0%nat) then "Unknown system error."
  else string_of_list_byte (mem_write result 0 stored).

End file.

(** ** db_1cd_8x::pages *)

Module pages.

Module errors.
Inductive t : Type := none | file_system | bad_file | version.
End errors.

#[global] Instance errors_eq_dec : EqDecision errors.t.
Proof. solve_decision. Defined.

(** [pages::error]: the code and the nested file-system error. *)
Record error : Type := mk_error { code : errors.t; file_error : file.error }.

Definition error_none : error := {| code := errors.none; file_error := file.NO_ERROR |}.
Definition error_of (c : errors.t) : error := {| code := c; file_error := file.NO_ERROR |}.
Definition error_fs (fe : file.error) : error := {| code := errors.file_system; file_error := fe |}.

(** The packed 24-byte [db_hdr] is kept as raw bytes and read through
    accessors, as the file read stores into it directly. *)
Definition hdr_sig (h : list byte) : list byte := take 8 h.
Definition hdr_version (h : list byte) : Z := mem_get h 8 4.
Definition hdr_length (h : list byte) : Z := mem_get h 12 4.
Definition hdr_unknown (h : list byte) : Z := mem_get h 16 4.
Definition hdr_page_size (h : list byte) : Z := mem_get h 20 4.
Definition hdr_set_page_size (h : list byte) (v : Z) : list byte :=
  mem_write h 20 (le_bytes 4 v).

Definition signature : list byte := list_byte_of_string "1CDBMSV8".

(** A [void*] into [cache_data] is the offset of the byte it points to. *)
Record pages : Type := mk_pages {
  db_hdr : list byte;
  file_iface : file.file;
  cache_size : nat;
  cache_data : buffer_type;
  cache_pool : list nat;
  cache_queue : cache.twoq Z nat
}.

Definition pages_new (cached_ : nat) : pages :=
  {| db_hdr := replicate 24 "000"%byte;
     file_iface := file.file_new;
     cache_size := cached_;
     cache_data := [];
     cache_pool := [];
     cache_queue := cache.twoq_new cached_ |}.

Definition is_valid (p : pages) : bool :=
  file.is_valid (file_iface p)
  && negb (bool_decide (cache_data p = []))
  && negb (bool_decide (cache_pool p = [])).

Definition version (p : pages) : Z := hdr_version (db_hdr p).
Definition page_size (p : pages) : Z := hdr_page_size (db_hdr p).
Definition size (p : pages) : Z := hdr_length (db_hdr p).

Definition with_hdr (p : pages) (h : list byte) : pages :=
  {| db_hdr := h; file_iface := file_iface p; cache_size := cache_size p;
     cache_data := cache_data p; cache_pool := cache_pool p;
     cache_queue := cache_queue p |}.

Definition with_file (p : pages) (f : file.file) : pages :=
  {| db_hdr := db_hdr p; file_iface := f; cache_size := cache_size p;
     cache_data := cache_data p; cache_pool := cache_pool p;
     cache_queue := cache_queue p |}.

Definition with_cache (p : pages) (data : buffer_type) (pool : list nat)
    (queue : cache.twoq Z nat) : pages :=
  {| db_hdr := db_hdr p; file_iface := file_iface p; cache_size := cache_size p;
     cache_data := data; cache_pool := pool; cache_queue := queue |}.

Definition sizeof_pointer : Z := 8.

(** [cache_init]: the three [clear()], then [cache_data.resize] and
    [cache_pool.reserve], either of which throws when the storage is
    refused, then one pointer for every [page_size_] bytes of
    [cache_data].  The sizes are taken in the integers, which is what
    [std::size_t] computes for a cache that fits the address space. *)
Definition cache_init `{!platform} (p : pages) (page_size_ : nat) : outcome pages :=
  let p := with_cache p [] [] (cache.twoq_clear (cache_queue p)) in
  _ ← storage (Z.of_nat (page_size_ * (cache_size p + 1)));
  let p := with_cache p (replicate (page_size_ * (cache_size p + 1)) "000"%byte)
             (cache_pool p) (cache_queue p) in
  _ ← storage (sizeof_pointer * Z.of_nat (cache_size p + 1));
  Ret (with_cache p (cache_data p)
         ((fun i => (i * page_size_)%nat)
            <$> seq 0 (length (cache_data p) / page_size_))
         (cache_queue p)).

(** Unsigned [%] and [/]; a zero divisor is undefined behaviour. *)
Definition umod (a b : Z) : outcome Z :=
  if bool_decide (b = 0) then Undefined "integer modulo by zero" else Ret (a mod b).
Definition udiv (a b : Z) : outcome Z :=
  if bool_decide (b = 0) then Undefined "integer division by zero" else Ret (a / b).

Definition valid_page_size (ps : Z) : bool :=
  bool_decide (ps = 4096) || bool_decide (ps = 8192) || bool_decide (ps = 16384)
  || bool_decide (ps = 32768) || bool_decide (ps = 65536).

(** [pages::open]; the platform resolves the path to an [os_file]. *)
Definition open `{!platform} (p : pages) (path_name_ : file.os_file)
  : outcome (error * pages) :=
  let '(fe, tmp_iface) := file.open path_name_ in
  if negb (file.ok fe) then Ret (error_fs fe, p) else
  let '(fe, d) := file.read tmp_iface 24 0 in
  let p := with_hdr p (mem_write (db_hdr p) 0 d) in
  if negb (file.ok fe) then Ret (error_fs fe, p) else
  if negb (bool_decide (hdr_sig (db_hdr p) = signature)) then Ret (error_of errors.bad_file, p) else
  if negb (bool_decide (hdr_version (db_hdr p) = 0x000E0208))
     && negb (bool_decide (hdr_version (db_hdr p) = 0x00080308))
  then Ret (error_of errors.version, p) else
  let checked :=
    if bool_decide (hdr_version (db_hdr p) = 0x000E0208)
    then Some (with_hdr p (hdr_set_page_size (db_hdr p) 4096))
    else if negb (valid_page_size (hdr_page_size (db_hdr p))) then None
    else Some p in
  match checked with
  | None => Ret (error_of errors.bad_file, p)
  | Some p =>
      let file_size := file.size tmp_iface in
      r ← umod file_size (hdr_page_size (db_hdr p));
      q ← udiv file_size (hdr_page_size (db_hdr p));
      if negb (bool_decide (r = 0))
         || negb (bool_decide (q = hdr_length (db_hdr p)))
         || bool_decide (hdr_length (db_hdr p) = 0)
      then Ret (error_of errors.bad_file, p)
      else
        p ← cache_init p (Z.to_nat (hdr_page_size (db_hdr p)));
        Ret (error_none, with_file p tmp_iface)
  end.

(** [pages::view]: the pointer returned (or the exception) and the state
    the object is left in. *)
Definition view `{!platform} (p : pages) (index_ : Z) (count_ pos_ : Z)
  : outcome nat * pages :=
  if bool_decide (index_ = 0) || bool_decide (index_ >= hdr_length (db_hdr p)) then
    (throw "Invalid page index to view.", p)
  else if bool_decide (pos_ >= hdr_page_size (db_hdr p))
       || bool_decide (wrap 64 (pos_ + count_) > hdr_page_size (db_hdr p))
       || bool_decide (wrap 64 (pos_ + count_) < pos_) then
    (throw "Requested data interval to view exceeds page size.", p)
  else
    let '(cached_page, queue) := cache.twoq_find (cache_queue p) index_ in
    let p := with_cache p (cache_data p) (cache_pool p) queue in
    match cached_page with
    | Some ptr => (Ret (ptr + Z.to_nat pos_)%nat, p)
    | None =>
        match last (cache_pool p) with
        | None => (Undefined "pages::view: *cache_pool.rbegin() on an empty pool", p)
        | Some page_from_pool =>
            let pos_in_file := hdr_page_size (db_hdr p) * index_ in
            let '(fe, d) :=
              file.read (file_iface p) (hdr_page_size (db_hdr p)) pos_in_file in
            let p := with_cache p (mem_write (cache_data p) page_from_pool d)
                       (cache_pool p) (cache_queue p) in
            if negb (file.ok fe) then
              (throw ("Error while reading page from file: " +:+ file.to_string fe), p)
            else
              match cache.twoq_push (cache_queue p) (index_, page_from_pool) with
              | Ret (freed_page, queue) =>
                  let pool := removelast (cache_pool p) in
                  let pool :=
                    match freed_page with
                    | Some fp => pool ++ [fp.2]
                    | None => pool
                    end in
                  (Ret (page_from_pool + Z.to_nat pos_)%nat,
                   with_cache p (cache_data p) pool queue)
              | Throw w => (Throw w, p)
              | Undefined w => (Undefined w, p)
              end
        end
    end.

(** [pages::read] is [memcpy(dst, view(index, count, pos), count)]. *)
Definition read `{!platform} (p : pages) (index_ : Z) (count_ pos_ : Z)
  : outcome buffer_type * pages :=
  let '(r, p) := view p index_ count_ pos_ in
  (ptr ← r; Ret (mem_read (cache_data p) ptr (Z.to_nat count_)), p).

(** A run of [read] requests [(index, count, pos)] on one [pages] object. *)
Fixpoint read_all `{!platform} (p : pages) (reqs : list (Z * Z * Z))
  : list (outcome buffer_type) :=
  match reqs with
  | [] => []
  | (index_, count_, pos_) :: rest =>
      let '(r, p) := read p index_ count_ pos_ in
      r :: read_all p rest
  end.

End pages.

(** Sequencing of calls that share the one [pages] object: the continuation
    runs on the state the first call left, an exception or undefined behaviour
    ends the sequence in that state. *)
Definition pbind {A B : Type} (m : outcome A * pages.pages)
    (k : A -> pages.pages -> outcome B * pages.pages) : outcome B * pages.pages :=
  match m with
  | (Ret a, p) => k a p
  | (Throw e, p) => (Throw e, p)
  | (Undefined w, p) => (Undefined w, p)
  end.

Notation "'let*' ( x , p ) := m 'in' k" := (pbind m (fun x p => k))
  (at level 10, x name, p name, m at level 100, k at level 200).

(** The [Tobject_type] parameter of [blob] and [records]: a constructor from
    [(pages&, index)], [size()] and [read(dst, count, pos)].  A [read] that
    returns has stored the bytes that [object_read] gives; one that throws
    may have stored some before, which are [object_copied]. *)
Class object_type (T : Type) : Type := {
  object_new : pages.pages -> Z -> outcome T * pages.pages;
  object_size : T -> Z;
  object_read : T -> pages.pages -> Z -> Z -> outcome buffer_type * pages.pages;
  object_copied : T -> pages.pages -> Z -> Z -> buffer_type
}.

(** ** db_1c_83::object *)

Module db_1c_83.

Definition VERSION : Z := 0x00080308.
Definition sizeof_obj_hdr : Z := 24.
Definition sizeof_index_type : Z := 4.

(** The reference [pages_iface] is the [pages] state passed to each call. *)
Record object : Type := mk_object { hdr_page : buffer_type }.

Definition hdr_type (o : object) : Z := mem_get (hdr_page o) 0 2.
Definition hdr_pmt_type (o : object) : Z := mem_get (hdr_page o) 2 2.
Definition hdr_length (o : object) : Z := mem_get (hdr_page o) 16 8.
Definition hdr_blocks (o : object) (n : Z) : Z :=
  mem_get (hdr_page o) (Z.to_nat (sizeof_obj_hdr + sizeof_index_type * n)) 4.

Definition new `{!platform} (p : pages.pages) (index_ : Z)
  : outcome object * pages.pages :=
  if negb (bool_decide (pages.version p = VERSION)) then
    (throw "Unsupported database format version.", p)
  else
    let page_size := pages.page_size p in
    if bool_decide (page_size < sizeof_obj_hdr) then
      (throw "Page size less object header size.", p)
    else
      let* (hdr, p) := pages.read p index_ page_size 0 in
      let o := {| hdr_page := hdr |} in
      if negb (bool_decide (hdr_type o = 0xFD1C))
         || (negb (bool_decide (hdr_pmt_type o = 0x00))
             && negb (bool_decide (hdr_pmt_type o = 0x01))) then
        (throw "Invalid object type.", p)
      else
        let pages_count :=
          hdr_length o / page_size
          + (if bool_decide (hdr_length o mod page_size = 0) then 0 else 1) in
        if bool_decide (pages_count > pages.size p) then
          (throw "Object size greater of database size.", p)
        else (Ret o, p).

Definition size (o : object) : Z := hdr_length o.

Definition page_num_to_index `{!platform} (o : object) (p : pages.pages) (page_num_ : Z)
  : outcome Z * pages.pages :=
  let page_size := pages.page_size p in
  let records_in_hdr := wrap 64 (page_size - sizeof_obj_hdr) / sizeof_index_type in
  let records_in_pmt := page_size / sizeof_index_type in
  let* (pmt_page_num, p) := (pages.udiv page_num_ records_in_pmt, p) in
  if bool_decide (pmt_page_num >= records_in_hdr) then
    (throw "Page number exceeds limitations of the object placement table.", p)
  else
    let pmt_page_index := hdr_blocks o pmt_page_num in
    let* (pmt, p) := pages.view p pmt_page_index page_size 0 in
    let pmt_record_num := page_num_ mod records_in_pmt in
    (Ret (mem_get (pages.cache_data p)
            (pmt + Z.to_nat (sizeof_index_type * pmt_record_num)) 4), p).

Definition page_num_to_index_lite (o : object) (p : pages.pages) (page_num_ : Z)
  : outcome Z * pages.pages :=
  let page_size := pages.page_size p in
  let records_in_hdr := wrap 64 (page_size - sizeof_obj_hdr) / sizeof_index_type in
  if bool_decide (page_num_ >= records_in_hdr) then
    (throw "Page number exceeds limitations of the object placement table.", p)
  else (Ret (hdr_blocks o page_num_), p).

(** The [while (count_ != 0)] loop of [read]: how it ends, the bytes that
    it has stored at [dst_buff_] by then, and the state of [pages].  Every
    pass that does not throw copies at least one byte, so [count_] passes
    are enough. *)
Fixpoint read_loop `{!platform} (fuel : nat) (o : object) (p : pages.pages)
    (count_ : Z) (page_num : Z) (pos_in_page : Z) (dst : buffer_type)
  : outcome unit * buffer_type * pages.pages :=
  if bool_decide (count_ = 0) then (Ret (), dst, p) else
  match fuel with
  | O => (Undefined "object::read: a pass copied no byte", dst, p)
  | S fuel =>
      let page_size := pages.page_size p in
      let to_read := wrap 64 (page_size - pos_in_page) in
      let to_read := if bool_decide (count_ < to_read) then count_ else to_read in
      match (if bool_decide (hdr_pmt_type o = 0x01)
             then page_num_to_index o p page_num
             else page_num_to_index_lite o p page_num) with
      | (Throw e, p) => (Throw e, dst, p)
      | (Undefined w, p) => (Undefined w, dst, p)
      | (Ret page_index, p) =>
          match pages.read p page_index to_read pos_in_page with
          | (Throw e, p) => (Throw e, dst, p)
          | (Undefined w, p) => (Undefined w, dst, p)
          | (Ret d, p) =>
              read_loop fuel o p (count_ - to_read) (wrap 32 (page_num + 1)) 0
                (dst ++ d)
          end
      end
  end.

(** [read] as it acts on the [count_] bytes at [dst_buff_]. *)
Definition read_into `{!platform} (o : object) (p : pages.pages) (count_ pos_ : Z)
  : outcome unit * buffer_type * pages.pages :=
  if bool_decide (pos_ >= hdr_length o)
     || bool_decide (wrap 64 (pos_ + count_) > hdr_length o)
     || bool_decide (wrap 64 (pos_ + count_) < pos_) then
    (throw "Requested interval to read exceeds object size.", [], p)
  else
    let page_size := pages.page_size p in
    match pages.udiv pos_ page_size with
    | Throw e => (Throw e, [], p)
    | Undefined w => (Undefined w, [], p)
    | Ret page_num =>
        read_loop (Z.to_nat count_) o p count_ (wrap 32 page_num) (pos_ mod page_size) []
    end.

(** [read] as its caller sees it when it returns: the bytes stored. *)
Definition read `{!platform} (o : object) (p : pages.pages) (count_ pos_ : Z)
  : outcome buffer_type * pages.pages :=
  let '(r, dst, p) := read_into o p count_ pos_ in
  (_ ← r; Ret dst, p).

Definition copied `{!platform} (o : object) (p : pages.pages) (count_ pos_ : Z)
  : buffer_type :=
  (read_into o p count_ pos_).1.2.

#[global] Instance object_object_type `{!platform} : object_type object :=
  {| object_new := new; object_size := size; object_read := read;
     object_copied := copied |}.

End db_1c_83.

(** ** db_1c_8x::blob *)

Module blob.

Definition sizeof_blob_blk : Z := 256.
Definition sizeof_data : Z := 250.

(** The packed [blob_blk], read from the 256 bytes of a block. *)
Definition nextblock (buffer : buffer_type) : Z := mem_get buffer 0 4.
Definition length (buffer : buffer_type) : Z := mem_get buffer 4 2.
Definition data (buffer : buffer_type) : buffer_type := mem_read buffer 6 250.

Record blob (T : Type) : Type := mk_blob { obj_iface : T }.
Arguments mk_blob {T} _.
Arguments obj_iface {T} _.

Definition new {T : Type} `{object_type T} (p : pages.pages) (index_ : Z)
  : outcome (blob T) * pages.pages :=
  let* (o, p) := object_new p index_ in
  let size := object_size o in
  let blk_count := size / sizeof_blob_blk in
  if negb (bool_decide (size mod sizeof_blob_blk = 0))
     || bool_decide (blk_count > uint32_max) then
    (throw "Invalid BLOB-object size.", p)
  else (Ret (mk_blob o), p).

(** What one call of [get] did: its outcome, the state of [pages], how many
    times the body of the [do]-[while] was entered and the blocks that
    [obj_iface.read] delivered, oldest first. *)
Record run : Type := mk_run {
  result : outcome buffer_type;
  state : pages.pages;
  iterations : nat;
  blocks : list buffer_type
}.

Definition later (buffer : option buffer_type) (r : run) : run :=
  {| result := result r; state := state r;
     iterations := S (iterations r);
     blocks := option_list buffer ++ blocks r |}.

Definition stop (r : outcome buffer_type) (p : pages.pages)
    (buffer : option buffer_type) : run :=
  {| result := r; state := p; iterations := 1; blocks := option_list buffer |}.

(** One pass through the body of the [do]-[while] of [get]: it ends the
    call, or goes on to the condition with the block read, the next index
    and the bytes gathered. *)
Inductive pass : Type :=
| Stop (r : outcome buffer_type) (p : pages.pages) (buffer : option buffer_type)
| Continue (p : pages.pages) (buffer : buffer_type) (index_ : Z) (res : buffer_type).

(** The storage of [result]: [reserve(size_)] gives it the capacity asked
    for, and the checks of [get] keep an expected size within it; with no
    size expected an [insert] of bytes takes the storage for the longer
    result when it comes to it. *)
Definition reserve `{!platform} (size_ : Z) : outcome unit :=
  if bool_decide (size_ = 0) then Ret () else storage size_.

Definition grow `{!platform} (size_ : Z) (res : buffer_type) (count : Z)
  : outcome unit :=
  if negb (bool_decide (size_ = 0)) || bool_decide (count = 0) then Ret ()
  else storage (Z.of_nat (List.length res) + count).

Definition get_body {T : Type} `{object_type T} `{!platform} (b : blob T)
    (p : pages.pages) (blk_count size_ : Z) (index_ : Z) (res : buffer_type)
  : pass :=
  if bool_decide (index_ >= blk_count) then
    Stop (throw "Index of next BLOB block exceeds object size.") p None
  else
    match object_read (obj_iface b) p sizeof_blob_blk (sizeof_blob_blk * index_) with
    | (Throw e, p) => Stop (Throw e) p None
    | (Undefined w, p) => Stop (Undefined w) p None
    | (Ret buffer, p) =>
        if bool_decide (length buffer > sizeof_data)
           || (bool_decide (length buffer = 0)
               && negb (bool_decide (nextblock buffer = 0))) then
          Stop (throw "Wrong 'length' value in BLOB block.") p (Some buffer)
        else if negb (bool_decide (size_ = 0))
                && bool_decide (size_ - Z.of_nat (List.length res) < length buffer) then
          Stop (throw "Not enough destination buffer size for BLOB.") p (Some buffer)
        else
          match grow size_ res (length buffer) with
          | Throw e => Stop (Throw e) p (Some buffer)
          | Undefined w => Stop (Undefined w) p (Some buffer)
          | Ret _ =>
              let res := res ++ take (Z.to_nat (length buffer)) (data buffer) in
              if bool_decide (nextblock buffer = 0) then
                if negb (bool_decide (size_ = 0))
                   && negb (bool_decide (size_ = Z.of_nat (List.length res))) then
                  Stop (throw "Size of BLOB not equal requested value.") p (Some buffer)
                else Stop (Ret res) p (Some buffer)
              else Continue p buffer (nextblock buffer) res
          end
    end.

(** The [do { ... } while (--loop_prot)] loop; [again] is how many more
    times the condition lets the body run after the present pass. *)
Fixpoint get_loop {T : Type} `{object_type T} `{!platform} (again : nat) (b : blob T)
    (p : pages.pages) (blk_count size_ : Z) (index_ : Z) (res : buffer_type)
  : run :=
  match get_body b p blk_count size_ index_ res with
  | Stop r p buffer => stop r p buffer
  | Continue p buffer index_ res =>
      match again with
      | O => stop (throw "Loop detected while BLOB reading.") p (Some buffer)
      | S again =>
          later (Some buffer) (get_loop again b p blk_count size_ index_ res)
      end
  end.

(** [blob::get]; [reserve(size_)] gives the result a capacity of [size_]. *)
Definition get_run {T : Type} `{object_type T} `{!platform} (b : blob T)
    (p : pages.pages) (index_ : Z) (size_ : Z) : run :=
  if bool_decide (index_ = 0) then
    {| result := throw "Invalid BLOB index parameter."; state := p;
       iterations := 0; blocks := [] |}
  else
    match reserve size_ with
    | Throw e => {| result := Throw e; state := p; iterations := 0; blocks := [] |}
    | Undefined w =>
        {| result := Undefined w; state := p; iterations := 0; blocks := [] |}
    | Ret _ =>
        let blk_count := wrap 32 (object_size (obj_iface b) / sizeof_blob_blk) in
        let loop_prot := blk_count in
        get_loop (Z.to_nat (wrap 32 (loop_prot - 1))) b p blk_count size_ index_ []
    end.

Definition get {T : Type} `{object_type T} `{!platform} (b : blob T) (p : pages.pages)
    (index_ : Z) (size_ : Z) : outcome buffer_type * pages.pages :=
  let r := get_run b p index_ size_ in (result r, state r).

End blob.

(** ** db_1cd_8x::blob_base::decompress

    zlib is a collaborator: [inflateInit2] yields a result code and a stream
    state, [inflate] takes the state, the input at [next_in] and [avail_out]
    and yields its result code, the new state, how many input bytes it consumed
    and the bytes it stored at [next_out]; [inflateEnd] yields its code. *)

Module blob_base.

Definition Z_OK : Z := 0.
Definition Z_STREAM_END : Z := 1.
Definition MAX_WBITS : Z := 15.
Definition uInt_max : Z := 2 ^ 32 - 1.

Section zlib.
Context {z_state : Type}.
Variable inflateInit2 : Z -> Z * z_state.
Variable inflate : z_state -> list byte -> Z -> Z * z_state * Z * list byte.
Variable inflateEnd : z_state -> Z.
Variable to_string : Z -> string.               (* [std::to_string(int)] *)

Definition zlib_error (res : Z) : outcome buffer_type :=
  throw ("ZLIB error code: " +:+ to_string res).

(** The [do { ... } while (strm.avail_in != 0)] loop.  [out] holds the
    [total_out] bytes produced so far and [dst_size] is [dst.size()]. *)
Fixpoint inflate_loop (fuel : nat) (strm : z_state) (src_ : buffer_type)
    (max_size_ : Z) (total_in : Z) (out : buffer_type) (dst_size : Z)
  : outcome buffer_type :=
  match fuel with
  | O => Undefined "decompress: the output buffer did not grow"
  | S fuel =>
      let avail_out := dst_size - Z.of_nat (List.length out) in
      let '(res, strm, consumed, produced) :=
        inflate strm (drop (Z.to_nat total_in) src_) avail_out in
      let total_in := total_in + consumed in
      let out := out ++ produced in
      if bool_decide (res = Z_STREAM_END) then
        let res := inflateEnd strm in
        if negb (bool_decide (res = Z_OK)) then zlib_error res
        else Ret out
      else if negb (bool_decide (res = Z_OK)) then zlib_error res
      else
        let avail_in := wrap 32 (Z.of_nat (List.length src_) - total_in) in
        if bool_decide (dst_size >= max_size_) then
          throw "Decompressed by ZLIB data too large."
        else
          let max_increment := max_size_ - dst_size in
          let dst_size :=
            if bool_decide (max_increment < dst_size)
            then dst_size + max_increment
            else dst_size * 2 in
          if negb (bool_decide (avail_in = 0)) then
            inflate_loop fuel strm src_ max_size_ total_in out dst_size
          else throw "Data flow ended before it was decompressed by ZLIB."
  end.

(** The output buffer doubles on each pass until it is more than half of
    [max_size_], then becomes [max_size_], and the pass after that throws:
    [log2 max_size_ + 2] passes are enough. *)
Definition passes (max_size_ : Z) : nat := Z.to_nat (Z.log2 max_size_) + 2.

Definition decompress (src_ : buffer_type) (max_size_ : Z) : outcome buffer_type :=
  if bool_decide (List.length src_ = 0%nat) then Ret []
  else
    let max_size_ := if bool_decide (max_size_ > uInt_max) then uInt_max else max_size_ in
    if bool_decide (Z.of_nat (List.length src_) > max_size_) then
      throw "Size of data to decompress by ZLIB too large."
    else
      let dst_size := Z.of_nat (List.length src_) in
      let '(res, strm) := inflateInit2 (- MAX_WBITS) in
      if negb (bool_decide (res = Z_OK)) then zlib_error res
      else inflate_loop (passes max_size_) strm src_ max_size_ 0 [] dst_size.
End zlib.

End blob_base.

(** ** db_1c_8x::field *)

Definition wstring : Type := list Z.                 (* UTF-16 code units *)

(** The wide literal [L"..."] of a narrow string. *)
Definition L (s : string) : wstring := byte_to_Z <$> list_byte_of_string s.

Module field.

Module ftype.
Inductive t : Type :=
| unknown | binary | boolean | digit | str_fix | str_var
| version | str_blob | bin_blob | datetime.
End ftype.

#[global] Instance ftype_eq_dec : EqDecision ftype.t.
Proof. solve_decision. Defined.

Module fparams.
Record t : Type := mk {
  name : wstring;
  type : ftype.t;
  null_exists : bool;
  length : Z;
  precision : Z;
  case_sens : bool
}.
End fparams.

Definition sizeof_wchar_t : Z := 2.

(** The [size(length_)] of each field class, in [std::size_t] arithmetic. *)
Module binary.
Definition size (length_ : Z) : Z := length_.
End binary.
Module boolean.
Definition size (length_ : Z) : Z := 1.
End boolean.
Module digit.
Definition size (length_ : Z) : Z := wrap 64 (length_ + 2) / 2.
End digit.
Module str_fix.
Definition size (length_ : Z) : Z := wrap 64 (length_ * sizeof_wchar_t).
End str_fix.
Module str_var.
Definition size (length_ : Z) : Z := wrap 64 (wrap 64 (length_ * sizeof_wchar_t) + 2).
End str_var.
Module version.
Definition size (length_ : Z) : Z := 16.
End version.
Module str_blob.
Definition size (length_ : Z) : Z := 8.
End str_blob.
Module bin_blob.
Definition size (length_ : Z) : Z := 8.
End bin_blob.
Module datetime.
Definition size (length_ : Z) : Z := 7.
End datetime.

(** [X::size(length_)] for the class [X] of a known type. *)
Definition size (type : ftype.t) (length_ : Z) : option Z :=
  match type with
  | ftype.binary => Some (binary.size length_)
  | ftype.boolean => Some (boolean.size length_)
  | ftype.digit => Some (digit.size length_)
  | ftype.str_fix => Some (str_fix.size length_)
  | ftype.str_var => Some (str_var.size length_)
  | ftype.version => Some (version.size length_)
  | ftype.str_blob => Some (str_blob.size length_)
  | ftype.bin_blob => Some (bin_blob.size length_)
  | ftype.datetime => Some (datetime.size length_)
  | ftype.unknown => None
  end.

Inductive value : Type :=
| binary_value (v : buffer_type)
| boolean_value (v : bool)
| digit_value (v : buffer_type)
| str_fix_value (v : wstring)
| str_var_value (v : wstring)
| version_value (v1 v2 v3 v4 : Z)
| str_blob_value (index size : Z)
| bin_blob_value (index size : Z)
| datetime_value (year month day hour minute second : Z).

(** A field object: the parameters it refers to and its [exists]. *)
Record any : Type := mk_any { params : fparams.t; exists_ : option value }.

(** [n] UTF-16 code units stored at the start of [buff]. *)
Fixpoint wchars (n : nat) (buff : list byte) : wstring :=
  match n with
  | O => []
  | S n' => mem_get buff 0 2 :: wchars n' (drop 2 buff)
  end.

(** [X(params_)]: the null-valued field. *)
Definition null (params_ : fparams.t) : any :=
  {| params := params_; exists_ := None |}.

(** [X(params_, buff_, size_)] for the class [X] of [type]; [buff_] is the
    memory from the pointer on.  Each constructor reads [X::size(length)]
    bytes, which its assertion equates with [size_]. *)
Definition construct (type : ftype.t) (params_ : fparams.t)
    (buff_ : list byte) (size_ : Z) : outcome any :=
  match size type (fparams.length params_) with
  | None => Undefined "field of unknown type"
  | Some sz =>
      if bool_decide (Z.of_nat (List.length buff_) < sz) then
        Undefined "field constructor reads past the end of the buffer"
      else
        let ret v := Ret {| params := params_; exists_ := Some v |} in
        match type with
        | ftype.binary => ret (binary_value (mem_read buff_ 0 (Z.to_nat size_)))
        | ftype.boolean =>
            ret (boolean_value (negb (bool_decide (mem_get buff_ 0 1 = 0))))
        | ftype.digit => ret (digit_value (mem_read buff_ 0 (Z.to_nat size_)))
        | ftype.str_fix =>
            ret (str_fix_value (wchars (Z.to_nat (fparams.length params_)) buff_))
        | ftype.str_var =>
            let real_len := mem_get buff_ 0 2 in
            if bool_decide (real_len > fparams.length params_) then
              throw "String length stored in table record more of field size."
            else ret (str_var_value (wchars (Z.to_nat real_len) (drop 2 buff_)))
        | ftype.version =>
            ret (version_value (mem_get buff_ 0 4) (mem_get buff_ 4 4)
                   (mem_get buff_ 8 4) (mem_get buff_ 12 4))
        | ftype.str_blob => ret (str_blob_value (mem_get buff_ 0 4) (mem_get buff_ 4 4))
        | ftype.bin_blob => ret (bin_blob_value (mem_get buff_ 0 4) (mem_get buff_ 4 4))
        | ftype.datetime =>
            ret (datetime_value (mem_get buff_ 0 2) (mem_get buff_ 2 1)
                   (mem_get buff_ 3 1) (mem_get buff_ 4 1) (mem_get buff_ 5 1)
                   (mem_get buff_ 6 1))
        | ftype.unknown => Undefined "field of unknown type"
        end
  end.

End field.

(** ** db_1c_8x::records *)

Module records.

Module helper.
Record t : Type := mk {
  params : field.fparams.t;      (* field format description *)
  shift : Z;                     (* shift of the field from begin of the record *)
  size : Z                       (* length of the field with special attributes *)
}.
End helper.

Record records (T : Type) : Type := mk_records {
  fields : list helper.t;
  indexes : gmap wstring Z;
  obj_iface : T;
  record : buffer_type;
  records_count : Z;
  last_index : option Z
}.
Arguments mk_records {T} _ _ _ _ _ _.
Arguments fields {T} _.
Arguments indexes {T} _.
Arguments obj_iface {T} _.
Arguments record {T} _.
Arguments records_count {T} _.
Arguments last_index {T} _.

Definition sizeof_index_type : Z := 4.
Definition min_rec_size : Z := 1 + sizeof_index_type.

(** The body of the [for] loop of [prepare_fields]: the size of one field
    with its NULL flag. *)
Definition field_size (prm : field.fparams.t) : outcome Z :=
  let size := if field.fparams.null_exists prm then 1 else 0 in
  match field.size (field.fparams.type prm) (field.fparams.length prm) with
  | Some sz => Ret (wrap 64 (size + sz))
  | None => throw "Unknown table field type in table record."
  end.

Fixpoint prepare_loop (params_ : list field.fparams.t) (index : Z) (shift : Z)
    (fields : list helper.t) (indexes : gmap wstring Z)
  : outcome (list helper.t * gmap wstring Z * Z) :=
  match params_ with
  | [] => Ret (fields, indexes, shift)
  | prm :: rest =>
      size ← field_size prm;
      let hlp := {| helper.params := prm; helper.shift := shift; helper.size := size |} in
      prepare_loop rest (wrap 32 (index + 1)) (wrap 64 (shift + size))
        (fields ++ [hlp]) (<[field.fparams.name prm := index]> indexes)
  end.

(** [prepare_fields]: the helpers, the name index and the record size. *)
Definition prepare_fields (params_ : list field.fparams.t)
  : outcome (list helper.t * gmap wstring Z * Z) :=
  if bool_decide (Z.of_nat (length params_) > uint32_max) then
    throw "Table fields count exceeds maximum allowed value."
  else
    '(fields, indexes, shift) ← prepare_loop params_ 0 1 [] ∅;
    let shift := if bool_decide (shift < min_rec_size) then min_rec_size else shift in
    Ret (fields, indexes, shift).

Definition new {T : Type} `{object_type T} (p : pages.pages) (index_ : Z)
    (params_ : list field.fparams.t) : outcome (records T) * pages.pages :=
  let* (o, p) := object_new p index_ in
  let* (prepared, p) := (prepare_fields params_, p) in
  let '(fields, indexes, rec_size) := prepared in
  let obj_size := object_size o in
  let rec_cnt := obj_size / rec_size in
  if negb (bool_decide (obj_size mod rec_size = 0))
     || bool_decide (rec_cnt > uint32_max) then
    (throw "Invalid table records object size.", p)
  else
    (Ret {| fields := fields; indexes := indexes; obj_iface := o;
            record := replicate (Z.to_nat rec_size) "000"%byte;
            records_count := rec_cnt; last_index := None |}, p).

Definition size {T : Type} (r : records T) : Z := records_count r.

Definition seek_success {T : Type} (r : records T) : bool :=
  bool_decide (last_index r <> None).

Definition field_index {T : Type} (r : records T) (name_ : wstring) : outcome Z :=
  match indexes r !! name_ with
  | Some i => Ret i
  | None => throw "Table field by name not found."
  end.

Definition with_record {T : Type} (r : records T) (rec : buffer_type)
    (last : option Z) : records T :=
  {| fields := fields r; indexes := indexes r; obj_iface := obj_iface r;
     record := rec; records_count := records_count r; last_index := last |}.

(** [seek]: the cursor after the call comes with the outcome, as a failed
    read leaves it unseeked, the bytes that the read had stored by then
    in the record buffer. *)
Definition seek {T : Type} `{object_type T} (r : records T) (p : pages.pages)
    (index_ : Z) : outcome unit * records T * pages.pages :=
  if bool_decide (index_ >= size r) then
    (throw "Requested table record number exceeds object size.", r, p)
  else if bool_decide (last_index r = Some index_) then (Ret (), r, p)
  else
    let r := with_record r (record r) None in
    let count := Z.of_nat (length (record r)) in
    let stored := object_copied (obj_iface r) p count (count * index_) in
    match object_read (obj_iface r) p count (count * index_) with
    | (Ret d, p) => (Ret (), with_record r (mem_write (record r) 0 d) (Some index_), p)
    | (Throw e, p) => (Throw e, with_record r (mem_write (record r) 0 stored) None, p)
    | (Undefined w, p) => (Undefined w, r, p)
    end.

Definition is_deleted {T : Type} (r : records T) : outcome bool :=
  if negb (seek_success r) then
    throw "Attempting to access a table entry before reading it."
  else
    match record r with
    | [] => Undefined "records::is_deleted: read of an empty record buffer"
    | _ => Ret (bool_decide (mem_get (record r) 0 1 = 1))
    end.

(** [get_field<Tvalue_type>(index_)], the class given by its [type()].
    Its [assert(!is_deleted())] is compiled out. *)
Definition get_field {T : Type} (Tvalue_type : field.ftype.t) (r : records T)
    (index_ : Z) : outcome field.any :=
  if negb (seek_success r) then
    throw "Attempting to access a table entry before reading it."
  else
    match fields r !! Z.to_nat index_ with
    | None => Throw std_out_of_range
    | Some hlp =>
        if negb (bool_decide (field.fparams.type (helper.params hlp) = Tvalue_type)) then
          throw "Attempting reads table field with wrong type."
        else
          let buff := drop (Z.to_nat (helper.shift hlp)) (record r) in
          let size := helper.size hlp in
          if field.fparams.null_exists (helper.params hlp) then
            match buff with
            | [] => Undefined "records::get_field: read past the end of the record"
            | has_value :: buff =>
                if bool_decide (byte_to_Z has_value = 0)
                then Ret (field.null (helper.params hlp))
                else field.construct Tvalue_type (helper.params hlp) buff
                       (wrap 64 (size - 1))
            end
          else field.construct Tvalue_type (helper.params hlp) buff size
    end.

End records.

(** * Vocabulary of the statements *)

(** ** The queues of cache.h *)

Module cache_props.

Import cache.

(** The first value stored under a key, as the linear scan meets it. *)
Fixpoint assoc {Tindex Tvalue : Type} `{EqDecision Tindex}
    (items : list (Tindex * Tvalue)) (index_ : Tindex) : option Tvalue :=
  match items with
  | [] => None
  | i :: rest => if decide (i.1 = index_) then Some i.2 else assoc rest index_
  end.

Section props.
Context {Tindex Tvalue : Type} `{EqDecision Tindex}.

(** A queue in a state its member functions leave it in, built with the
    capacity its constructor asserts. *)
Definition fifo_wf {V : Type} (q : fifo Tindex V) : Prop :=
  (1 <= fifo_max_size q)%nat
  /\ (length (fifo_items q) <= fifo_max_size q)%nat
  /\ (fifo_next_item q <= length (fifo_items q))%nat.

Definition lru_wf (q : lru Tindex Tvalue) : Prop :=
  (1 <= lru_max_size q)%nat /\ (length (lru_items q) <= lru_max_size q)%nat.

Definition twoq_wf (q : twoq Tindex Tvalue) : Prop :=
  fifo_wf (tq_in q) /\ fifo_wf (tq_out q) /\ lru_wf (tq_main q).

Definition in_keys (q : twoq Tindex Tvalue) : list Tindex := (fifo_items (tq_in q)).*1.
Definition out_keys (q : twoq Tindex Tvalue) : list Tindex := (fifo_items (tq_out q)).*1.
Definition main_keys (q : twoq Tindex Tvalue) : list Tindex := (lru_items (tq_main q)).*1.

(** The items that hold a value: those of [in] and of [main]. *)
Definition resident (q : twoq Tindex Tvalue) : list (Tindex * Tvalue) :=
  fifo_items (tq_in q) ++ lru_items (tq_main q).

(** The three capacities, which no member function changes. *)
Definition capacities (q : twoq Tindex Tvalue) : nat * nat * nat :=
  (fifo_max_size (tq_in q), fifo_max_size (tq_out q), lru_max_size (tq_main q)).

(** The states of a [twoq(size_)] object: what the constructor builds and
    what [find], [clear] and a [push] that returns make of such a state. *)
Inductive reachable (size_ : nat) : twoq Tindex Tvalue -> Prop :=
| reach_new : reachable size_ (twoq_new size_)
| reach_find q index_ :
    reachable size_ q -> reachable size_ (twoq_find q index_).2
| reach_push q value_ ev q' :
    reachable size_ q -> twoq_push q value_ = Ret (ev, q') -> reachable size_ q'
| reach_clear q :
    reachable size_ q -> reachable size_ (twoq_clear q).
End props.

End cache_props.

(** ** The page cache of [pages] *)

Module pages_props.

Import pages.

(** The header that [open] parses: the 24 bytes of [db_hdr] after the file
    was opened and its first 24 bytes were read, when both calls report
    success. *)
Definition header_read (os : file.os_file) : option (list byte) :=
  let '(fe, tmp_iface) := file.open os in
  if file.ok fe then
    let '(fe, d) := file.read tmp_iface 24 0 in
    if file.ok fe then Some (mem_write (replicate 24 "000"%byte) 0 d) else None
  else None.

(** The page size [open] goes on with. *)
Definition effective_page_size (h : list byte) : Z :=
  if bool_decide (hdr_version h = 0x000E0208) then 4096 else hdr_page_size h.

(** The checks [open] makes on a header it could read, in their order,
    as the error code it returns; [file_size] is the size of the file. *)
Definition header_verdict (h : list byte) (file_size : Z) : errors.t :=
  if negb (bool_decide (hdr_sig h = signature)) then errors.bad_file
  else if negb (bool_decide (hdr_version h = 0x000E0208))
          && negb (bool_decide (hdr_version h = 0x00080308)) then errors.version
  else if negb (bool_decide (hdr_version h = 0x000E0208))
          && negb (valid_page_size (hdr_page_size h)) then errors.bad_file
  else if negb (bool_decide (file_size mod effective_page_size h = 0))
          || negb (bool_decide (file_size / effective_page_size h = hdr_length h))
          || bool_decide (hdr_length h = 0) then errors.bad_file
  else errors.none.

(** The page slots that [cache_init] cuts [cache_data] into. *)
Definition slots (page_size_ : nat) (cache_size_ : nat) : list nat :=
  (fun i => (i * page_size_)%nat) <$> seq 0 (cache_size_ + 1).

(** The file object that [open] attaches. *)
Definition attached (os : file.os_file) : file.file :=
  {| file.file_handle := Some os;
     file.file_size := Z.of_nat (length (file.os_bytes os)) |}.

(** The object a successful [open] leaves: the header [h] in [db_hdr], the
    cache initialised for its page size, the file attached. *)
Definition opened (cached_ : nat) (os : file.os_file) (h : list byte) : pages :=
  {| db_hdr := h;
     file_iface := attached os;
     cache_size := cached_;
     cache_data :=
       replicate (Z.to_nat (hdr_page_size h) * (cached_ + 1)) "000"%byte;
     cache_pool := slots (Z.to_nat (hdr_page_size h)) cached_;
     cache_queue := cache.twoq_clear (cache.twoq_new cached_) |}.

(** The storage that [cache_init] asks for: the bytes of [cached_ + 1]
    pages, then as many pointers. *)
Definition cache_storage `{!platform} (cached_ : nat) (page_size_ : Z)
  : outcome unit :=
  _ ← storage (Z.of_nat (Z.to_nat page_size_ * (cached_ + 1)));
  storage (sizeof_pointer * Z.of_nat (cached_ + 1)).

(** Every platform call on the file succeeds. *)
Definition readable (os : file.os_file) : Prop :=
  file.os_open_error os = file.NO_ERROR
  /\ forall pos count, file.os_read_error os pos count = file.NO_ERROR.

(** The bytes of page [index_] in the file. *)
Definition page_of (os : file.os_file) (p : pages) (index_ : Z) : list byte :=
  take (Z.to_nat (page_size p)) (drop (Z.to_nat (page_size p * index_)) (file.os_bytes os)).

(** The [count_] bytes of the file at [index_ * page_size + pos_]. *)
Definition file_bytes (os : file.os_file) (p : pages) (index_ count_ pos_ : Z)
  : list byte :=
  take (Z.to_nat count_) (drop (Z.to_nat (index_ * page_size p + pos_)) (file.os_bytes os)).

(** Arguments of the types of [view]: a 32-bit index and two [std::size_t]. *)
Definition in_range (index_ count_ pos_ : Z) : Prop :=
  0 <= index_ <= uint32_max /\ 0 <= count_ <= size_t_max /\ 0 <= pos_ <= size_t_max.

(** The states of a [pages(cached_)] object on a file that the platform
    presents as [os] at the moment: what a successful [open] leaves, what
    [view] (hence [read]) makes of such a state, whether it returns or
    throws, and the same object when the platform has come to answer the
    calls on the file otherwise, the bytes of the file staying as they
    are: a read that went well before may fail now, and the reverse. *)
Inductive reachable `{!platform} (os : file.os_file) (cached_ : nat) : pages -> Prop :=
| reach_open e p :
    open (pages_new cached_) os = Ret (e, p) -> code e = errors.none ->
    reachable os cached_ p
| reach_view p index_ count_ pos_ r p' :
    reachable os cached_ p -> in_range index_ count_ pos_ ->
    view p index_ count_ pos_ = (r, p') ->
    defined r -> reachable os cached_ p'
| reach_platform os' p :
    reachable os' cached_ p -> file.os_bytes os' = file.os_bytes os ->
    reachable os cached_ (with_file p (attached os)).

(** What holds in every such state: the header describes the file, the
    slots are shared out between the free pool and the items of the queue,
    and the slot of a cached page holds the bytes of that page. *)
Record pages_inv (os : file.os_file) (cached_ : nat) (p : pages) : Prop := {
  inv_cache_size : cache_size p = cached_;
  inv_file : file_iface p = attached os;
  inv_page_size : valid_page_size (page_size p) = true;
  inv_length : 1 <= size p;
  inv_file_size : Z.of_nat (length (file.os_bytes os)) = size p * page_size p;
  inv_queue : cache_props.reachable cached_ (cache_queue p);
  inv_data :
    length (cache_data p) = (Z.to_nat (page_size p) * (cached_ + 1))%nat;
  inv_slots :
    cache_pool p ++ (cache_props.resident (cache_queue p)).*2
      ≡ₚ slots (Z.to_nat (page_size p)) cached_;
  inv_cached : forall k s,
    (k, s) ∈ cache_props.resident (cache_queue p) ->
    mem_read (cache_data p) s (Z.to_nat (page_size p)) = page_of os p k
}.

(** A request that [view] accepts. *)
Definition accepted (p : pages) (index_ count_ pos_ : Z) : Prop :=
  1 <= index_ < size p /\ 0 <= count_ /\ 0 <= pos_ < page_size p
  /\ pos_ + count_ <= page_size p.

End pages_props.

(** ** The record stride *)

Module records_props.

Import field.

(** The two roundings of a half. *)
Definition half_floor (n : Z) : Z := n / 2.
Definition half_ceil (n : Z) : Z := (n + 1) / 2.

(** The slot widths of the field types in the integers, the width of a
    digit of [length_] digits being [half (length_ + 2)]. *)
Definition slot_width (half : Z -> Z) (type : ftype.t) (length_ : Z) : Z :=
  match type with
  | ftype.binary => length_
  | ftype.boolean => 1
  | ftype.digit => half (length_ + 2)
  | ftype.str_fix => length_ * 2
  | ftype.str_var => length_ * 2 + 2
  | ftype.version => 16
  | ftype.str_blob => 8
  | ftype.bin_blob => 8
  | ftype.datetime => 7
  | ftype.unknown => 0
  end.

(** One byte when the column is nullable, plus the slot. *)
Definition column_width (half : Z -> Z) (prm : fparams.t) : Z :=
  (if fparams.null_exists prm then 1 else 0)
  + slot_width half (fparams.type prm) (fparams.length prm).

Definition columns_width (half : Z -> Z) (params_ : list fparams.t) : Z :=
  foldr (fun prm acc => column_width half prm + acc) 0 params_.

(** The tombstone byte and the columns, no less than [1 + 4] bytes. *)
Definition stride (half : Z -> Z) (params_ : list fparams.t) : Z :=
  Z.max (1 + 4) (1 + columns_width half params_).

(** A schema whose record size [std::size_t] arithmetic computes without
    wrap-around: every type is known, the lengths leave room for the [+ 2],
    and the sum of the widths fits. *)
Definition representable (params_ : list fparams.t) : Prop :=
  Z.of_nat (length params_) <= uint32_max
  /\ Forall (fun prm => fparams.type prm <> ftype.unknown
                        /\ 0 <= fparams.length prm <= size_t_max - 2) params_
  /\ 1 + columns_width half_floor params_ <= size_t_max.

End records_props.

(** ** Chains of BLOB blocks *)

Module blob_props.

(** The payload of a block: its first [length] data bytes. *)
Definition payload (buffer : buffer_type) : buffer_type :=
  take (Z.to_nat (blob.length buffer)) (blob.data buffer).

(** A block that passes the checks of [get] when no size is expected. *)
Definition valid_block (buffer : buffer_type) : Prop :=
  blob.length buffer <= blob.sizeof_data
  /\ (blob.length buffer = 0 -> blob.nextblock buffer = 0).

#[global] Instance valid_block_dec buffer : Decision (valid_block buffer).
Proof. unfold valid_block. apply _. Defined.

(** The number of 256-byte blocks of the object of a BLOB. *)
Definition block_count {T : Type} `{object_type T} (b : blob.blob T) : Z :=
  wrap 32 (object_size (blob.obj_iface b) / blob.sizeof_blob_blk).

(** A block that a pass of [get] takes into the result [res] gathered so
    far: it passes the check of its length, fits the room that an expected
    size leaves, and the result gets the storage for its payload. *)
Definition taken `{!platform} (size_ : Z) (res : buffer_type)
    (buffer : buffer_type) : Prop :=
  valid_block buffer
  /\ (size_ <> 0 -> blob.length buffer <= size_ - Z.of_nat (length res))
  /\ blob.grow size_ res (blob.length buffer) = Ret ().

#[global] Instance taken_dec `{!platform} size_ res buffer :
  Decision (taken size_ res buffer).
Proof. unfold taken. apply _. Defined.

(** Blocks taken one after the other. *)
Fixpoint all_taken `{!platform} (size_ : Z) (res : buffer_type)
    (blks : list buffer_type) : Prop :=
  match blks with
  | [] => True
  | blk :: rest => taken size_ res blk /\ all_taken size_ (res ++ payload blk) rest
  end.

#[global] Instance all_taken_dec `{!platform} size_ res blks :
  Decision (all_taken size_ res blks).
Proof. revert res. induction blks as [|blk blks IH]; intros res; simpl; apply _. Defined.

(** The passes that the cap of the loop of [get] lets through, all of
    them taking a block that links on. *)
Definition exhausted `{!platform} (size_ : Z) (res : buffer_type)
    (blks : list buffer_type) (cap : nat) : Prop :=
  length blks = cap /\ all_taken size_ res blks
  /\ Forall (fun blk => blob.nextblock blk <> 0) blks.

#[global] Instance exhausted_dec `{!platform} size_ res blks cap :
  Decision (exhausted size_ res blks cap).
Proof. unfold exhausted. apply _. Defined.

(** Where an exception comes from that is not of [get]'s own making: the
    storage of the result or a read of a block of the object. *)
Definition foreign {T : Type} `{object_type T} (b : blob.blob T)
    (blk_count : Z) (e : exn) : Prop :=
  (e = std_length_error \/ e = std_bad_alloc)
  \/ exists p' i, 0 < i < blk_count
       /\ (object_read (blob.obj_iface b) p' blob.sizeof_blob_blk
             (blob.sizeof_blob_blk * i)).1
          = Throw e.

(** The exceptions of the checks of [get] on a block and on the result. *)
Definition check_errors : list string :=
  ["Index of next BLOB block exceeds object size.";
   "Wrong 'length' value in BLOB block.";
   "Not enough destination buffer size for BLOB.";
   "Size of BLOB not equal requested value."]%string.

End blob_props.

(** * Concrete inputs *)

Module examples.

Import cache.

(** A push sequence on a 2Q cache, the evicted items dropped. *)
Fixpoint twoq_push_all (q : twoq Z Z) (items : list (Z * Z)) : outcome (twoq Z Z) :=
  match items with
  | [] => Ret q
  | x :: rest => '(_, q') ← twoq_push q x; twoq_push_all q' rest
  end.

Definition twoq_after (size_ : nat) (items : list (Z * Z)) : twoq Z Z :=
  match twoq_push_all (twoq_new size_) items with
  | Ret q => q
  | _ => twoq_new size_
  end.

(** A cache of eight items, [in] holding two of them, after one, two and
    three pushes; the third evicts key [1] from [in]. *)
Definition q8_1 : twoq Z Z := Eval vm_compute in twoq_after 8 [(1, 10)].
Definition q8_2 : twoq Z Z := Eval vm_compute in twoq_after 8 [(1, 10); (2, 20)].
Definition q8_3 : twoq Z Z :=
  Eval vm_compute in twoq_after 8 [(1, 10); (2, 20); (3, 30)].

(** The same cache after key [1] was pushed twice in a row. *)
Definition q8_twice : twoq Z Z := Eval vm_compute in twoq_after 8 [(1, 10); (1, 20)].

(** Platforms.  One that has storage for every request and no text for
    any system error, and one whose free store gives 16 KiB at most and
    whose containers hold [2^63 - 1] bytes at most. *)
Definition ample : platform :=
  {| allocate := fun _ => None;
     FormatMessageA := fun _ _ => (0%nat, []);
     FormatMessageA_fits := fun _ size => Nat.le_0_l size |}.

Definition scarce : platform :=
  {| allocate := fun bytes =>
       if bool_decide (bytes <= 16384) then None
       else if bool_decide (bytes < 2 ^ 63) then Some no_memory
       else Some too_long;
     FormatMessageA := fun _ _ => (0%nat, []);
     FormatMessageA_fits := fun _ size => Nat.le_0_l size |}.

#[local] Existing Instance ample.

(** Files. *)

Definition pad (n : nat) (l : list byte) : list byte :=
  l ++ replicate (n - length l) "000"%byte.

Definition db_hdr_bytes (version length page_size : Z) : list byte :=
  pages.signature ++ le_bytes 4 version ++ le_bytes 4 length
    ++ le_bytes 4 0 ++ le_bytes 4 page_size.

(** A file on which every platform call succeeds. *)
Definition plain_file (bytes : list byte) : file.os_file :=
  {| file.os_bytes := bytes;
     file.os_open_error := file.NO_ERROR;
     file.os_read_error := fun _ _ => file.NO_ERROR;
     file.os_short_error := file.NO_ERROR |}.

(** A database of three pages of 4096 bytes in the newer format: the
    header page, a page of ['a'] and a page of ['b']. *)
Definition db_ab_bytes : list byte :=
  pad (Z.to_nat 4096) (db_hdr_bytes 0x00080308 3 4096)
    ++ replicate (Z.to_nat 4096) "a"%byte ++ replicate (Z.to_nat 4096) "b"%byte.

Definition db_ab : file.os_file := plain_file db_ab_bytes.

(** The same file on a device that fails every read at offset 4096 with
    [ERROR_CRC] (23). *)
Definition db_ab_faulty : file.os_file :=
  {| file.os_bytes := db_ab_bytes;
     file.os_open_error := file.NO_ERROR;
     file.os_read_error := fun pos _ => if bool_decide (pos = 4096) then 23 else file.NO_ERROR;
     file.os_short_error := file.NO_ERROR |}.

(** The [pages] objects that [open] leaves on these two, with a cache of
    four pages. *)
Definition pages_on (os : file.os_file) : pages.pages :=
  match pages.open (pages.pages_new 4) os with
  | Ret (_, p) => p
  | _ => pages.pages_new 4
  end.

Definition pages_ab : pages.pages := pages_on db_ab.
Definition pages_ab_faulty : pages.pages := pages_on db_ab_faulty.

(** One page with the signature and the version tag [0]. *)
Definition db_version_0 : file.os_file :=
  plain_file (pad (Z.to_nat 4096) (db_hdr_bytes 0 1 4096)).

(** The newer format with a page size of 5000, on a file of 5000 bytes. *)
Definition db_page_5000 : file.os_file :=
  plain_file (pad (Z.to_nat 5000) (db_hdr_bytes 0x00080308 1 5000)).

(** The older format: the header states a page size of 8192, the file has
    two pages of 4096 bytes. *)
Definition db_old : file.os_file :=
  plain_file (pad (Z.to_nat 8192) (db_hdr_bytes 0x000E0208 2 8192)).

(** Objects.  A database of three pages in the newer format: the header
    page, the header page of one object with a direct placement table, and
    the page with the [data] of that object. *)

Definition obj_hdr_bytes (length : Z) (blocks : list Z) : list byte :=
  le_bytes 2 0xFD1C ++ le_bytes 2 0 ++ le_bytes 12 0 ++ le_bytes 8 length
    ++ concat (le_bytes 4 <$> blocks).

Definition db_object (data : list byte) : file.os_file :=
  plain_file
    (pad (Z.to_nat 4096) (db_hdr_bytes 0x00080308 3 4096)
       ++ pad (Z.to_nat 4096) (obj_hdr_bytes (Z.of_nat (length data)) [2])
       ++ pad (Z.to_nat 4096) data).

(** A BLOB block. *)
Definition blk (next : Z) (payload : string) : list byte :=
  pad 256 (le_bytes 4 next
             ++ le_bytes 2 (Z.of_nat (length (list_byte_of_string payload)))
             ++ list_byte_of_string payload).

Definition blob_on (blks : list (list byte)) : option (blob.blob db_1c_83.object * pages.pages) :=
  match blob.new (pages_on (db_object (concat blks))) 1 with
  | (Ret b, p) => Some (b, p)
  | _ => None
  end.

Definition get_on (blks : list (list byte)) (index_ size_ : Z) : option blob.run :=
  '(b, p) ← blob_on blks; Some (blob.get_run b p index_ size_).

(** Three blocks, the second and the third linking to each other. *)
Definition blks_cycle : list (list byte) := [blk 0 ""; blk 2 "abc"; blk 1 "de"].

(** Three blocks, the second linking to the third, which ends the chain. *)
Definition blks_chain : list (list byte) := [blk 0 ""; blk 2 "abc"; blk 0 "de"].

(** Three blocks, the second linking to a block the object does not have. *)
Definition blks_stray : list (list byte) := [blk 0 ""; blk 7 "abc"; blk 0 "de"].

Definition blob_of (blks : list (list byte)) : blob.blob db_1c_83.object :=
  match blob_on blks with
  | Some (b, _) => b
  | None => blob.mk_blob (db_1c_83.mk_object [])
  end.

Definition pages_of (blks : list (list byte)) : pages.pages :=
  match blob_on blks with
  | Some (_, p) => p
  | None => pages.pages_new 4
  end.

(** A stand-in for zlib whose [inflate] takes all the input it is given,
    stores nothing and reports [Z_OK]. *)
Definition idle_inflateInit2 (windowBits : Z) : Z * unit := (blob_base.Z_OK, ()).
Definition idle_inflate (strm : unit) (next_in : list byte) (avail_out : Z)
  : Z * unit * Z * list byte :=
  (blob_base.Z_OK, (), Z.of_nat (length next_in), []).
Definition idle_inflateEnd (strm : unit) : Z := blob_base.Z_OK.
Definition no_to_string (res : Z) : string := "".

(** Tables. *)

Definition column (name : string) (type : field.ftype.t) (null_exists : bool)
    (length : Z) : field.fparams.t :=
  {| field.fparams.name := L name; field.fparams.type := type;
     field.fparams.null_exists := null_exists; field.fparams.length := length;
     field.fparams.precision := 0; field.fparams.case_sens := false |}.

(** One digit column of nine digits. *)
Definition schema_digit9 : list field.fparams.t :=
  [column "N" field.ftype.digit false 9].

(** The columns of the user list: [NAME: NVC(64)], nullable, and [SHOW: L]. *)
Definition schema_users : list field.fparams.t :=
  [column "NAME" field.ftype.str_var true 64; column "SHOW" field.ftype.boolean false 0].

(** A table of two records with the columns [SHOW: L] and [NAME: NVC(2)],
    nullable: the first record shows ["hi"], the second is deleted. *)
Definition schema_small : list field.fparams.t :=
  [column "SHOW" field.ftype.boolean false 0; column "NAME" field.ftype.str_var true 2].

Definition table_small : list byte :=
  (le_bytes 1 0 ++ le_bytes 1 1 ++ le_bytes 1 1 ++ le_bytes 2 2
     ++ le_bytes 2 104 ++ le_bytes 2 105)
  ++ (le_bytes 1 1 ++ le_bytes 8 0).

(** The cursor that the constructor leaves on that table. *)
Definition cursor_small : option (records.records db_1c_83.object * pages.pages) :=
  match records.new (pages_on (db_object table_small)) 1 schema_small with
  | (Ret r, p) => Some (r, p)
  | _ => None
  end.

Definition cursor_small_fresh : records.records db_1c_83.object :=
  match cursor_small with
  | Some (r, _) => r
  | None => records.mk_records [] ∅ (db_1c_83.mk_object []) [] 0 None
  end.

End examples.

(** * Runs of operations *)

(** ** Runs of pushes on the queues of cache.h *)

Module cache_runs.

Import cache.

Section runs.
Context {Tindex Tvalue : Type} `{EqDecision Tindex}.

(** The items pushed one after the other; the evicted items are
    gathered in the order in which the calls returned them. *)
Fixpoint fifo_push_all (q : fifo Tindex Tvalue) (xs : list (Tindex * Tvalue))
  : outcome (list (Tindex * Tvalue) * fifo Tindex Tvalue) :=
  match xs with
  | [] => Ret ([], q)
  | x :: rest =>
      '(ev, q) ← fifo_push q x;
      '(evs, q) ← fifo_push_all q rest;
      Ret (option_list ev ++ evs, q)
  end.

Fixpoint lru_push_all (q : lru Tindex Tvalue) (xs : list (Tindex * Tvalue))
  : outcome (list (Tindex * Tvalue) * lru Tindex Tvalue) :=
  match xs with
  | [] => Ret ([], q)
  | x :: rest =>
      '(ev, q) ← lru_push q x;
      '(evs, q) ← lru_push_all q rest;
      Ret (option_list ev ++ evs, q)
  end.

(** The state of a [fifo] of [n] items that holds [recent], oldest
    first: below its capacity the vector is [recent]; at its capacity
    the vector is [recent] turned so that the oldest item sits where
    [next_item] will overwrite. *)
Definition fifo_holds (n : nat) (q : fifo Tindex Tvalue)
    (recent : list (Tindex * Tvalue)) : Prop :=
  fifo_max_size q = n
  /\ ((length recent < n)%nat /\ fifo_items q = recent
      \/ length recent = n
         /\ (1 <= fifo_next_item q <= n)%nat
         /\ fifo_items q
            = drop (n - fifo_next_item q) recent ++ take (n - fifo_next_item q) recent).
End runs.

End cache_runs.

(** ** The data of an object of the 8.3.8 format *)

Module object_props.

Import pages_props db_1c_83.
Local Abbreviation pages := pages.pages.

(** The object whose header page is page [index_] of the file. *)
Definition object_at (os : file.os_file) (p : pages) (index_ : Z) : object :=
  {| hdr_page := page_of os p index_ |}.

(** How many pages the data of the object takes. *)
Definition pages_count (o : object) (p : pages) : Z :=
  hdr_length o / pages.page_size p
  + (if bool_decide (hdr_length o mod pages.page_size p = 0) then 0 else 1).

(** The entries of the header and of a page of the placement table. *)
Definition records_in_hdr (p : pages) : Z :=
  (pages.page_size p - sizeof_obj_hdr) / sizeof_index_type.
Definition records_in_pmt (p : pages) : Z := pages.page_size p / sizeof_index_type.

(** The index of the page that holds page number [k] of the data: the
    entry [k] of the header with a direct placement table, the entry
    [k mod records_in_pmt] of the table page that the header names at
    [k / records_in_pmt] otherwise. *)
Definition page_index (os : file.os_file) (p : pages) (o : object) (k : Z) : Z :=
  if bool_decide (hdr_pmt_type o = 0x01) then
    mem_get (page_of os p (hdr_blocks o (k / records_in_pmt p)))
      (Z.to_nat (sizeof_index_type * (k mod records_in_pmt p))) 4
  else hdr_blocks o k.

(** The placement table of the object stays inside the database: every
    page number of the data has an entry, and the entries name pages of
    the file other than the first. *)
Definition placed (os : file.os_file) (p : pages) (o : object) : Prop :=
  forall k, 0 <= k < pages_count o p ->
    (if bool_decide (hdr_pmt_type o = 0x01)
     then k / records_in_pmt p < records_in_hdr p
          /\ 1 <= hdr_blocks o (k / records_in_pmt p) < pages.size p
     else k < records_in_hdr p)
    /\ 1 <= page_index os p o k < pages.size p.

(** The pages of the data, in the order of their numbers, and the data:
    the first [length] bytes of these pages. *)
Definition data_pages (os : file.os_file) (p : pages) (o : object) : list (list byte) :=
  (fun k => page_of os p (page_index os p o (Z.of_nat k)))
    <$> seq 0 (Z.to_nat (pages_count o p)).

Definition data (os : file.os_file) (p : pages) (o : object) : list byte :=
  take (Z.to_nat (hdr_length o)) (concat (data_pages os p o)).


(** An interval that [object::read] accepts. *)
Definition inside (o : object) (count_ pos_ : Z) : Prop :=
  0 <= count_ <= size_t_max /\ 0 <= pos_ < hdr_length o
  /\ pos_ + count_ <= hdr_length o.

End object_props.

(** ** Cursors over a schema *)

Module cursor_props.

Import field records.

(** A cursor over the columns [params_]: its helpers, its name index and
    the size of its record buffer are those that [prepare_fields] computes
    for [params_], as the constructor leaves them. *)
Definition cursor_of {T : Type} (params_ : list fparams.t) (r : records T) : Prop :=
  prepare_fields params_ = Ret (fields r, indexes r, Z.of_nat (length (record r))).

(** No column after position [k] has the name [name]. *)
Definition last_named (params_ : list fparams.t) (k : nat) (name : wstring) : Prop :=
  forall j prm, (k < j)%nat -> params_ !! j = Some prm -> fparams.name prm <> name.

End cursor_props.

(** ** Records and BLOB blocks in the data of an object *)

Module data_props.

Import pages_props object_props.

(** The piece number [i] of data cut into pieces of [size_] bytes. *)
Definition piece (data : list byte) (size_ : Z) (i : Z) : list byte :=
  take (Z.to_nat size_) (drop (Z.to_nat (size_ * i)) data).

(** A cursor that holds, when it is positioned, the record of the data
    of its object that it is positioned on. *)
Definition loaded (os : file.os_file) (p : pages.pages)
    (r : records.records db_1c_83.object) : Prop :=
  forall i, records.last_index r = Some i ->
    records.record r
    = piece (data os p (records.obj_iface r))
        (Z.of_nat (length (records.record r))) i.

(** Blocks that follow one another in the data from block [i] on: each
    is the block that the [nextblock] of the one before names. *)
Fixpoint chained (data : list byte) (i : Z) (blks : list buffer_type) : Prop :=
  match blks with
  | [] => True
  | blk :: rest =>
      blk = piece data blob.sizeof_blob_blk i
      /\ chained data (blob.nextblock blk) rest
  end.

End data_props.

(** ** db_1c_83::root *)

Module root.

Definition sizeof_root_hdr : Z := 36.
Definition sizeof_index_type : Z := 4.

Record root : Type := mk_root {
  blob_iface : blob.blob db_1c_83.object;    (* BLOB with the descriptions of tables *)
  hdr_data : buffer_type                     (* buffer with the root-object header *)
}.

(** The packed [root_hdr] at the start of [hdr_data]. *)
Definition numtables (hdr_data : buffer_type) : Z := mem_get hdr_data 32 4.
Definition tables (hdr_data : buffer_type) (n : Z) : Z :=
  mem_get hdr_data (Z.to_nat (sizeof_root_hdr + sizeof_index_type * n)) 4.

Definition new `{!platform} (p : pages.pages) : outcome root * pages.pages :=
  let* (b, p) := blob.new p 2 in
  let* (hdr_data, p) := blob.get b p 1 0 in
  let blob_size := Z.of_nat (length hdr_data) in
  let tables_count := wrap 64 (blob_size - sizeof_root_hdr) / sizeof_index_type in
  if bool_decide (blob_size < sizeof_root_hdr)
     || negb (bool_decide (tables_count = numtables hdr_data)) then
    (throw "Invalid root-object.", p)
  else (Ret {| blob_iface := b; hdr_data := hdr_data |}, p).

Definition size (rt : root) : Z := numtables (hdr_data rt).

(** [read]: each byte of the description becomes one [wchar_t]. *)
Definition read `{!platform} (rt : root) (p : pages.pages) (num_ : Z)
  : outcome wstring * pages.pages :=
  if bool_decide (num_ >= size rt) then
    (throw "Requested table index exceeds tables count in database.", p)
  else
    let index := tables (hdr_data rt) num_ in
    let* (res_blob, p) := blob.get (blob_iface rt) p index 0 in
    (Ret (byte_to_Z <$> res_blob), p).

End root.

(** ** db_1cd_8x::blob_base::utf8to16

    The platform is a collaborator: [MultiByteToWideChar src cch] stands for
    the WinAPI call on the bytes [src] with [CP_UTF8] and a destination of
    [cch] characters.  It yields the value the call returns and the
    characters it stored; with [cch = 0] the call stores nothing and returns
    the length the conversion needs, [0] reporting an error. *)

Module utf8.

Definition int_max : Z := 2 ^ 31 - 1.
Definition BOM : list byte := ["239"; "187"; "191"]%byte.     (* EF BB BF *)

Section platform.
Variable MultiByteToWideChar : list byte -> nat -> nat * wstring.

Definition utf8to16 (src_ : buffer_type) : outcome wstring :=
  let src_size := Z.of_nat (length src_) in
  if bool_decide (src_size < 3)
     || negb (bool_decide (src_ !! 0%nat = Some "239"%byte))
     || negb (bool_decide (src_ !! 1%nat = Some "187"%byte))
     || negb (bool_decide (src_ !! 2%nat = Some "191"%byte)) then
    throw "The buffer data does not contain UTF-8 string to UTF-16 conversion."
  else if bool_decide (src_size = 3) then Ret []
  else
    let src_size := src_size - 3 in
    if bool_decide (src_size > int_max) then
      throw "Length of source string to conversion from UTF-8 to UTF-16 too large."
    else
      let src_ptr := drop 3 src_ in
      let '(size, _) := MultiByteToWideChar src_ptr 0 in
      if bool_decide (size = 0%nat) then
        throw "Error while UTF-16 string size calculation."
      else
        let '(size', stored) := MultiByteToWideChar src_ptr size in
        if bool_decide (size < length stored)%nat then
          Undefined "utf8to16: the platform wrote past the end of the string"
        else if negb (bool_decide (size' = size)) then
          throw "Error while string conversion UTF-8 to UTF-16."
        else Ret (stored ++ replicate (size - length stored) 0).
End platform.

End utf8.

(** * Further concrete inputs *)

Module samples.

Import examples.
#[local] Existing Instance ample.

(** The database whose one object holds the two records of
    [table_small], and the [pages] object that [open] leaves on it. *)
Definition db_small : file.os_file := db_object table_small.
Definition pages_small : pages.pages := pages_on db_small.

(** The object at page [1] of that database. *)
Definition object_small : db_1c_83.object :=
  object_props.object_at db_small pages_small 1.

(** The cursor on [table_small], fresh from the constructor and after
    [seek(0)] and [seek(1)], with the [pages] object they share. *)
Definition cursor_pages : pages.pages :=
  match cursor_small with
  | Some (_, p) => p
  | None => pages.pages_new 4
  end.

Definition cursor_at (index_ : Z) : records.records db_1c_83.object :=
  (records.seek cursor_small_fresh cursor_pages index_).1.2.

(** The database whose one object holds the three blocks of
    [blks_chain]. *)
Definition db_chain : file.os_file := db_object (concat blks_chain).

(** A database with a root object at page [2]: block [1] of its BLOB is
    the root header, naming one table whose description is block [2]. *)
Definition blk_of (next : Z) (payload : list byte) : list byte :=
  pad 256 (le_bytes 4 next ++ le_bytes 2 (Z.of_nat (length payload)) ++ payload).

Definition root_hdr_bytes (lang : string) (tables : list Z) : list byte :=
  pad 32 (list_byte_of_string lang)
    ++ le_bytes 4 (Z.of_nat (length tables)) ++ concat (le_bytes 4 <$> tables).

Definition db_root : file.os_file :=
  plain_file
    (pad (Z.to_nat 4096) (db_hdr_bytes 0x00080308 4 4096)
       ++ replicate (Z.to_nat 4096) "000"%byte
       ++ pad (Z.to_nat 4096) (obj_hdr_bytes 768 [3])
       ++ pad (Z.to_nat 4096)
            (concat [blk 0 ""; blk_of 0 (root_hdr_bytes "ru_RU" [2]); blk 0 "{T}"])).

Definition root_on (os : file.os_file) : option (root.root * pages.pages) :=
  match root.new (pages_on os) with
  | (Ret rt, p) => Some (rt, p)
  | _ => None
  end.

Definition root_small : root.root :=
  match root_on db_root with
  | Some (rt, _) => rt
  | None => root.mk_root (blob.mk_blob (db_1c_83.mk_object [])) []
  end.

Definition root_pages : pages.pages :=
  match root_on db_root with
  | Some (_, p) => p
  | None => pages.pages_new 4
  end.

(** A stand-in for zlib whose [inflate] stores the input as it is, as
    much of it as the output has room for, and reports [Z_STREAM_END]
    once all of it is stored. *)
Definition stored_inflate (strm : unit) (next_in : list byte) (avail_out : Z)
  : Z * unit * Z * list byte :=
  let produced := take (Z.to_nat avail_out) next_in in
  (if bool_decide (length produced = length next_in)
   then blob_base.Z_STREAM_END else blob_base.Z_OK,
   (), Z.of_nat (length produced), produced).

(** A stand-in for the platform's converter that widens each byte, as
    the conversion of ASCII text does. *)
Definition widen (src : list byte) (cch : nat) : nat * wstring :=
  if bool_decide (cch = 0%nat) then (length src, [])
  else (length src, take cch (byte_to_Z <$> src)).

End samples.

(** * Properties *)

(** ** cache.h: FIFO, LRU and 2Q *)

Module cache_facts.

Import cache cache_props.

Section facts.
Context {Tindex Tvalue : Type} `{EqDecision Tindex}.
Implicit Types (k : Tindex) (v : Tvalue).

(** *** The linear scan *)

Lemma item_find_le {V : Type} (items : list (Tindex * V)) k :
  (item_find items k <= length items)%nat.
Proof.
  induction items as [|i rest IH]; simpl; [lia|].
  destruct (decide (i.1 = k)); lia.
Qed.

Lemma item_find_assoc {V : Type} (items : list (Tindex * V)) k :
  snd <$> items !! item_find items k = assoc items k.
Proof.
  induction items as [|i rest IH]; simpl; [done|].
  destruct (decide (i.1 = k)); [done|]. exact IH.
Qed.

Lemma item_find_end {V : Type} (items : list (Tindex * V)) k :
  item_find items k = length items <-> k ∉ items.*1.
Proof.
  induction items as [|i rest IH]; simpl.
  - split; [intros _; apply not_elem_of_nil | done].
  - rewrite not_elem_of_cons. destruct (decide (i.1 = k)) as [->|Hne].
    + split; [lia | intros [? _]; done].
    + split.
      * intros Heq. split; [congruence|]. apply IH. lia.
      * intros [_ Hk]. apply IH in Hk. lia.
Qed.

Lemma item_find_lookup {V : Type} (items : list (Tindex * V)) k :
  k ∈ items.*1 ->
  exists x, items !! item_find items k = Some (k, x) /\ assoc items k = Some x.
Proof.
  induction items as [|[k' x'] rest IH]; simpl.
  - intros Hk. by apply elem_of_nil in Hk.
  - intros Hk. destruct (decide (k' = k)) as [->|Hne]; [by eauto|].
    apply elem_of_cons in Hk as [?|Hk]; [congruence|]. by apply IH.
Qed.

Lemma assoc_None {V : Type} (items : list (Tindex * V)) k :
  assoc items k = None <-> k ∉ items.*1.
Proof.
  induction items as [|i rest IH]; simpl.
  - split; [intros _; apply not_elem_of_nil | done].
  - rewrite not_elem_of_cons. destruct (decide (i.1 = k)) as [->|Hne].
    + split; [done | intros [? _]; done].
    + rewrite IH. split; [by auto | by intros [_ ?]].
Qed.

Lemma assoc_Some_elem {V : Type} (items : list (Tindex * V)) k (x : V) :
  assoc items k = Some x -> (k, x) ∈ items.
Proof.
  induction items as [|[k' x'] rest IH]; simpl; [done|].
  destruct (decide (k' = k)) as [->|Hne].
  - intros [= ->]. by left.
  - intros Hx. right. by apply IH.
Qed.

(** A key stored once is found with the value stored under it. *)
Lemma assoc_app_fresh {V : Type} (items : list (Tindex * V)) k (x : V) :
  k ∉ items.*1 -> assoc (items ++ [(k, x)]) k = Some x.
Proof.
  induction items as [|i rest IH]; simpl.
  - intros _. by rewrite decide_True.
  - rewrite not_elem_of_cons. intros [Hne Hk]. by rewrite decide_False; auto.
Qed.

Lemma assoc_insert_fresh {V : Type} (items : list (Tindex * V)) k (x : V) (i : nat) :
  k ∉ items.*1 -> (i < length items)%nat -> assoc (<[i := (k, x)]> items) k = Some x.
Proof.
  revert i. induction items as [|it rest IH]; simpl; intros i Hk Hi; [lia|].
  apply not_elem_of_cons in Hk as [Hne Hk]. destruct i as [|i]; simpl.
  - by rewrite decide_True.
  - rewrite decide_False by done. apply IH; [done | lia].
Qed.

Lemma fifo_find_assoc {V : Type} (q : fifo Tindex V) k :
  fifo_find q k = assoc (fifo_items q) k.
Proof.
  unfold fifo_find. destruct (decide _) as [Hne|Heq].
  - apply item_find_assoc.
  - apply dec_stable in Heq. symmetry. apply assoc_None.
    by apply item_find_end.
Qed.

Lemma fifo_find_None {V : Type} (q : fifo Tindex V) k :
  fifo_find q k = None <-> k ∉ (fifo_items q).*1.
Proof. rewrite fifo_find_assoc. apply assoc_None. Qed.

(** *** [fifo::push] *)

Lemma fifo_push_wf {V : Type} (q : fifo Tindex V) (x : Tindex * V) :
  fifo_wf q ->
  exists ev q', fifo_push q x = Ret (ev, q') /\ fifo_wf q'
    /\ fifo_max_size q' = fifo_max_size q.
Proof.
  intros (Hmax & Hlen & Hnext). unfold fifo_push, fifo_item_push.
  destruct (decide _) as [Hlt|Hge].
  - eexists _, _. split; [done|]. split; [|done].
    repeat split; simpl; rewrite ?length_app; simpl; lia.
  - set (n := if decide (fifo_next_item q = length (fifo_items q))
              then 0%nat else fifo_next_item q).
    assert (n < length (fifo_items q))%nat as Hn.
    { subst n. destruct (decide _); lia. }
    destruct (lookup_lt_is_Some_2 _ _ Hn) as [old Hold]. rewrite Hold.
    eexists _, _. split; [done|]. split; [|done].
    repeat split; simpl; rewrite ?length_insert; lia.
Qed.

(** What a push that returns did to the items. *)
Lemma fifo_push_items {V : Type} (q q' : fifo Tindex V) (x : Tindex * V) ev :
  fifo_push q x = Ret (ev, q') ->
  fifo_max_size q' = fifo_max_size q
  /\ match ev with
     | None => fifo_items q' = fifo_items q ++ [x]
     | Some old =>
         exists i, fifo_items q !! i = Some old
                   /\ fifo_items q' = <[i := x]> (fifo_items q)
     end.
Proof.
  unfold fifo_push, fifo_item_push. destruct (decide _) as [Hlt|Hge].
  - intros [= <- <-]. done.
  - destruct (fifo_items q !! _) as [old|] eqn:Hold; [|done].
    intros [= <- <-]. split; [done|]. eauto.
Qed.

Lemma fifo_push_perm {V : Type} (q q' : fifo Tindex V) (x : Tindex * V) ev :
  fifo_push q x = Ret (ev, q') ->
  option_list ev ++ fifo_items q' ≡ₚ x :: fifo_items q.
Proof.
  intros [_ Hit]%fifo_push_items. destruct ev as [old|]; simpl.
  - destruct Hit as (i & Hold & ->).
    rewrite (delete_Permutation _ _ _ Hold) at 2.
    rewrite insert_take_drop by eauto using lookup_lt_Some.
    rewrite delete_take_drop. by solve_Permutation.
  - rewrite Hit. by rewrite Permutation_app_comm.
Qed.

(** *** [lru] *)

Lemma lru_push_wf (q : lru Tindex Tvalue) (x : Tindex * Tvalue) :
  lru_wf q ->
  exists ev q', lru_push q x = Ret (ev, q') /\ lru_wf q'
    /\ lru_max_size q' = lru_max_size q.
Proof.
  intros (Hmax & Hlen). unfold lru_push, lru_item_push.
  destruct (decide _) as [Hlt|Hge].
  - eexists _, _. split; [done|]. split; [|done].
    split; simpl; rewrite ?length_app; simpl; lia.
  - destruct (lru_items q) as [|old rest] eqn:Hit; [simpl in *; lia|].
    eexists _, _. split; [done|]. split; [|done].
    split; simpl in *; rewrite ?length_app; simpl; lia.
Qed.

Lemma lru_push_items (q q' : lru Tindex Tvalue) (x : Tindex * Tvalue) ev :
  lru_push q x = Ret (ev, q') ->
  lru_max_size q' = lru_max_size q
  /\ option_list ev ++ lru_items q' = lru_items q ++ [x].
Proof.
  unfold lru_push, lru_item_push. destruct (decide _) as [Hlt|Hge].
  - intros [= <- <-]. done.
  - destruct (lru_items q) as [|old rest]; [done|].
    intros [= <- <-]. done.
Qed.

Lemma lru_find_miss (q : lru Tindex Tvalue) k :
  k ∉ (lru_items q).*1 -> lru_find q k = (None, q).
Proof.
  intros Hk. unfold lru_find. apply item_find_end in Hk.
  by rewrite decide_False by (by intros ?).
Qed.

Lemma lru_find_hit (q : lru Tindex Tvalue) k :
  k ∈ (lru_items q).*1 ->
  exists v i, lru_items q !! i = Some (k, v)
    /\ assoc (lru_items q) k = Some v
    /\ lru_find q k =
         (Some v, {| lru_max_size := lru_max_size q;
                     lru_items := delete i (lru_items q) ++ [(k, v)] |}).
Proof.
  intros Hk. destruct (item_find_lookup _ _ Hk) as (v & Hi & Ha).
  exists v, (item_find (lru_items q) k). split; [done|]. split; [done|].
  unfold lru_find. rewrite decide_True; last first.
  { intros Hend. by apply item_find_end in Hend. }
  unfold item_move_top. rewrite Hi. by rewrite last_snoc.
Qed.

Lemma lru_find_None (q : lru Tindex Tvalue) k :
  (lru_find q k).1 = None <-> k ∉ (lru_items q).*1.
Proof.
  split.
  - intros Hf Hk. destruct (lru_find_hit q k Hk) as (v & i & _ & _ & Heq).
    by rewrite Heq in Hf.
  - intros Hk. by rewrite lru_find_miss.
Qed.

(** *** [twoq] *)

Lemma twoq_find_spec (q q' : twoq Tindex Tvalue) k r :
  twoq_find q k = (r, q') ->
  tq_in q' = tq_in q /\ tq_out q' = tq_out q
  /\ lru_max_size (tq_main q') = lru_max_size (tq_main q)
  /\ lru_items (tq_main q') ≡ₚ lru_items (tq_main q)
  /\ (forall v, r = Some v -> (k, v) ∈ resident q)
  /\ (r = None -> q' = q).
Proof.
  unfold twoq_find, resident.
  destruct (decide (k ∈ (lru_items (tq_main q)).*1)) as [Hk|Hk].
  - destruct (lru_find_hit _ _ Hk) as (v & i & Hi & Ha & ->). simpl.
    intros [= <- <-]. simpl. repeat split; try done.
    + rewrite (delete_Permutation _ _ _ Hi) at 2.
      by rewrite Permutation_app_comm.
    + intros v' [= <-]. apply elem_of_app. right.
      by eapply list_elem_of_lookup_2.
  - rewrite (lru_find_miss _ _ Hk). intros [= <- <-]. simpl.
    repeat split; try done.
    + intros v Hv. apply elem_of_app. left.
      rewrite fifo_find_assoc in Hv. by apply assoc_Some_elem.
    + intros _. by destruct q.
Qed.

Lemma twoq_find_wf (q : twoq Tindex Tvalue) k :
  twoq_wf q -> twoq_wf (twoq_find q k).2.
Proof.
  intros (Hin & Hout & Hmax & Hlen).
  destruct (twoq_find q k) as [r q'] eqn:Hf.
  apply twoq_find_spec in Hf as (Ein & Eout & Emax & Eit & _). simpl.
  split; [by rewrite Ein|]. split; [by rewrite Eout|].
  split; [by rewrite Emax|]. by rewrite Eit, Emax.
Qed.

Lemma twoq_clear_wf (q : twoq Tindex Tvalue) :
  twoq_wf q -> twoq_wf (twoq_clear q).
Proof.
  intros ((? & _) & (? & _) & (? & _)).
  repeat split; simpl; lia.
Qed.

Lemma twoq_push_wf (q : twoq Tindex Tvalue) (x : Tindex * Tvalue) :
  twoq_wf q -> exists ev q', twoq_push q x = Ret (ev, q') /\ twoq_wf q'.
Proof.
  intros (Hin & Hout & Hmain). unfold twoq_push.
  destruct (fifo_find (tq_out q) x.1) as [?|].
  - destruct (lru_push_wf _ x Hmain) as (ev & m' & -> & Hm' & _). simpl.
    eexists _, _. split; [done|]. by split.
  - destruct (fifo_push_wf _ x Hin) as (ev & in' & -> & Hin' & _). simpl.
    destruct ev as [old|].
    + destruct (fifo_push_wf _ (old.1, 0) Hout) as (ev2 & out' & -> & Hout' & _).
      simpl. eexists _, _. split; [done|]. by split.
    + eexists _, _. split; [done|]. by split.
Qed.

Lemma twoq_push_spec (q q' : twoq Tindex Tvalue) (x : Tindex * Tvalue) ev :
  twoq_push q x = Ret (ev, q') ->
  capacities q' = capacities q
  /\ option_list ev ++ resident q' ≡ₚ x :: resident q.
Proof.
  unfold twoq_push, capacities, resident.
  destruct (fifo_find (tq_out q) x.1) as [?|].
  - destruct (lru_push (tq_main q) x) as [[ev1 m']| |] eqn:Hp; simpl; try done.
    intros [= <- <-]. simpl.
    apply lru_push_items in Hp as [-> Hit]. split; [done|].
    rewrite (Permutation_app_comm (fifo_items _)), (assoc_L (++)), Hit.
    by solve_Permutation.
  - destruct (fifo_push (tq_in q) x) as [[ev1 in']| |] eqn:Hp; simpl; try done.
    pose proof (fifo_push_perm _ _ _ _ Hp) as Hperm.
    apply fifo_push_items in Hp as [Emax _].
    destruct ev1 as [old|].
    + destruct (fifo_push (tq_out q) (old.1, 0)) as [[ev2 out']| |] eqn:Hp2;
        simpl; try done.
      apply fifo_push_items in Hp2 as [Emax2 _].
      intros [= <- <-]. simpl. rewrite Emax, Emax2. split; [done|].
      simpl in Hperm. by rewrite app_comm_cons, Hperm.
    + intros [= <- <-]. simpl. rewrite Emax. split; [done|].
      simpl in Hperm. by rewrite Hperm.
Qed.

Lemma fifo_push_elem {V : Type} (q q' : fifo Tindex V) (x : Tindex * V) ev :
  fifo_push q x = Ret (ev, q') -> x ∈ fifo_items q'.
Proof.
  intros [_ Hit]%fifo_push_items. destruct ev as [old|].
  - destruct Hit as (i & Hold & ->).
    eapply list_elem_of_lookup_2, list_lookup_insert_eq.
    by eapply lookup_lt_Some.
  - rewrite Hit. apply elem_of_app. right. by left.
Qed.

(** A key that an overwrite removes from the items is the key of the
    item overwritten. *)
Lemma insert_drops_key {V : Type} (items : list (Tindex * V)) i x old k :
  items !! i = Some old -> k ∈ items.*1 -> k ∉ (<[i := x]> items).*1 -> old.1 = k.
Proof.
  intros Hold Hk Hnk. apply list_elem_of_fmap in Hk as ([k' y] & -> & Hy).
  apply list_elem_of_lookup in Hy as [j Hj]. destruct (decide (i = j)) as [->|Hne].
  - rewrite Hold in Hj. by injection Hj as ->.
  - exfalso. apply Hnk. apply list_elem_of_fmap. exists (k', y). split; [done|].
    eapply list_elem_of_lookup_2. by rewrite list_lookup_insert_ne.
Qed.

(** No queue throws. *)
Lemma twoq_push_not_throw (q : twoq Tindex Tvalue) (x : Tindex * Tvalue) e :
  twoq_push q x <> Throw e.
Proof.
  unfold twoq_push, fifo_push, lru_push, fifo_item_push, lru_item_push.
  repeat (case_match; simpl; try done).
Qed.

Lemma reachable_capacities (N : nat) (q : twoq Tindex Tvalue) :
  reachable N q -> capacities q = (N / 4, N / 2, N - N / 4)%nat.
Proof.
  induction 1 as [|q k _ IH|q x ev q' _ IH Hp|q _ IH]; [done| | |done].
  - destruct (twoq_find q k) as [r q'] eqn:Hf.
    apply twoq_find_spec in Hf as (Ein & Eout & Emax & _). simpl.
    unfold capacities in *. by rewrite Ein, Eout, Emax.
  - apply twoq_push_spec in Hp as [-> _]. done.
Qed.

Lemma reachable_wf (N : nat) (q : twoq Tindex Tvalue) :
  (4 <= N)%nat -> reachable N q -> twoq_wf q.
Proof.
  intros HN. induction 1 as [|q k _ IH|q x ev q' _ IH Hp|q _ IH].
  - assert (1 <= N / 4)%nat by (apply (Nat.div_le_lower_bound N 4 1); lia).
    assert (N / 4 <= N / 2)%nat.
    { apply Nat.div_le_lower_bound; [lia|].
      pose proof (Nat.div_mod_eq N 2). pose proof (Nat.div_mod_eq N 4).
      pose proof (Nat.mod_upper_bound N 2). pose proof (Nat.mod_upper_bound N 4).
      lia. }
    assert (N / 4 < N)%nat by (apply Nat.div_lt; lia).
    repeat split; cbn -[Nat.div]; lia.
  - by apply twoq_find_wf.
  - destruct (twoq_push_wf q x IH) as (ev' & q'' & Hp' & Hwf). congruence.
  - by apply twoq_clear_wf.
Qed.

Lemma fifo_push_no_room {V : Type} (q : fifo Tindex V) (x : Tindex * V) :
  fifo_max_size q = 0%nat -> fifo_items q = [] ->
  exists w, fifo_push q x = Undefined w.
Proof.
  intros Hmax Hit. unfold fifo_push, fifo_item_push. rewrite Hit, Hmax.
  destruct (decide (length [] < 0)%nat) as [Hlt|_]; [simpl in Hlt; lia|].
  destruct (decide (fifo_next_item q = length [])); simpl; eauto.
Qed.

Lemma twoq_push_no_room (q : twoq Tindex Tvalue) (x : Tindex * Tvalue) :
  fifo_max_size (tq_in q) = 0%nat -> fifo_items (tq_in q) = [] ->
  fifo_items (tq_out q) = [] ->
  exists w, twoq_push q x = Undefined w.
Proof.
  intros Hmax Hin Hout. unfold twoq_push.
  rewrite (proj2 (fifo_find_None (tq_out q) x.1)); last first.
  { rewrite Hout. apply not_elem_of_nil. }
  destruct (fifo_push_no_room (tq_in q) x Hmax Hin) as [w ->]. simpl. eauto.
Qed.

(** Built with less than four items, [in] and [out] never hold anything. *)
Lemma reachable_small (N : nat) (q : twoq Tindex Tvalue) :
  (N < 4)%nat -> reachable N q ->
  fifo_max_size (tq_in q) = 0%nat /\ fifo_items (tq_in q) = []
  /\ fifo_items (tq_out q) = [] /\ lru_items (tq_main q) = [].
Proof.
  intros HN. induction 1 as [|q k _ IH|q x ev q' _ IH Hp|q _ IH].
  - cbn -[Nat.div]. split; [|done]. apply Nat.div_small. lia.
  - destruct (twoq_find q k) as [r q'] eqn:Hf.
    apply twoq_find_spec in Hf as (Ein & Eout & _ & Eperm & _). simpl.
    destruct IH as (Hmax & Hin & Hout & Hmain). rewrite Ein, Eout.
    split_and!; try done. rewrite Hmain in Eperm. by apply Permutation_nil_r.
  - exfalso. destruct IH as (Hmax & Hin & Hout & _).
    destruct (twoq_push_no_room q x Hmax Hin Hout) as [w Hw]. congruence.
  - destruct IH as (Hmax & _). done.
Qed.

(** The items holding a value never outnumber the capacity asked for. *)
Lemma reachable_resident_le (N : nat) (q : twoq Tindex Tvalue) :
  reachable N q -> (length (resident q) <= N)%nat.
Proof.
  intros Hq. unfold resident. rewrite length_app.
  destruct (decide (N < 4)%nat) as [HN|HN].
  - destruct (reachable_small _ _ HN Hq) as (_ & -> & _ & ->). simpl. lia.
  - assert (4 <= N)%nat as HN' by lia.
    destruct (reachable_wf _ _ HN' Hq) as ((_ & Hin & _) & _ & (_ & Hmain)).
    pose proof (reachable_capacities _ _ Hq) as Hcap.
    pose proof (f_equal (fun c => c.1.1) Hcap) as Hcin.
    pose proof (f_equal snd Hcap) as Hcmain.
    unfold capacities in Hcin, Hcmain. cbn -[Nat.div] in Hcin, Hcmain.
    assert (N / 4 <= N)%nat by (apply Nat.Div0.div_le_upper_bound; lia).
    lia.
Qed.

(** C3 (amended).  In a 2Q cache whose queues have room for at least one
    item each: pushing [(k, v)] when [k] is in none of [out], [main] and
    [in] puts [k] into [in], and [find k] then yields [v] and leaves the
    cache as it is; a push after which [k] is no longer in [in] leaves [k]
    in [out]; and pushing [(k, v)] when [k] is in [out] and not in [main]
    leaves [in] alone and appends [(k, v)] to [main], where [find k] then
    yields [v]. *)
Theorem twoq_admission (q : twoq Tindex Tvalue) k v :
  twoq_wf q ->
  (k ∉ out_keys q -> k ∉ main_keys q -> k ∉ in_keys q ->
     exists ev q', twoq_push q (k, v) = Ret (ev, q')
       /\ k ∈ in_keys q' /\ twoq_find q' k = (Some v, q'))
  /\ (forall x ev q', twoq_push q x = Ret (ev, q') ->
        k ∈ in_keys q -> k ∉ in_keys q' -> k ∈ out_keys q')
  /\ (k ∈ out_keys q -> k ∉ main_keys q ->
       exists ev q', twoq_push q (k, v) = Ret (ev, q')
         /\ tq_in q' = tq_in q
         /\ last (lru_items (tq_main q')) = Some (k, v)
         /\ (lru_find (tq_main q') k).1 = Some v
         /\ (twoq_find q' k).1 = Some v).
Proof.
  intros Hwf. pose proof Hwf as (Hin & Hout & Hmain). split; [|split].
  - intros Ho Hm Hi. destruct (twoq_push_wf q (k, v) Hwf) as (ev & q' & Hp & _).
    exists ev, q'. split; [done|]. revert Hp. unfold twoq_push. simpl.
    rewrite (proj2 (fifo_find_None _ _) Ho).
    destruct (fifo_push (tq_in q) (k, v)) as [[ev1 in']| |] eqn:Hp1; simpl; try done.
    assert (k ∈ (fifo_items in').*1 /\ assoc (fifo_items in') k = Some v)
      as [Hk Ha].
    { pose proof (fifo_push_elem _ _ _ _ Hp1) as Hel.
      split; [by apply (list_elem_of_fmap_2 fst) in Hel|].
      apply fifo_push_items in Hp1 as [_ Hit]. destruct ev1 as [old|].
      - destruct Hit as (i & Hold & ->).
        apply assoc_insert_fresh; [done | by eapply lookup_lt_Some].
      - rewrite Hit. by apply assoc_app_fresh. }
    assert (forall out', twoq_find (mk_twoq in' out' (tq_main q)) k
                         = (Some v, mk_twoq in' out' (tq_main q))) as Hfind.
    { intros out'. unfold twoq_find. simpl. rewrite (lru_find_miss _ _ Hm).
      by rewrite fifo_find_assoc, Ha. }
    destruct ev1 as [old|].
    + destruct (fifo_push (tq_out q) (old.1, 0)) as [[ev2 out']| |]; simpl; try done.
      intros [= _ <-]. split; [done | apply Hfind].
    + intros [= _ <-]. split; [done | apply Hfind].
  - intros x ev q'. unfold twoq_push, in_keys, out_keys.
    destruct (fifo_find (tq_out q) x.1) as [?|].
    { destruct (lru_push (tq_main q) x) as [[ev1 m']| |]; simpl; try done.
      intros [= _ <-]. simpl. done. }
    destruct (fifo_push (tq_in q) x) as [[ev1 in']| |] eqn:Hp1; simpl; try done.
    apply fifo_push_items in Hp1 as [_ Hit]. destruct ev1 as [old|].
    + destruct (fifo_push (tq_out q) (old.1, 0)) as [[ev2 out']| |] eqn:Hp2;
        simpl; try done.
      intros [= _ <-]. simpl. intros Hk Hnk.
      destruct Hit as (i & Hold & Hit). rewrite Hit in Hnk.
      rewrite <- (insert_drops_key _ _ _ _ _ Hold Hk Hnk).
      apply fifo_push_elem in Hp2. by apply (list_elem_of_fmap_2 fst) in Hp2.
    + intros [= _ <-]. simpl. rewrite Hit, fmap_app. intros Hk Hnk.
      exfalso. apply Hnk. apply elem_of_app. by left.
  - intros Ho Hm. destruct (twoq_push_wf q (k, v) Hwf) as (ev & q' & Hp & _).
    exists ev, q'. split; [done|]. revert Hp. unfold twoq_push. simpl.
    destruct (fifo_find (tq_out q) k) as [?|] eqn:Hf; last first.
    { by apply fifo_find_None in Hf. }
    destruct (lru_push (tq_main q) (k, v)) as [[ev1 m']| |] eqn:Hp1; simpl; try done.
    intros [= _ <-]. simpl. split; [done|].
    assert (last (lru_items m') = Some (k, v) /\ assoc (lru_items m') k = Some v)
      as [Hlast Ha].
    { revert Hp1. unfold lru_push, lru_item_push. destruct (decide _).
      - intros [= _ <-]. simpl. split; [apply last_snoc | by apply assoc_app_fresh].
      - unfold main_keys in Hm. destruct (lru_items (tq_main q)) as [|old rest]; [done|].
        intros [= _ <-]. simpl. split; [apply last_snoc|].
        apply assoc_app_fresh. rewrite fmap_cons in Hm.
        by apply not_elem_of_cons in Hm as [_ ?]. }
    split; [done|].
    assert ((lru_find m' k).1 = Some v) as Hl.
    { destruct (lru_find_hit m' k) as (v0 & i & _ & Ha0 & ->); [|simpl; congruence].
      apply last_Some_elem_of in Hlast. by apply (list_elem_of_fmap_2 fst) in Hlast. }
    split; [done|]. unfold twoq_find. simpl.
    destruct (lru_find m' k) as [r m''] eqn:Hlf. simpl in Hl. by subst r.
Qed.

(** C9.  A [twoq(N)] sizes [in] to [N / 4].  For [N < 4] that is [0], which
    the constructor of [fifo] asserts not to be the case, and every [push]
    on the cache is undefined: it overwrites a slot of the empty [items].
    For [4 <= N] the three asserted requirements hold and [push] returns in
    every state that [push], [find] and [clear] lead to. *)
Theorem twoq_requires_capacity_4 (N : nat) (q : twoq Tindex Tvalue) :
  reachable N q ->
  fifo_max_size (tq_in q) = (N / 4)%nat
  /\ ((N < 4)%nat ->
      fifo_requirement (N / 4) = false
      /\ forall x, exists w, twoq_push q x = Undefined w)
  /\ ((4 <= N)%nat ->
      fifo_requirement (N / 4) = true /\ fifo_requirement (N / 2) = true
      /\ lru_requirement (N - N / 4) = true
      /\ twoq_wf q
      /\ forall x, exists ev q', twoq_push q x = Ret (ev, q') /\ reachable N q').
Proof.
  intros Hq. pose proof (reachable_capacities _ _ Hq) as Hcap.
  pose proof (f_equal (fun c => c.1.1) Hcap) as Hcin.
  pose proof (f_equal (fun c => c.1.2) Hcap) as Hcout.
  pose proof (f_equal snd Hcap) as Hcmain.
  unfold capacities in Hcin, Hcout, Hcmain. cbn -[Nat.div] in Hcin, Hcout, Hcmain.
  split; [done|]. split.
  - intros HN. split.
    { unfold fifo_requirement. apply bool_decide_eq_false.
      rewrite Nat.div_small by lia. lia. }
    intros x. destruct (reachable_small _ _ HN Hq) as (Hmax & Hin & Hout & _).
    by apply twoq_push_no_room.
  - intros HN. pose proof (reachable_wf _ _ HN Hq) as Hwf.
    pose proof Hwf as ((? & _) & (? & _) & (? & _)).
    unfold fifo_requirement, lru_requirement.
    rewrite !bool_decide_eq_true. split_and!; [lia | lia | lia | done |].
    intros x. destruct (twoq_push_wf q x Hwf) as (ev & q' & Hp & _).
    exists ev, q'. split; [done|]. by eapply reach_push.
Qed.

End facts.

(** Membership in a list of numbers, decided by evaluation. *)
Ltac by_decide :=
  match goal with |- ?P => apply (@bool_decide_unpack P _) end; vm_compute; exact I.

Lemma twoq_wf_new8 : twoq_wf (twoq_new (Tindex:=Z) (Tvalue:=Z) 8).
Proof. repeat split; vm_compute; lia. Defined.

Lemma twoq_wf_q8_2 : twoq_wf examples.q8_2.
Proof. repeat split; vm_compute; lia. Defined.

Lemma twoq_wf_q8_3 : twoq_wf examples.q8_3.
Proof. repeat split; vm_compute; lia. Defined.

Lemma twoq_admission_witness :
  (exists ev q', twoq_push (twoq_new 8) (1, 10) = Ret (ev, q')
     /\ 1 ∈ in_keys q' /\ twoq_find q' 1 = (Some 10, q'))
  /\ 1 ∈ out_keys examples.q8_3
  /\ (exists ev q', twoq_push examples.q8_3 (1, 11) = Ret (ev, q')
        /\ tq_in q' = tq_in examples.q8_3
        /\ last (lru_items (tq_main q')) = Some (1, 11)
        /\ (lru_find (tq_main q') 1).1 = Some 11
        /\ (twoq_find q' 1).1 = Some 11).
Proof.
  split; [|split].
  - apply (twoq_admission (twoq_new 8) 1 10 twoq_wf_new8); by_decide.
  - apply (proj1 (proj2 (twoq_admission examples.q8_2 1 0 twoq_wf_q8_2))
             (3, 30) (Some (1, 10)) examples.q8_3); [reflexivity | by_decide | by_decide].
  - apply (twoq_admission examples.q8_3 1 11 twoq_wf_q8_3); by_decide.
Defined.

(** C3, as stated, at a key already present in [in]: the scan meets the
    older item first. *)
Lemma twoq_push_duplicate_key :
  ~ (forall (q q' : twoq Z Z) (k v : Z) ev,
       twoq_wf q -> k ∉ out_keys q -> k ∉ main_keys q ->
       twoq_push q (k, v) = Ret (ev, q') ->
       k ∈ in_keys q' /\ (twoq_find q' k).1 = Some v).
Proof.
  intros Hclaim.
  destruct (Hclaim examples.q8_1 examples.q8_twice 1 20 None) as [_ Hfind].
  - repeat split; vm_compute; lia.
  - by_decide.
  - by_decide.
  - reflexivity.
  - vm_compute in Hfind. discriminate Hfind.
Qed.

Lemma twoq_requires_capacity_4_witness :
  (exists w, twoq_push (twoq_new (Tindex:=Z) (Tvalue:=Z) 3) (1, 10) = Undefined w)
  /\ (exists ev q', twoq_push (twoq_new (Tindex:=Z) (Tvalue:=Z) 4) (1, 10) = Ret (ev, q')
        /\ reachable 4 q').
Proof.
  split.
  - apply (twoq_requires_capacity_4 3 (twoq_new 3) (reach_new 3)). lia.
  - apply (twoq_requires_capacity_4 4 (twoq_new 4) (reach_new 4)). lia.
Defined.

End cache_facts.

(** ** cache.h: the order of eviction *)

Module cache_order.

Import cache cache_props cache_runs cache_facts.

Section order.
Context {Tindex Tvalue : Type} `{EqDecision Tindex}.
Implicit Types (k : Tindex) (v : Tvalue) (x : Tindex * Tvalue).
Implicit Types (q : fifo Tindex Tvalue) (recent : list (Tindex * Tvalue)).

Lemma fifo_holds_length n q recent :
  fifo_holds n q recent -> length (fifo_items q) = length recent.
Proof.
  intros (_ & [[_ ->]|(Hn & Ht & ->)]); [done|].
  rewrite length_app, length_drop, length_take. lia.
Qed.

Lemma fifo_holds_perm n q recent :
  fifo_holds n q recent -> fifo_items q ≡ₚ recent.
Proof.
  intros (_ & [[_ ->]|(Hn & Ht & ->)]); [done|].
  by rewrite Permutation_app_comm, take_drop.
Qed.

(** One push: nothing leaves while there is room, then the oldest item
    leaves. *)
Lemma fifo_push_holds n q recent x :
  (1 <= n)%nat -> fifo_holds n q recent ->
  exists q', fifo_push q x
             = Ret (if decide (length recent < n)%nat then None else head recent, q')
    /\ fifo_holds n q' (drop (length recent + 1 - n) (recent ++ [x])).
Proof.
  intros Hn Hq. pose proof (fifo_holds_length _ _ _ Hq) as Hlen.
  destruct Hq as (Hmax & [[Hlt Hit]|(Hfull & Ht & Hit)]);
    unfold fifo_push, fifo_item_push; rewrite Hlen, Hmax.
  - rewrite !decide_True by done. eexists. split; [done|].
    replace (length recent + 1 - n)%nat with 0%nat by lia. rewrite drop_0.
    split; [done|]. cbn [fifo_items fifo_next_item]. rewrite Hit.
    destruct (decide (length (recent ++ [x]) < n)%nat) as [Hlt'|Hge].
    + left. done.
    + right. rewrite length_app in *. simpl in *.
      split; [lia|]. split; [lia|].
      replace (n - (length recent + 1))%nat with 0%nat by lia.
      by rewrite drop_0, take_0, app_nil_r.
  - rewrite Hfull. destruct (decide (n < n)%nat) as [?|_]; [lia|].
    replace (n + 1 - n)%nat with 1%nat by lia.
    destruct recent as [|o rest]; [simpl in Hfull; lia|]. simpl in Hfull.
    cbn [head app drop]. rewrite drop_0.
    destruct (decide (fifo_next_item q = n)) as [Het|Hne].
    + rewrite Het, Nat.sub_diag in Hit. rewrite drop_0, take_0, app_nil_r in Hit.
      rewrite Hit. cbn [lookup list_lookup]. eexists. split; [done|].
      split; [done|]. right. cbn [fifo_items fifo_next_item insert list_insert].
      rewrite length_app. simpl. split; [lia|]. split; [lia|].
      rewrite drop_app_length' by lia. rewrite take_app_length' by lia. done.
    + destruct (n - fifo_next_item q)%nat as [|m] eqn:Hm; [lia|].
      cbn [drop take] in Hit.
      assert (length (drop m rest) = fifo_next_item q) as Hpre.
      { rewrite length_drop. lia. }
      rewrite Hit. rewrite lookup_app_r by lia.
      rewrite Hpre, Nat.sub_diag. cbn [lookup list_lookup].
      eexists. split; [done|]. split; [done|]. right.
      cbn [fifo_items fifo_next_item]. rewrite length_app. simpl.
      split; [lia|]. split; [lia|].
      rewrite insert_app_r_alt by lia. rewrite Hpre, Nat.sub_diag.
      cbn [insert list_insert].
      replace (n - S (fifo_next_item q))%nat with m by lia.
      rewrite drop_app_le, take_app_le by lia.
      by rewrite <- (assoc_L (++)).
Qed.

Lemma fifo_push_all_holds n q recent xs :
  (1 <= n)%nat -> fifo_holds n q recent ->
  exists q', fifo_push_all q xs
             = Ret (take (length recent + length xs - n) (recent ++ xs), q')
    /\ fifo_holds n q' (drop (length recent + length xs - n) (recent ++ xs)).
Proof.
  intros Hn. revert q recent.
  induction xs as [|x xs IH]; intros q recent Hq.
  - pose proof (fifo_holds_length _ _ _ Hq) as Hlen.
    assert (length recent <= n)%nat as Hle.
    { destruct Hq as (_ & [[? _]|[? _]]); lia. }
    exists q. simpl. rewrite app_nil_r.
    replace (length recent + 0 - n)%nat with 0%nat by lia.
    by rewrite take_0, drop_0.
  - assert (length recent <= n)%nat as Hle.
    { destruct Hq as (_ & [[? _]|[? _]]); lia. }
    destruct (fifo_push_holds n q recent x Hn Hq) as (q1 & Hp & Hq1).
    destruct (IH q1 _ Hq1) as (q2 & Hall & Hq2).
    exists q2. cbn [fifo_push_all]. rewrite Hp. cbn [mbind outcome_bind].
    rewrite Hall. cbn [mbind outcome_bind mret outcome_ret].
    rewrite length_drop, length_app in *. cbn [length] in *.
    destruct (decide (length recent < n)%nat) as [Hlt|Hge].
    + replace (length recent + 1 - n)%nat with 0%nat in * by lia.
      rewrite drop_0 in *. rewrite <- (assoc_L (++)) in *. cbn [app] in *.
      replace (length recent + 1 - 0 + length xs - n)%nat
        with (length recent + S (length xs) - n)%nat in * by lia.
      done.
    + destruct recent as [|o rest]; [simpl in *; lia|]. cbn [length] in *.
      replace (S (length rest) + 1 - n)%nat with 1%nat in * by lia.
      cbn [drop app head option_list] in *. rewrite drop_0 in *.
      rewrite <- (assoc_L (++)) in *. cbn [app] in *.
      replace (S (length rest) + 1 - 1 + length xs - n)%nat
        with (length xs) in * by lia.
      replace (S (length rest) + S (length xs) - n)%nat
        with (S (length xs)) by lia.
      cbn [take drop]. done.
Qed.

(** X1.  A [fifo] built for [n >= 1] items and given the items [xs] one
    push after the other returns from every push; the items the pushes
    return are the first [|xs| - n] of [xs], in the order in which they
    came, and the queue is left holding the last [n] of [xs]. *)
Theorem fifo_evicts_in_arrival_order (n : nat) (xs : list (Tindex * Tvalue)) :
  (1 <= n)%nat ->
  exists q', fifo_push_all (fifo_new n) xs = Ret (take (length xs - n) xs, q')
    /\ fifo_items q' ≡ₚ drop (length xs - n) xs
    /\ forall k, k ∈ (drop (length xs - n) xs).*1 -> is_Some (fifo_find q' k).
Proof.
  intros Hn.
  destruct (fifo_push_all_holds n (fifo_new n) [] xs Hn) as (q' & Hall & Hq').
  { split; [done|]. left. simpl. split; [lia | done]. }
  simpl in Hall, Hq'. exists q'. split; [done|].
  pose proof (fifo_holds_perm _ _ _ Hq') as Hperm. split; [done|].
  intros k Hk. rewrite fifo_find_assoc.
  destruct (assoc (fifo_items q') k) eqn:Ha; [done|].
  apply assoc_None in Ha. by rewrite Hperm in Ha.
Qed.

(** The item at the top of an [lru] after [j] pushes: [j] items from
    the end. *)
Lemma lru_push_keeps (q : lru Tindex Tvalue) x pre post y :
  lru_wf q -> lru_items q = pre ++ y :: post ->
  (S (length post) < lru_max_size q)%nat ->
  exists ev (q' : lru Tindex Tvalue) pre', lru_push q x = Ret (ev, q') /\ lru_wf q'
    /\ lru_max_size q' = lru_max_size q
    /\ lru_items q' = pre' ++ y :: (post ++ [x]).
Proof.
  intros (Hmax & Hlen) Hit Hpost. unfold lru_push, lru_item_push.
  destruct (decide _) as [Hlt|Hge].
  - eexists _, _, pre. split; [done|]. split.
    { split; simpl; rewrite ?length_app; simpl; lia. }
    split; [done|]. simpl. rewrite Hit. by rewrite <- (assoc_L (++)).
  - rewrite Hit in *. rewrite length_app in *. cbn [length] in *.
    destruct pre as [|old pre]; [simpl in *; lia|]. cbn [app].
    eexists _, _, pre. split; [done|]. split.
    { split; simpl in *; rewrite ?length_app in *; simpl in *; lia. }
    split; [done|]. simpl. by rewrite <- (assoc_L (++)).
Qed.

Lemma lru_push_all_keeps (q : lru Tindex Tvalue) xs pre post y :
  lru_wf q -> lru_items q = pre ++ y :: post ->
  (length post + length xs < lru_max_size q)%nat ->
  exists evs (q' : lru Tindex Tvalue) pre', lru_push_all q xs = Ret (evs, q')
    /\ lru_items q' = pre' ++ y :: (post ++ xs).
Proof.
  revert q pre post. induction xs as [|x xs IH]; intros q pre post Hwf Hit Hlen.
  - exists [], q, pre. rewrite app_nil_r. done.
  - simpl in Hlen.
    destruct (lru_push_keeps q x pre post y Hwf Hit) as (ev & q1 & pre1 & Hp & Hwf1 & Hmax1 & Hit1);
      [lia|].
    destruct (IH q1 pre1 (post ++ [x]) Hwf1 Hit1) as (evs & q2 & pre2 & Hall & Hit2).
    { rewrite length_app, Hmax1. simpl. lia. }
    eexists _, q2, pre2. cbn [lru_push_all]. rewrite Hp. cbn [mbind outcome_bind].
    rewrite Hall. cbn [mbind outcome_bind mret outcome_ret]. split; [done|].
    rewrite Hit2. by rewrite <- (assoc_L (++)).
Qed.

(** X2.  In an [lru] built for [n >= 1] items, an item that [find] has
    just reported is still held after any run of fewer than [n]
    pushes: the pushes evict what was used less recently. *)
Theorem lru_hit_outlives_pushes (q : lru Tindex Tvalue) k v
    (xs : list (Tindex * Tvalue)) :
  lru_wf q -> (lru_find q k).1 = Some v ->
  (length xs < lru_max_size q)%nat ->
  exists evs (q' : lru Tindex Tvalue), lru_push_all (lru_find q k).2 xs = Ret (evs, q')
    /\ (k, v) ∈ lru_items q'
    /\ last (lru_items (lru_find q k).2) = Some (k, v).
Proof.
  intros Hwf Hf Hlen.
  destruct (decide (k ∈ (lru_items q).*1)) as [Hk|Hk]; last first.
  { rewrite lru_find_miss in Hf by done. done. }
  destruct (lru_find_hit q k Hk) as (v' & i & Hi & _ & Heq).
  rewrite Heq in Hf |- *. cbn [fst snd] in Hf |- *. injection Hf as ->.
  set (q1 := {| lru_max_size := lru_max_size q;
                lru_items := delete i (lru_items q) ++ [(k, v)] |}).
  assert (lru_wf q1) as Hwf1.
  { destruct Hwf as (Hmax & Hl). split; [done|]. simpl.
    rewrite length_app, length_delete by eauto. simpl.
    apply lookup_lt_Some in Hi. lia. }
  destruct (lru_push_all_keeps q1 xs (delete i (lru_items q)) [] (k, v) Hwf1)
    as (evs & q2 & pre2 & Hall & Hit2); [done | simpl; lia |].
  exists evs, q2. split; [done|]. split.
  - rewrite Hit2. apply elem_of_app. right. by left.
  - simpl. apply last_snoc.
Qed.

(** X3.  A [push] on a 2Q cache that returns loses no value: the items
    that hold a value afterwards, with the item returned, are the items
    that held one before and the item pushed; the capacities of the
    three queues stay as they were.  A [find] changes at most the order
    of [main]: it leaves [in] and [out] as they are, [main] with the
    same items and the same capacity, and the whole cache as it is when
    it finds nothing. *)
Theorem twoq_values_conserved (q : twoq Tindex Tvalue) x k :
  (forall ev (q' : twoq Tindex Tvalue), twoq_push q x = Ret (ev, q') ->
     option_list ev ++ resident q' ≡ₚ x :: resident q
     /\ capacities q' = capacities q)
  /\ resident (twoq_find q k).2 ≡ₚ resident q
  /\ capacities (twoq_find q k).2 = capacities q
  /\ tq_out (twoq_find q k).2 = tq_out q
  /\ tq_in (twoq_find q k).2 = tq_in q
  /\ lru_items (tq_main (twoq_find q k).2) ≡ₚ lru_items (tq_main q)
  /\ lru_max_size (tq_main (twoq_find q k).2) = lru_max_size (tq_main q)
  /\ ((twoq_find q k).1 = None -> (twoq_find q k).2 = q).
Proof.
  split.
  - intros ev q' Hp. apply twoq_push_spec in Hp as [Hcap Hperm]. done.
  - destruct (twoq_find q k) as [r q1] eqn:Hf.
    apply twoq_find_spec in Hf as (Ein & Eout & Emax & Eperm & _ & Hmiss).
    cbn [fst snd]. unfold resident, capacities.
    rewrite Ein, Eout, Emax, Eperm. done.
Qed.

(** X4.  A [twoq(N)] never holds more than [N] values, nor more than
    [N / 2] ghost keys, in any state that [find], [clear] and returning
    [push]es lead to. *)
Theorem twoq_within_capacity (N : nat) (q : twoq Tindex Tvalue) :
  reachable N q ->
  (length (resident q) <= N)%nat
  /\ (length (fifo_items (tq_in q)) <= N / 4)%nat
  /\ (length (fifo_items (tq_out q)) <= N / 2)%nat
  /\ (length (lru_items (tq_main q)) <= N - N / 4)%nat.
Proof.
  intros Hq. split; [by apply reachable_resident_le|].
  destruct (decide (N < 4)%nat) as [HN|HN].
  - destruct (reachable_small _ _ HN Hq) as (_ & -> & -> & ->). simpl. lia.
  - assert (4 <= N)%nat as HN' by lia.
    destruct (reachable_wf _ _ HN' Hq) as ((_ & Hin & _) & (_ & Hout & _) & (_ & Hmain)).
    pose proof (reachable_capacities _ _ Hq) as Hcap.
    pose proof (f_equal (fun c => c.1.1) Hcap) as Hcin.
    pose proof (f_equal (fun c => c.1.2) Hcap) as Hcout.
    pose proof (f_equal snd Hcap) as Hcmain.
    unfold capacities in Hcin, Hcout, Hcmain.
    cbn -[Nat.div] in Hcin, Hcout, Hcmain. lia.
Qed.

End order.

Lemma fifo_evicts_in_arrival_order_witness :
  exists q' : fifo Z Z,
    fifo_push_all (fifo_new 2) [(1, 10); (2, 20); (3, 30)] = Ret ([(1, 10)], q')
    /\ fifo_items q' ≡ₚ [(2, 20); (3, 30)]
    /\ forall k, k ∈ [2; 3] -> is_Some (fifo_find q' k).
Proof.
  apply (fifo_evicts_in_arrival_order 2 [(1, 10); (2, 20); (3, 30)]). lia.
Defined.

(** An [lru] of three items that is full. *)
Lemma lru_wf_full3 :
  lru_wf {| lru_max_size := 3; lru_items := [(1, 10); (2, 20); (3, 30)] |}.
Proof. split; simpl; lia. Defined.

Lemma lru_hit_outlives_pushes_witness :
  exists evs (q' : lru Z Z),
    lru_push_all
      (lru_find {| lru_max_size := 3; lru_items := [(1, 10); (2, 20); (3, 30)] |} 1).2
      [(4, 40); (5, 50)] = Ret (evs, q')
    /\ (1, 10) ∈ lru_items q'
    /\ last (lru_items
               (lru_find {| lru_max_size := 3;
                            lru_items := [(1, 10); (2, 20); (3, 30)] |} 1).2)
       = Some (1, 10).
Proof.
  apply (lru_hit_outlives_pushes _ 1 10 [(4, 40); (5, 50)] lru_wf_full3);
    [reflexivity | simpl; lia].
Defined.

Lemma twoq_values_conserved_witness :
  option_list (Some (1, 10)) ++ resident examples.q8_3
    ≡ₚ (3, 30) :: resident examples.q8_2
  /\ capacities examples.q8_3 = capacities examples.q8_2.
Proof.
  apply (proj1 (twoq_values_conserved examples.q8_2 (3, 30) 1)). reflexivity.
Defined.

Lemma reachable_q8_1 : reachable 8 examples.q8_1.
Proof. apply (reach_push 8 (twoq_new 8) (1, 10) None); [apply reach_new | reflexivity]. Defined.

Lemma twoq_within_capacity_witness :
  (length (resident examples.q8_1) <= 8)%nat
  /\ (length (fifo_items (tq_in examples.q8_1)) <= 8 / 4)%nat
  /\ (length (fifo_items (tq_out examples.q8_1)) <= 8 / 2)%nat
  /\ (length (lru_items (tq_main examples.q8_1)) <= 8 - 8 / 4)%nat.
Proof. apply (twoq_within_capacity 8 examples.q8_1 reachable_q8_1). Defined.

End cache_order.

(** ** Raw memory *)

Section memory.
Implicit Types (data src : list byte) (ptr n : nat).

Lemma length_mem_write data ptr src :
  (ptr + length src <= length data)%nat ->
  length (mem_write data ptr src) = length data.
Proof.
  intros Hle. unfold mem_write.
  rewrite !length_app, length_take, length_drop. lia.
Qed.

Lemma mem_read_write data ptr src :
  (ptr <= length data)%nat ->
  mem_read (mem_write data ptr src) ptr (length src) = src.
Proof.
  intros Hle. unfold mem_read, mem_write.
  rewrite drop_app_length' by (rewrite length_take; lia).
  by rewrite take_app_length.
Qed.

(** A write leaves the bytes before it and the bytes after it alone. *)
Lemma mem_read_write_disjoint data ptr src ptr' n :
  (ptr + length src <= length data)%nat ->
  (ptr' + n <= ptr \/ ptr + length src <= ptr')%nat ->
  mem_read (mem_write data ptr src) ptr' n = mem_read data ptr' n.
Proof.
  intros Hle Hdis. unfold mem_read, mem_write.
  apply list_eq. intros i. rewrite !lookup_take.
  destruct (decide (i < n)%nat) as [Hi|Hi]; [|done].
  rewrite !lookup_drop. destruct Hdis as [Hbefore|Hafter].
  - rewrite lookup_app_l by (rewrite length_take; lia).
    rewrite lookup_take_lt by lia. done.
  - rewrite lookup_app_r by (rewrite length_take; lia).
    rewrite length_take, Nat.min_l by lia.
    rewrite lookup_app_r by lia.
    rewrite lookup_drop. f_equal. lia.
Qed.

Lemma mem_read_inside data ptr n off count :
  (off + count <= n)%nat ->
  mem_read data (ptr + off) count = take count (drop off (mem_read data ptr n)).
Proof.
  intros Hle. unfold mem_read.
  rewrite <- drop_drop. apply list_eq. intros i. rewrite !lookup_take.
  destruct (decide (i < count)%nat) as [Hi|Hi]; [|done].
  rewrite !lookup_drop. rewrite lookup_take_lt by lia. by rewrite lookup_drop.
Qed.
End memory.

(** ** db_1cd_8x::pages *)

Module pages_facts.

Import pages pages_props.

(** *** The header and [open] *)

Section open.
Context `{!platform}.

Lemma length_file_read f count_ pos_ :
  0 <= count_ -> (length (file.read f count_ pos_).2 <= Z.to_nat count_)%nat.
Proof.
  intros Hc. unfold file.read. destruct (file.file_handle f) as [os|]; simpl; [|lia].
  repeat case_bool_decide; simpl; rewrite ?length_take; lia.
Qed.

Lemma header_read_length os h : header_read os = Some h -> length h = 24%nat.
Proof.
  unfold header_read. destruct (file.open os) as [fe tmp].
  destruct (file.ok fe); [|done].
  pose proof (length_file_read tmp 24 0) as Hd.
  destruct (file.read tmp 24 0) as [fe2 d]. simpl in Hd.
  destruct (file.ok fe2); [|done]. intros [= <-].
  rewrite length_mem_write by (simpl; lia). done.
Qed.

Lemma le_uint_le_bytes_4096 : le_uint (le_bytes 4 4096) = 4096.
Proof. reflexivity. Qed.

Lemma hdr_page_size_set h :
  length h = 24%nat -> hdr_page_size (hdr_set_page_size h 4096) = 4096.
Proof.
  intros Hh. unfold hdr_page_size, hdr_set_page_size, mem_get.
  change (take 4 (drop 20 ?m)) with (mem_read m 20 (length (le_bytes 4 4096))).
  rewrite mem_read_write by lia. reflexivity.
Qed.

Lemma hdr_set_page_size_other h v off n :
  length h = 24%nat -> (off + n <= 20)%nat ->
  mem_get (hdr_set_page_size h v) off n = mem_get h off n.
Proof.
  intros Hh Hle. unfold hdr_set_page_size, mem_get.
  change (take n (drop off ?m)) with (mem_read m off n).
  rewrite mem_read_write_disjoint; [done | simpl; lia | lia].
Qed.

Lemma hdr_length_set h v :
  length h = 24%nat -> hdr_length (hdr_set_page_size h v) = hdr_length h.
Proof. intros Hh. apply hdr_set_page_size_other; [done | lia]. Qed.

Lemma valid_page_size_pos ps : valid_page_size ps = true -> 4096 <= ps <= 65536.
Proof.
  unfold valid_page_size. rewrite !orb_true_iff, !bool_decide_eq_true. lia.
Qed.

(** The slots are cut out of the whole of [cache_data]. *)
Lemma cache_init_slots ps N :
  (0 < ps)%nat ->
  (fun i => (i * ps)%nat) <$> seq 0 (length (replicate (ps * (N + 1)) "000"%byte) / ps)
  = slots ps N.
Proof.
  intros Hps. unfold slots. rewrite length_replicate.
  by rewrite Nat.mul_comm, Nat.div_mul by lia.
Qed.

(** [open] on a file whose header could be read: the verdict of the
    checks when one of them fails, and the cache when they pass and its
    storage is given. *)
Lemma open_verdict N os h :
  header_read os = Some h ->
  let file_size := Z.of_nat (length (file.os_bytes os)) in
  (header_verdict h file_size <> errors.none ->
     exists p, open (pages_new N) os = Ret (error_of (header_verdict h file_size), p)
       /\ (hdr_sig h = signature -> hdr_version h = 0x000E0208 -> page_size p = 4096))
  /\ (header_verdict h file_size = errors.none ->
      open (pages_new N) os
      = (_ ← cache_storage N (effective_page_size h);
         Ret (error_none,
              opened N os (if bool_decide (hdr_version h = 0x000E0208)
                           then hdr_set_page_size h 4096 else h)))).
Proof.
  intros Hh file_size. subst file_size.
  pose proof (header_read_length _ _ Hh) as Hlen. revert Hh.
  unfold header_read, open, header_verdict, effective_page_size, file.open.
  case_bool_decide as Hopen.
  2:{ unfold file.ok. by rewrite bool_decide_false. }
  change (file.ok file.NO_ERROR) with true. cbn [negb].
  destruct (file.read _ 24 0) as [fe d]. destruct (file.ok fe); cbn [negb]; [|done].
  change (db_hdr (pages_new N)) with (replicate 24 "000"%byte).
  generalize (mem_write (replicate 24 "000"%byte) 0 d). intros h0 [= ->].
  cbn [db_hdr with_hdr].
  case_bool_decide as Hsig; cbn [negb andb orb].
  2:{ split; [|done]. intros _. eexists. split; done. }
  case_bool_decide as Hold; cbn [negb andb orb].
  - cbn [db_hdr with_hdr]. rewrite hdr_page_size_set by done. unfold umod, udiv.
    rewrite !(bool_decide_false (4096 = 0)) by lia.
    cbn [mbind outcome_bind file.size file.file_size].
    rewrite !hdr_length_set by done.
    destruct (_ || _).
    + split; [|done]. intros _. eexists. split; [done|].
      intros _ _. unfold page_size. cbn [db_hdr with_hdr]. by apply hdr_page_size_set.
    + split; [done|]. intros _.
      unfold cache_init, cache_storage.
      cbn [cache_size with_cache with_hdr pages_new cache_data cache_pool cache_queue].
      destruct (storage (Z.of_nat _)) as [[]| |]; cbn [mbind outcome_bind]; [|done..].
      destruct (storage (sizeof_pointer * _)) as [[]| |]; cbn [mbind outcome_bind];
        [|done..].
      do 2 f_equal. unfold opened, with_file, attached.
      cbn [db_hdr with_hdr with_cache cache_size cache_data cache_pool cache_queue
             pages_new file_iface].
      rewrite hdr_page_size_set by done.
      by rewrite cache_init_slots by lia.
  - case_bool_decide as Hnew; cbn [negb andb orb].
    2:{ split; [|done]. intros _. eexists. split; done. }
    destruct (valid_page_size (hdr_page_size h)) eqn:Hps; cbn [negb andb orb].
    2:{ split; [|done]. intros _. eexists. split; done. }
    apply valid_page_size_pos in Hps. unfold umod, udiv.
    rewrite !(bool_decide_false (hdr_page_size h = 0)) by lia.
    cbn [mbind outcome_bind file.size file.file_size].
    destruct (_ || _).
    + split; [|done]. intros _. eexists. split; done.
    + split; [done|]. intros _.
      unfold cache_init, cache_storage.
      cbn [cache_size with_cache with_hdr pages_new cache_data cache_pool cache_queue].
      destruct (storage (Z.of_nat _)) as [[]| |]; cbn [mbind outcome_bind]; [|done..].
      destruct (storage (sizeof_pointer * _)) as [[]| |]; cbn [mbind outcome_bind];
        [|done..].
      do 2 f_equal. unfold opened, with_file, attached.
      cbn [db_hdr with_hdr with_cache cache_size cache_data cache_pool cache_queue
             pages_new file_iface].
      by rewrite cache_init_slots by lia.
Qed.

Lemma open_no_header N os :
  header_read os = None ->
  exists e p, open (pages_new N) os = Ret (e, p) /\ code e = errors.file_system.
Proof.
  unfold header_read, open. destruct (file.open os) as [fe tmp].
  destruct (file.ok fe); cbn [negb]; [|by eauto].
  destruct (file.read tmp 24 0) as [fe2 d].
  destruct (file.ok fe2); cbn [negb]; [done | by eauto].
Qed.

Lemma le_uint_nonneg bs : 0 <= le_uint bs.
Proof.
  induction bs as [|b bs IH]; simpl; [lia|].
  unfold byte_to_Z. lia.
Qed.

Lemma valid_page_size_elem ps :
  valid_page_size ps = true <-> ps ∈ [4096; 8192; 16384; 32768; 65536].
Proof.
  unfold valid_page_size. rewrite !orb_true_iff, !bool_decide_eq_true.
  rewrite !elem_of_cons, elem_of_nil. tauto.
Qed.

(** Exact division, as [open] tests it. *)
Lemma exact_division a b n :
  0 < b -> (a mod b = 0 /\ a / b = n) <-> a = n * b.
Proof.
  intros Hb. split.
  - intros [Hm Hd]. pose proof (Z.div_mod a b). lia.
  - intros ->. split; [apply Z.mod_mul; lia | apply Z.div_mul; lia].
Qed.

(** What a header that passes every check of [open] satisfies. *)
Lemma verdict_none h file_size :
  header_verdict h file_size = errors.none ->
  hdr_sig h = signature
  /\ (hdr_version h = 0x000E0208 \/ hdr_version h = 0x00080308)
  /\ effective_page_size h ∈ [4096; 8192; 16384; 32768; 65536]
  /\ file_size = hdr_length h * effective_page_size h /\ 1 <= hdr_length h.
Proof.
  unfold header_verdict, effective_page_size.
  pose proof (le_uint_nonneg (take 4 (drop 12 h))) as Hnn.
  fold (mem_get h 12 4) in Hnn. fold (hdr_length h) in Hnn.
  case_bool_decide as Hsig; cbn [negb andb orb]; [|done].
  case_bool_decide as Hv1; cbn [negb andb orb].
  - repeat case_bool_decide; cbn [negb andb orb]; try done. intros _.
    split_and!; try done; [by left | set_solver | | lia].
    by apply exact_division.
  - case_bool_decide as Hv2; cbn [negb andb orb]; [|done].
    destruct (valid_page_size (hdr_page_size h)) eqn:Hps; cbn [negb]; [|done].
    repeat case_bool_decide; cbn [negb andb orb]; try done. intros _.
    split_and!; try done; [by right | by apply valid_page_size_elem | | lia].
    apply exact_division; [|done]. apply valid_page_size_pos in Hps. lia.
Qed.

Lemma opened_fields N os h :
  length h = 24%nat ->
  let p := opened N os (if bool_decide (hdr_version h = 0x000E0208)
                        then hdr_set_page_size h 4096 else h) in
  page_size p = effective_page_size h /\ size p = hdr_length h.
Proof.
  intros Hlen. unfold page_size, size, opened, effective_page_size.
  cbn [db_hdr with_file cache_init with_hdr].
  case_bool_decide; [|done]. by rewrite hdr_page_size_set, hdr_length_set.
Qed.

(** [open] throws only what the storage of the cache throws. *)
Lemma storage_throws bytes ex :
  storage bytes = Throw ex -> ex = std_length_error \/ ex = std_bad_alloc.
Proof.
  unfold storage. destruct (allocate bytes) as [[]|]; intros [= <-]; auto.
Qed.

Lemma storage_defined bytes : defined (storage bytes).
Proof. unfold storage. by destruct (allocate bytes) as [[]|]. Qed.

Lemma cache_storage_throws N ps ex :
  cache_storage N ps = Throw ex -> ex = std_length_error \/ ex = std_bad_alloc.
Proof.
  unfold cache_storage.
  destruct (storage (Z.of_nat _)) as [[]|e|] eqn:H1; cbn [mbind outcome_bind].
  - apply storage_throws.
  - intros [= <-]. by eapply storage_throws.
  - done.
Qed.

Lemma cache_storage_defined N ps : defined (cache_storage N ps).
Proof.
  unfold cache_storage. pose proof (storage_defined (Z.of_nat (Z.to_nat ps * (N + 1)))) as Hd.
  destruct (storage (Z.of_nat _)) as [[]|e|w]; cbn [mbind outcome_bind];
    [apply storage_defined | done | by destruct (Hd w)].
Qed.

(** The two ways [open] goes: it returns one of its errors without
    asking for storage, or the header passed and it asks for the storage
    of the cache. *)
Lemma open_outcome N os :
  (exists e p, open (pages_new N) os = Ret (e, p) /\ code e <> errors.none)
  \/ exists h, header_read os = Some h
       /\ header_verdict h (Z.of_nat (length (file.os_bytes os))) = errors.none
       /\ open (pages_new N) os
          = (_ ← cache_storage N (effective_page_size h);
             Ret (error_none,
                  opened N os (if bool_decide (hdr_version h = 0x000E0208)
                               then hdr_set_page_size h 4096 else h))).
Proof.
  destruct (header_read os) as [h|] eqn:Hh.
  - destruct (open_verdict N os h Hh) as [Hbad Hgood].
    destruct (decide (header_verdict h (Z.of_nat (length (file.os_bytes os)))
                      = errors.none)) as [Hv|Hv].
    + right. exists h. split_and!; [done | done | by apply Hgood].
    + left. destruct (Hbad Hv) as (p & Ho & _). eexists _, p. split; [done|]. done.
  - left. destruct (open_no_header N os Hh) as (e & p & Ho & He).
    exists e, p. split; [done|]. by rewrite He.
Qed.

(** What a returned code says of a header that could be read. *)
Lemma open_code N os h e p :
  header_read os = Some h -> open (pages_new N) os = Ret (e, p) ->
  code e = header_verdict h (Z.of_nat (length (file.os_bytes os)))
  /\ (hdr_sig h = signature -> hdr_version h = 0x000E0208 -> page_size p = 4096)
  /\ (code e = errors.none ->
      p = opened N os (if bool_decide (hdr_version h = 0x000E0208)
                       then hdr_set_page_size h 4096 else h)).
Proof.
  intros Hh Ho. destruct (open_verdict N os h Hh) as [Hbad Hgood].
  pose proof (header_read_length _ _ Hh) as Hlen.
  destruct (decide (header_verdict h (Z.of_nat (length (file.os_bytes os)))
                    = errors.none)) as [Hv|Hv].
  - rewrite (Hgood Hv) in Ho.
    destruct (cache_storage N (effective_page_size h)) as [[]| |]; [|done..].
    injection Ho as <- <-. split_and!; [by rewrite Hv | | done].
    intros _ Hold. destruct (opened_fields N os h Hlen) as [-> _].
    unfold effective_page_size. by rewrite bool_decide_true.
  - destruct (Hbad Hv) as (p' & Ho' & Hps). rewrite Ho' in Ho.
    injection Ho as <- <-. split_and!; [done | done |]. intros Hc. done.
Qed.

(** C5 (amended).  [open] has no undefined behaviour and throws nothing
    of its own: what can leave it is the [std::length_error] or
    [std::bad_alloc] of the storage of the cache, asked for when the file
    opened, its header was read and every check of the header passed;
    when that storage is given, [open] returns.  When the file opens and
    its header can be read, the code returned is [version] exactly when
    the signature matches and the version is neither [0x000E0208] nor
    [0x00080308]; with the signature and version [0x000E0208] the page
    size is 4096 afterwards; with the signature and version [0x00080308] a
    page size outside of 4096, 8192, 16384, 32768, 65536 gives [bad_file];
    with the signature and one of the two versions, a file size other than
    [length * page_size], or a [length] of zero, gives [bad_file].  When
    the code is [none], all of these invariants hold. *)
Theorem open_typed_errors N os :
  defined (open (pages_new N) os)
  /\ (forall ex, open (pages_new N) os = Throw ex ->
        (ex = std_length_error \/ ex = std_bad_alloc)
        /\ exists h, header_read os = Some h
             /\ header_verdict h (Z.of_nat (length (file.os_bytes os))) = errors.none
             /\ cache_storage N (effective_page_size h) = Throw ex)
  /\ ((forall h, header_read os = Some h ->
         header_verdict h (Z.of_nat (length (file.os_bytes os))) = errors.none ->
         cache_storage N (effective_page_size h) = Ret ()) ->
      exists e p, open (pages_new N) os = Ret (e, p))
  /\ forall e p, open (pages_new N) os = Ret (e, p) ->
     (header_read os = None -> code e = errors.file_system)
     /\ forall h, header_read os = Some h ->
        let file_size := Z.of_nat (length (file.os_bytes os)) in
        (code e = errors.version <->
           hdr_sig h = signature
           /\ hdr_version h <> 0x000E0208 /\ hdr_version h <> 0x00080308)
        /\ (hdr_sig h = signature -> hdr_version h = 0x000E0208 ->
            page_size p = 4096)
        /\ (hdr_sig h = signature -> hdr_version h = 0x00080308 ->
            hdr_page_size h ∉ [4096; 8192; 16384; 32768; 65536] ->
            code e = errors.bad_file)
        /\ (hdr_sig h = signature ->
            hdr_version h = 0x000E0208 \/ hdr_version h = 0x00080308 ->
            file_size <> hdr_length h * effective_page_size h \/ hdr_length h = 0 ->
            code e = errors.bad_file)
        /\ (code e = errors.none ->
            hdr_sig h = signature
            /\ (hdr_version h = 0x000E0208 \/ hdr_version h = 0x00080308)
            /\ page_size p = effective_page_size h
            /\ page_size p ∈ [4096; 8192; 16384; 32768; 65536]
            /\ file_size = size p * page_size p /\ 1 <= size p).
Proof.
  split_and!.
  { destruct (open_outcome N os) as [(e & p & -> & _)|(h & Hh & Hv & ->)]; [done|].
    pose proof (cache_storage_defined N (effective_page_size h)) as Hd.
    destruct (cache_storage N (effective_page_size h)) as [[]|e|w];
      [done | done | by destruct (Hd w)]. }
  { intros ex Ho.
    destruct (open_outcome N os) as [(e & p & Ho' & _)|(h & Hh & Hv & Ho')];
      [congruence|].
    rewrite Ho' in Ho.
    destruct (cache_storage N (effective_page_size h)) as [[]|e|w] eqn:Hst;
      [done | | done].
    injection Ho as <-. split; [by eapply cache_storage_throws|]. eauto. }
  { intros Hgiven.
    destruct (open_outcome N os) as [(e & p & Ho' & _)|(h & Hh & Hv & Ho')];
      [by eauto|].
    rewrite Ho', (Hgiven h Hh Hv). cbn. eauto. }
  intros e p Ho. split.
  { intros Hh. destruct (open_no_header N os Hh) as (e' & p' & Ho' & He). congruence. }
  intros h Hh file_size.
  destruct (open_code N os h e p Hh Ho) as (He & Hold & Hnone).
  pose proof (header_read_length _ _ Hh) as Hlen.
  fold file_size in He. rewrite He. unfold header_verdict.
  split_and!.
  - repeat case_bool_decide; cbn [negb andb orb]; repeat case_match;
      intuition (try congruence; try discriminate).
  - done.
  - intros Hsig Hnew Hps. apply (not_iff_compat (valid_page_size_elem _)) in Hps.
    apply not_true_is_false in Hps. rewrite Hps.
    rewrite (bool_decide_true (hdr_sig h = signature)) by done.
    rewrite (bool_decide_false (hdr_version h = 918024)) by lia.
    rewrite (bool_decide_true (hdr_version h = 525064)) by done. done.
  - intros Hsig Hver Hbad. rewrite bool_decide_true by done. cbn [negb].
    destruct (valid_page_size (hdr_page_size h)) eqn:Hps.
    all: repeat case_bool_decide; cbn [negb andb orb]; try done; try lia.
    all: exfalso; destruct Hbad as [Hbad|?]; [|done]; apply Hbad.
    all: apply exact_division; [|done].
    all: unfold effective_page_size; rewrite ?bool_decide_true, ?bool_decide_false by done; try lia.
    all: apply valid_page_size_pos in Hps; lia.
  - intros Hc. assert (code e = errors.none) as Hc' by (rewrite He; exact Hc).
    rewrite (Hnone Hc'). destruct (opened_fields N os h Hlen) as [-> ->].
    destruct (verdict_none h file_size Hc) as (? & ? & ? & ? & ?). done.
Qed.

(** *** The slots of the cache *)

Lemma elem_of_slots ps N s :
  s ∈ slots ps N <-> exists j, (j <= N)%nat /\ s = (j * ps)%nat.
Proof.
  unfold slots. rewrite list_elem_of_fmap. split.
  - intros (j & -> & Hj). apply elem_of_seq in Hj. exists j. split; [lia | done].
  - intros (j & Hj & ->). exists j. split; [done|]. apply elem_of_seq. lia.
Qed.

Lemma NoDup_slots ps N : (0 < ps)%nat -> NoDup (slots ps N).
Proof.
  intros Hps. unfold slots. apply NoDup_fmap_2; [|apply NoDup_seq].
  intros i j Hij. nia.
Qed.

(** Two slots are the same or apart by a page. *)
Lemma slots_apart ps N s s' :
  s ∈ slots ps N -> s' ∈ slots ps N -> s <> s' ->
  (s' + ps <= s \/ s + ps <= s')%nat.
Proof.
  intros (j & _ & ->)%elem_of_slots (j' & _ & ->)%elem_of_slots Hne.
  assert (j <> j') by congruence. nia.
Qed.

Lemma slots_inside ps N s :
  s ∈ slots ps N -> (s + ps <= ps * (N + 1))%nat.
Proof. intros (j & Hj & ->)%elem_of_slots. nia. Qed.

Lemma open_inv N os e p :
  open (pages_new N) os = Ret (e, p) -> code e = errors.none -> pages_inv os N p.
Proof.
  intros Ho Hc. destruct (header_read os) as [h|] eqn:Hh; last first.
  { destruct (open_no_header N os Hh) as (e' & p' & Ho' & He). congruence. }
  destruct (open_code N os h e p Hh Ho) as (He & _ & Hp).
  rewrite Hc in He. symmetry in He.
  destruct (verdict_none _ _ He) as (_ & _ & Hps & Hsize & Hlen).
  destruct (opened_fields N os h (header_read_length _ _ Hh)) as [Eps Esz].
  specialize (Hp Hc). set (h' := if bool_decide _ then _ else _) in *.
  rewrite <- Eps, <- Esz, <- Hp in *. clear Eps Esz.
  split.
  - by rewrite Hp.
  - by rewrite Hp.
  - by apply valid_page_size_elem.
  - done.
  - done.
  - rewrite Hp. cbn. apply cache_props.reach_clear, cache_props.reach_new.
  - rewrite Hp. unfold page_size. cbn [cache_data db_hdr opened].
    by rewrite length_replicate.
  - rewrite Hp. unfold page_size. cbn [cache_pool cache_queue db_hdr opened].
    unfold cache_props.resident. cbn. by rewrite app_nil_r.
  - rewrite Hp. cbn. intros k s Hks. by apply elem_of_nil in Hks.
Qed.

Lemma reachable_opened N os e p :
  open (pages_new N) os = Ret (e, p) -> code e = errors.none ->
  reachable os N p.
Proof. intros. by eapply reach_open. Qed.

End open.

(** *** [view] *)

Lemma with_cache_id p : with_cache p (cache_data p) (cache_pool p) (cache_queue p) = p.
Proof. by destruct p. Qed.

Lemma last_Some_snoc {A : Type} (l : list A) (x : A) :
  last l = Some x -> l = removelast l ++ [x].
Proof.
  intros Hl. destruct l as [|y l] using rev_ind; [done|].
  rewrite last_snoc in Hl. injection Hl as ->.
  by rewrite removelast_last.
Qed.

Lemma valid_page_size_nat p :
  valid_page_size (page_size p) = true -> (0 < Z.to_nat (page_size p))%nat.
Proof. intros Hps%valid_page_size_pos. lia. Qed.

(** Reading the fields of an object whose cache members were assigned. *)
Ltac with_cache_fields :=
  repeat match goal with
  | |- context [cache_data (with_cache ?p ?a ?b ?c)] =>
      change (cache_data (with_cache p a b c)) with a
  | |- context [cache_pool (with_cache ?p ?a ?b ?c)] =>
      change (cache_pool (with_cache p a b c)) with b
  | |- context [cache_queue (with_cache ?p ?a ?b ?c)] =>
      change (cache_queue (with_cache p a b c)) with c
  | |- context [cache_size (with_cache ?p ?a ?b ?c)] =>
      change (cache_size (with_cache p a b c)) with (cache_size p)
  | |- context [file_iface (with_cache ?p ?a ?b ?c)] =>
      change (file_iface (with_cache p a b c)) with (file_iface p)
  | |- context [db_hdr (with_cache ?p ?a ?b ?c)] =>
      change (db_hdr (with_cache p a b c)) with (db_hdr p)
  | |- context [page_size (with_cache ?p ?a ?b ?c)] =>
      change (page_size (with_cache p a b c)) with (page_size p)
  | |- context [size (with_cache ?p ?a ?b ?c)] =>
      change (size (with_cache p a b c)) with (size p)
  | |- context [page_of ?os (with_cache ?p ?a ?b ?c) ?k] =>
      change (page_of os (with_cache p a b c) k) with (page_of os p k)
  end.

Section view.
Context `{!platform} (os : file.os_file) (N : nat).
Implicit Types (p : pages) (s : nat).

Lemma inv_pool_slot p s :
  pages_inv os N p -> s ∈ cache_pool p -> s ∈ slots (Z.to_nat (page_size p)) N.
Proof.
  intros Hinv Hs. rewrite <- (inv_slots _ _ _ Hinv). apply elem_of_app. by left.
Qed.

Lemma inv_resident_slot p k s :
  pages_inv os N p -> (k, s) ∈ cache_props.resident (cache_queue p) ->
  s ∈ slots (Z.to_nat (page_size p)) N /\ s ∉ cache_pool p.
Proof.
  intros Hinv Hks. apply (list_elem_of_fmap_2 snd) in Hks. simpl in Hks.
  pose proof (NoDup_slots (Z.to_nat (page_size p)) N
                (valid_page_size_nat _ (inv_page_size _ _ _ Hinv))) as Hnd.
  rewrite <- (inv_slots _ _ _ Hinv) in Hnd.
  apply NoDup_app in Hnd as (_ & Hdis & _). split.
  - rewrite <- (inv_slots _ _ _ Hinv). apply elem_of_app. by right.
  - intros Hin. by apply (Hdis s).
Qed.

(** The hit path: [find] reorders [main] at most. *)
Lemma inv_find p index_ :
  pages_inv os N p ->
  pages_inv os N (with_cache p (cache_data p) (cache_pool p)
                    (cache.twoq_find (cache_queue p) index_).2).
Proof.
  intros Hinv. destruct (cache.twoq_find (cache_queue p) index_) as [r q1] eqn:Hf.
  pose proof (cache_props.reach_find _ _ index_ (inv_queue _ _ _ Hinv)) as Hreach.
  rewrite Hf in Hreach.
  apply cache_facts.twoq_find_spec in Hf as (Ein & Eout & Emax & Eperm & _).
  assert (cache_props.resident q1 ≡ₚ cache_props.resident (cache_queue p)) as Hres.
  { unfold cache_props.resident. by rewrite Ein, Eperm. }
  destruct Hinv. split; with_cache_fields; try done.
  - by rewrite Hres.
  - intros k s Hks. rewrite Hres in Hks. by apply inv_cached0.
Qed.

(** The read of the miss path stores into a slot of the free pool. *)
Lemma inv_write_free p s d :
  pages_inv os N p -> last (cache_pool p) = Some s ->
  (length d <= Z.to_nat (page_size p))%nat ->
  pages_inv os N (with_cache p (mem_write (cache_data p) s d)
                    (cache_pool p) (cache_queue p)).
Proof.
  intros Hinv Hs%last_Some_elem_of Hd.
  pose proof (inv_pool_slot _ _ Hinv Hs) as Hslot.
  pose proof (slots_inside _ _ _ Hslot) as Hin.
  pose proof (inv_data _ _ _ Hinv) as Hdata.
  split; with_cache_fields; try (by destruct Hinv).
  - rewrite length_mem_write by lia. done.
  - intros k s' Hks. with_cache_fields.
    destruct (inv_resident_slot _ _ _ Hinv Hks) as [Hslot' Hnot].
    assert (s <> s') as Hne by (intros ->; done).
    pose proof (slots_apart _ _ _ _ Hslot Hslot' Hne) as Hapart.
    rewrite mem_read_write_disjoint by lia.
    by apply (inv_cached _ _ _ Hinv).
Qed.

(** The admission of the page read into the last slot of the pool. *)
Lemma inv_admit p s index_ freed q' :
  pages_inv os N p -> last (cache_pool p) = Some s ->
  mem_read (cache_data p) s (Z.to_nat (page_size p)) = page_of os p index_ ->
  cache.twoq_push (cache_queue p) (index_, s) = Ret (freed, q') ->
  pages_inv os N
    (with_cache p (cache_data p)
       (match freed with
        | Some fp => removelast (cache_pool p) ++ [fp.2]
        | None => removelast (cache_pool p)
        end) q').
Proof.
  intros Hinv Hs Hpage Hpush.
  pose proof (cache_props.reach_push _ _ _ _ _ (inv_queue _ _ _ Hinv) Hpush) as Hreach.
  apply cache_facts.twoq_push_spec in Hpush as [_ Hperm].
  apply last_Some_snoc in Hs.
  split; with_cache_fields; try (by destruct Hinv).
  - pose proof (inv_slots _ _ _ Hinv) as Hsl.
    set (pool0 := removelast (cache_pool p)) in *. rewrite Hs in Hsl.
    rewrite <- Hsl. apply (fmap_Permutation snd) in Hperm.
    rewrite fmap_app, fmap_cons in Hperm.
    destruct freed as [fp|]; rewrite <- !(assoc_L (++));
      apply Permutation_app_head; exact Hperm.
  - intros k s' Hks. with_cache_fields.
    assert ((k, s') ∈ (index_, s) :: cache_props.resident (cache_queue p)) as Hel.
    { rewrite <- Hperm. apply elem_of_app. by right. }
    apply elem_of_cons in Hel as [[= -> ->]|Hel]; [done|].
    by apply (inv_cached _ _ _ Hinv).
Qed.

Lemma inv_pool_nonempty p : pages_inv os N p -> exists s, last (cache_pool p) = Some s.
Proof.
  intros Hinv. pose proof (inv_slots _ _ _ Hinv) as Hsl.
  apply Permutation_length in Hsl. unfold slots in Hsl.
  rewrite length_app, !length_fmap, length_seq in Hsl.
  pose proof (cache_facts.reachable_resident_le _ _ (inv_queue _ _ _ Hinv)).
  destruct (cache_pool p) as [|s0 pool] using rev_ind; [simpl in Hsl; lia|].
  exists s0. apply last_snoc.
Qed.

(** The positioned read of a page of the file. *)
Lemma file_read_page p index_ :
  pages_inv os N p -> 0 <= index_ < size p ->
  exists fe d,
    file.read (file_iface p) (page_size p) (page_size p * index_) = (fe, d)
    /\ (length d <= Z.to_nat (page_size p))%nat
    /\ (file.ok fe = true ->
        d = page_of os p index_ /\ length d = Z.to_nat (page_size p))
    /\ (readable os -> file.ok fe = true).
Proof.
  intros Hinv Hi. pose proof (inv_file_size _ _ _ Hinv) as Hsize.
  pose proof (valid_page_size_pos _ (inv_page_size _ _ _ Hinv)) as Hps.
  rewrite (inv_file _ _ _ Hinv). unfold file.read, attached. cbn [file.file_handle].
  assert (length (page_of os p index_) = Z.to_nat (page_size p)) as Hlen.
  { unfold page_of. rewrite length_take, length_drop. nia. }
  case_bool_decide as Herr.
  - fold (page_of os p index_). rewrite bool_decide_true by lia.
    eexists _, _. split; [done|]. split; [lia|]. done.
  - eexists _, _. split; [done|]. split; [simpl; lia|]. split.
    + unfold file.ok. by rewrite bool_decide_false.
    + intros [_ Hr]. by rewrite Hr in Herr.
Qed.

(** The second guard of [view], with its overflow check, in plain
    arithmetic. *)
Lemma interval_guard ps count_ pos_ :
  0 <= ps <= 65536 -> 0 <= count_ <= size_t_max -> 0 <= pos_ <= size_t_max ->
  (bool_decide (pos_ >= ps) || bool_decide (wrap 64 (pos_ + count_) > ps)
   || bool_decide (wrap 64 (pos_ + count_) < pos_)) = false
  <-> pos_ < ps /\ pos_ + count_ <= ps.
Proof.
  unfold wrap, size_t_max. change (2 ^ 64) with 18446744073709551616.
  intros Hps Hc Ho. rewrite !orb_false_iff, !bool_decide_eq_false.
  destruct (decide (pos_ + count_ < 18446744073709551616)) as [Hsm|Hbig].
  - rewrite Z.mod_small by lia. lia.
  - assert ((pos_ + count_) mod 18446744073709551616
            = pos_ + count_ - 18446744073709551616) as ->.
    { symmetry. apply (Z.mod_unique _ _ 1); lia. }
    lia.
Qed.

Lemma page_bytes p index_ count_ pos_ :
  0 <= index_ -> 0 <= count_ -> 0 <= pos_ -> 0 <= page_size p ->
  pos_ + count_ <= page_size p ->
  take (Z.to_nat count_) (drop (Z.to_nat pos_) (page_of os p index_))
  = file_bytes os p index_ count_ pos_.
Proof.
  intros Hi Hc Ho Hps Hle. unfold page_of, file_bytes.
  change (take ?n (drop ?k ?l)) with (mem_read l k n) at 2.
  rewrite <- (mem_read_inside _ (Z.to_nat (page_size p * index_))
               (Z.to_nat (page_size p))) by lia.
  unfold mem_read. do 2 f_equal. nia.
Qed.

(** What one call of [view] does in a state of the invariant. *)
Lemma view_spec p index_ count_ pos_ :
  pages_inv os N p -> in_range index_ count_ pos_ ->
  exists r p', view p index_ count_ pos_ = (r, p')
    /\ (defined r -> pages_inv os N p')
    /\ (forall ptr, r = Ret ptr ->
         mem_read (cache_data p') ptr (Z.to_nat count_)
         = file_bytes os p index_ count_ pos_)
    /\ (forall e, r = Throw e ->
         (exists what, e = exception what)
         /\ cache_pool p' = cache_pool p /\ cache_queue p' = cache_queue p)
    /\ (returns r -> accepted p index_ count_ pos_)
    /\ (~ accepted p index_ count_ pos_ -> raises r)
    /\ (accepted p index_ count_ pos_ ->
        (cache.twoq_find (cache_queue p) index_).1 = None ->
        file.ok (file.read (file_iface p) (page_size p) (page_size p * index_)).1
        = false ->
        raises r)
    /\ (accepted p index_ count_ pos_ -> (4 <= N)%nat -> readable os -> returns r).
Proof.
  intros Hinv (Hi & Hc & Ho).
  pose proof (valid_page_size_pos _ (inv_page_size _ _ _ Hinv)) as Hps.
  unfold view. change (hdr_length (db_hdr p)) with (size p).
  change (hdr_page_size (db_hdr p)) with (page_size p).
  destruct (bool_decide (index_ = 0) || bool_decide (index_ >= size p)) eqn:G1.
  { apply orb_true_iff in G1. rewrite !bool_decide_eq_true in G1.
    assert (~ accepted p index_ count_ pos_) as Hna by (intros (? & _); lia).
    eexists _, _. split; [done|]. split_and!.
    - done.
    - done.
    - intros e [= <-]. split; [by eexists | done].
    - intros [ptr Hr]. done.
    - intros _. by eexists.
    - done.
    - done. }
  apply orb_false_iff in G1. rewrite !bool_decide_eq_false in G1.
  destruct (_ || _ || _) eqn:G2.
  { assert (~ accepted p index_ count_ pos_) as Hna.
    { intros (_ & _ & ? & ?).
      assert (pos_ < page_size p /\ pos_ + count_ <= page_size p) as Hacc by lia.
      apply interval_guard in Hacc; [congruence | lia | done | done]. }
    eexists _, _. split; [done|]. split_and!.
    - done.
    - done.
    - intros e [= <-]. split; [by eexists | done].
    - intros [ptr Hr]. done.
    - intros _. by eexists.
    - done.
    - done. }
  apply interval_guard in G2; [|lia|done|done].
  assert (accepted p index_ count_ pos_) as Hacc by (unfold accepted; lia).
  pose proof (inv_find p index_ Hinv) as Hinv1.
  destruct (cache.twoq_find (cache_queue p) index_) as [cached q1] eqn:Hf.
  apply cache_facts.twoq_find_spec in Hf as (_ & _ & _ & _ & Hhit & Hmiss).
  cbn [snd] in Hinv1. destruct cached as [ptr|].
  { (* the page is cached *)
    eexists _, _. split; [done|]. split_and!.
    - done.
    - intros ptr' [= <-]. with_cache_fields.
      rewrite (mem_read_inside _ _ (Z.to_nat (page_size p))) by lia.
      rewrite (inv_cached _ _ _ Hinv index_ ptr) by (by apply Hhit).
      apply page_bytes; lia.
    - done.
    - done.
    - done.
    - done.
    - intros _ _ _. by eexists. }
  (* the page is read from the file *)
  rewrite (Hmiss eq_refl), with_cache_id in *. clear Hinv1 Hhit Hmiss q1.
  change (hdr_page_size (db_hdr p)) with (page_size p).
  destruct (inv_pool_nonempty p Hinv) as [s Hs]. rewrite Hs.
  destruct (file_read_page p index_ Hinv) as (fe & d & Hrd & Hd & Hok & Hreadable);
    [lia|].
  rewrite Hrd. with_cache_fields.
  pose proof (inv_write_free p s d Hinv Hs Hd) as Hinv2.
  destruct (file.ok fe) eqn:Hfe; cbn [negb].
  2:{ (* the read failed *)
    eexists _, _. split; [done|]. split_and!.
    - done.
    - done.
    - intros e [= <-]. split; [by eexists | done].
    - intros [ptr Hr]. done.
    - done.
    - intros _ _ _. by eexists.
    - intros _ _ Hr. specialize (Hreadable Hr). done. }
  destruct (Hok eq_refl) as [-> Hlen]. clear Hok Hreadable.
  assert (mem_read (mem_write (cache_data p) s (page_of os p index_)) s
            (Z.to_nat (page_size p)) = page_of os p index_) as Hslot.
  { rewrite <- Hlen at 1. apply mem_read_write.
    pose proof (slots_inside _ _ _ (inv_pool_slot _ _ Hinv (last_Some_elem_of _ _ Hs))).
    rewrite (inv_data _ _ _ Hinv). lia. }
  destruct (cache.twoq_push (cache_queue p) (index_, s)) as [[freed q2]|e|w] eqn:Hpush.
  - pose proof (inv_admit _ s index_ freed q2 Hinv2 Hs Hslot Hpush) as Hinv3.
    eexists _, _. split; [done|]. split_and!.
    + done.
    + intros ptr' [= <-]. with_cache_fields.
      rewrite (mem_read_inside _ _ (Z.to_nat (page_size p))) by lia.
      rewrite Hslot. apply page_bytes; lia.
    + done.
    + done.
    + done.
    + intros _ _ Hr. cbn in Hr. congruence.
    + intros _ _ _. by eexists.
  - by apply cache_facts.twoq_push_not_throw in Hpush.
  - eexists _, _. split; [done|]. split_and!.
    + intros Hdef. by destruct (Hdef w).
    + done.
    + done.
    + intros [ptr Hr]. done.
    + done.
    + intros _ _ Hr. cbn in Hr. congruence.
    + intros _ HN _. exfalso.
      pose proof (cache_facts.reachable_wf _ _ HN (inv_queue _ _ _ Hinv)) as Hwf.
      destruct (cache_facts.twoq_push_wf _ (index_, s) Hwf) as (? & ? & Hp & _).
      congruence.
Qed.
End view.

(** The invariant speaks of the bytes of the file only: it holds as well
    when the platform answers the calls on the file otherwise. *)
Lemma inv_platform os' os N p :
  pages_inv os' N p -> file.os_bytes os' = file.os_bytes os ->
  pages_inv os N (with_file p (attached os)).
Proof.
  intros Hinv Hb. destruct Hinv. split; try done.
  - by rewrite <- Hb.
  - intros k s Hks. unfold page_of. rewrite <- Hb. by apply inv_cached0.
Qed.

Lemma reachable_inv `{!platform} os N p : reachable os N p -> pages_inv os N p.
Proof.
  induction 1 as [os N e p Ho Hc|os N p i c o r p' Hp IH Hr Hv Hdef|os N os' p Hp IH Hb].
  - by eapply open_inv.
  - destruct (view_spec os N p i c o IH Hr) as (r' & p'' & Hv' & Hstep & _).
    assert (r' = r /\ p'' = p') as [-> ->] by (split; congruence). by apply Hstep.
  - by eapply inv_platform.
Qed.

Section claims.
Context `{!platform} (os : file.os_file) (N : nat).
Implicit Types (p : pages).

(** [view] assigns to the cache members only. *)
Lemma view_db_hdr p index_ count_ pos_ :
  db_hdr (view p index_ count_ pos_).2 = db_hdr p.
Proof.
  unfold view. repeat (case_match; try done).
Qed.

Lemma view_page_size p index_ count_ pos_ :
  page_size (view p index_ count_ pos_).2 = page_size p
  /\ size (view p index_ count_ pos_).2 = size p.
Proof. unfold page_size, size. by rewrite view_db_hdr. Qed.

(** C7 (amended).  [view(index, count, pos)] returns a pointer only
    when [1 <= index < length], [pos < page_size] and
    [pos + count <= page_size], the sum taken in the integers, which is
    what its guards with their wrap-around check accept; in every other
    case it throws, whatever the file and the cache.  On a readable file
    and with a cache of at least four pages it returns a pointer for
    every request within these bounds. *)
Theorem view_returns_iff p index_ count_ pos_ :
  reachable os N p -> in_range index_ count_ pos_ ->
  (returns (view p index_ count_ pos_).1 ->
     1 <= index_ < size p /\ pos_ < page_size p /\ pos_ + count_ <= page_size p)
  /\ (~ (1 <= index_ < size p /\ pos_ < page_size p
         /\ pos_ + count_ <= page_size p) ->
      raises (view p index_ count_ pos_).1)
  /\ ((4 <= N)%nat -> readable os ->
      1 <= index_ < size p /\ pos_ < page_size p /\ pos_ + count_ <= page_size p ->
      returns (view p index_ count_ pos_).1)
  /\ ((pos_ < page_size p /\ pos_ + count_ <= page_size p) <->
      ~ (pos_ >= page_size p \/ wrap 64 (pos_ + count_) > page_size p
         \/ wrap 64 (pos_ + count_) < pos_)).
Proof.
  intros Hp%reachable_inv Hr.
  destruct (view_spec os N p index_ count_ pos_ Hp Hr)
    as (r & p' & -> & _ & _ & _ & Hret & Hrej & _ & Hacc).
  cbn [fst]. pose proof Hr as (Hi & Hc & Ho).
  assert (accepted p index_ count_ pos_ <->
          1 <= index_ < size p /\ pos_ < page_size p
          /\ pos_ + count_ <= page_size p) as Heq.
  { unfold accepted. lia. }
  split_and!.
  - rewrite <- Heq. done.
  - rewrite <- Heq. done.
  - rewrite <- Heq. by auto.
  - pose proof (valid_page_size_pos _ (inv_page_size _ _ _ Hp)) as Hps.
    rewrite <- (interval_guard (page_size p) count_ pos_) by (done || lia).
    rewrite !orb_false_iff, !bool_decide_eq_false. tauto.
Qed.

(** C1 (amended).  On a readable file and with a cache of at least four
    pages, every request of a run of [view] calls (each copied out, as
    [read] does) with [1 <= index < length], [pos < page_size] and
    [pos + count <= page_size] returns the [count] bytes of the file at
    [index * page_size + pos], whatever the requests before it were. *)
Theorem cache_transparent p (reqs : list (Z * Z * Z)) :
  (4 <= N)%nat -> readable os -> reachable os N p ->
  Forall (fun '(index_, count_, pos_) =>
            in_range index_ count_ pos_ /\ accepted p index_ count_ pos_) reqs ->
  read_all p reqs
  = (fun '(index_, count_, pos_) => Ret (file_bytes os p index_ count_ pos_)) <$> reqs
  /\ Forall (fun '(index_, count_, pos_) =>
               length (file_bytes os p index_ count_ pos_) = Z.to_nat count_) reqs.
Proof.
  intros HN Hread Hp Hreqs. split.
  - revert p Hp Hreqs. induction reqs as [|[[i c] o] reqs IH]; intros p Hp Hreqs; [done|].
    apply Forall_cons in Hreqs as [[Hr Hacc] Hreqs].
    pose proof (reachable_inv os N p Hp) as Hinv.
    destruct (view_spec os N p i c o Hinv Hr)
      as (r & p' & Hv & _ & Hbytes & _ & _ & _ & _ & Hret).
    destruct (Hret Hacc HN Hread) as [ptr ->].
    pose proof (view_page_size p i c o) as [Eps Esz]. rewrite Hv in Eps, Esz.
    cbn [snd] in Eps, Esz.
    cbn [read_all fmap list_fmap]. unfold read. rewrite Hv. cbn [mbind outcome_bind].
    rewrite (Hbytes ptr eq_refl). f_equal.
    rewrite IH.
    + apply list_fmap_ext. intros _ [[i' c'] o'] _. unfold file_bytes. by rewrite Eps.
    + eapply reach_view; [exact Hp | exact Hr | exact Hv | done].
    + eapply Forall_impl; [exact Hreqs|]. intros [[i' c'] o'].
      unfold accepted. by rewrite Eps, Esz.
  - eapply Forall_impl; [exact Hreqs|]. intros [[i c] o] [_ Hacc].
    pose proof (reachable_inv os N p Hp) as Hinv.
    pose proof (inv_file_size _ _ _ Hinv) as Hsize.
    destruct Hacc as (Hi & Hc & Ho & Hle).
    unfold file_bytes. rewrite length_take, length_drop. nia.
Qed.

(** A request that the guards accept, for a page that is not cached,
    on a file object whose read reports an error: [view] throws after
    the read, the free pool and the queue as they were. *)
Lemma view_read_fails p (f : file.file) index_ count_ pos_ :
  pages_inv os N p -> in_range index_ count_ pos_ ->
  accepted p index_ count_ pos_ ->
  (cache.twoq_find (cache_queue p) index_).1 = None ->
  file.ok (file.read f (page_size p) (page_size p * index_)).1 = false ->
  exists what p', view (with_file p f) index_ count_ pos_ = (throw what, p')
    /\ cache_pool p' = cache_pool p /\ cache_queue p' = cache_queue p.
Proof.
  intros Hinv (Hi & Hc & Ho) Hacc Hmiss Hbad.
  pose proof (valid_page_size_pos _ (inv_page_size _ _ _ Hinv)) as Hps.
  pose proof Hacc as (Hidx & _ & Hpos & Hsum).
  unfold view. cbn [db_hdr with_file cache_queue cache_data cache_pool file_iface].
  change (hdr_length (db_hdr p)) with (size p).
  change (hdr_page_size (db_hdr p)) with (page_size p).
  rewrite (bool_decide_false (index_ = 0)), (bool_decide_false (index_ >= size p)) by lia.
  cbn [orb].
  assert ((bool_decide (pos_ >= page_size p)
           || bool_decide (wrap 64 (pos_ + count_) > page_size p)
           || bool_decide (wrap 64 (pos_ + count_) < pos_)) = false) as ->.
  { apply interval_guard; [lia | done | done | lia]. }
  destruct (cache.twoq_find (cache_queue p) index_) as [cached q1] eqn:Hf.
  cbn [fst] in Hmiss. subst cached.
  apply cache_facts.twoq_find_spec in Hf as (_ & _ & _ & _ & _ & Hsame).
  rewrite (Hsame eq_refl).
  cbn [with_cache cache_pool cache_data cache_queue db_hdr file_iface].
  destruct (inv_pool_nonempty os N p Hinv) as [s Hs]. rewrite Hs.
  change (file_iface (with_file p f)) with f.
  change (hdr_page_size (db_hdr (with_file p f))) with (page_size p).
  destruct (file.read f (page_size p) (page_size p * index_)) as [fe d].
  cbn [fst] in Hbad. rewrite Hbad. cbn [negb]. eexists _, _. split; [done|]. done.
Qed.

(** C2.  In every state of a [pages] object with a cache of [N] pages, a
    [view] that returns leaves [N + 1] slots in the free pool and in the
    [in] and [main] queues together; and a [view] whose request passes the
    guards, whose page is not cached and whose file read reports an error
    throws and leaves the free pool and the queue as they were, whatever
    file object the read is made on: the page may have been read before,
    and the file may read well again afterwards. *)
Theorem view_slot_accounting p index_ count_ pos_ :
  reachable os N p -> in_range index_ count_ pos_ ->
  (forall ptr p', view p index_ count_ pos_ = (Ret ptr, p') ->
     (length (cache_pool p')
      + length (cache.fifo_items (cache.tq_in (cache_queue p')))
      + length (cache.lru_items (cache.tq_main (cache_queue p'))) = N + 1)%nat)
  /\ (forall f : file.file,
      accepted p index_ count_ pos_ ->
      (cache.twoq_find (cache_queue p) index_).1 = None ->
      file.ok (file.read f (page_size p) (page_size p * index_)).1 = false ->
      exists what p', view (with_file p f) index_ count_ pos_ = (throw what, p')
        /\ cache_pool p' = cache_pool p /\ cache_queue p' = cache_queue p).
Proof.
  intros Hp%reachable_inv Hr.
  destruct (view_spec os N p index_ count_ pos_ Hp Hr)
    as (r & p' & Hv & Hstep & _).
  split.
  - intros ptr p'' Hv'. assert (r = Ret ptr /\ p' = p'') as [-> ->] by (split; congruence).
    assert (pages_inv os N p'') as Hinv' by (by apply Hstep).
    pose proof (inv_slots _ _ _ Hinv') as Hsl. apply Permutation_length in Hsl.
    unfold slots, cache_props.resident in Hsl.
    rewrite !length_app, !length_fmap, length_app, length_seq in Hsl. lia.
  - intros f Hacc Hmiss Hbad. by apply view_read_fails.
Qed.
End claims.

End pages_facts.

(** *** The example files *)

Module pages_examples.

Import pages pages_props pages_facts examples.
#[local] Existing Instance ample.

Lemma readable_plain bytes : readable (plain_file bytes).
Proof. split; [reflexivity | intros; reflexivity]. Defined.

Lemma reachable_pages_on os :
  match open (pages_new 4) os with
  | Ret (e, _) => code e
  | _ => errors.bad_file
  end = errors.none ->
  reachable os 4 (pages_on os).
Proof.
  unfold pages_on. destruct (open (pages_new 4) os) as [[e p]| |] eqn:Ho; [|done|done].
  intros Hc. by eapply reach_open.
Defined.

Lemma reachable_pages_ab : reachable db_ab 4 pages_ab.
Proof. apply reachable_pages_on. vm_compute. reflexivity. Defined.

Lemma reachable_pages_ab_faulty : reachable db_ab_faulty 4 pages_ab_faulty.
Proof. apply reachable_pages_on. vm_compute. reflexivity. Defined.

Lemma in_range_small index_ count_ pos_ :
  0 <= index_ <= 65536 -> 0 <= count_ <= 65536 -> 0 <= pos_ <= 65536 ->
  in_range index_ count_ pos_.
Proof. unfold in_range, uint32_max, size_t_max. lia. Defined.

Lemma cache_storage_ample N ps : cache_storage N ps = Ret ().
Proof. reflexivity. Defined.

Lemma open_typed_errors_witness :
  (exists e p, open (pages_new 4) db_version_0 = Ret (e, p)
               /\ code e = errors.version)
  /\ (exists e p, open (pages_new 4) db_old = Ret (e, p) /\ page_size p = 4096)
  /\ (exists e p, open (pages_new 4) db_page_5000 = Ret (e, p)
                  /\ code e = errors.bad_file).
Proof.
  split_and!.
  - destruct (open_typed_errors 4 db_version_0) as (_ & _ & Hret & Hall).
    destruct Hret as (e & p & Ho); [intros; apply cache_storage_ample|].
    exists e, p. split; [done|].
    destruct (proj2 (Hall e p Ho) (db_hdr_bytes 0 1 4096)) as (Hv & _);
      [vm_compute; reflexivity|].
    apply Hv. split_and!; vm_compute; [reflexivity | lia | lia].
  - destruct (open_typed_errors 4 db_old) as (_ & _ & Hret & Hall).
    destruct Hret as (e & p & Ho); [intros; apply cache_storage_ample|].
    exists e, p. split; [done|].
    destruct (proj2 (Hall e p Ho) (db_hdr_bytes 0x000E0208 2 8192)) as (_ & Hps & _);
      [vm_compute; reflexivity|].
    apply Hps; vm_compute; reflexivity.
  - destruct (open_typed_errors 4 db_page_5000) as (_ & _ & Hret & Hall).
    destruct Hret as (e & p & Ho); [intros; apply cache_storage_ample|].
    exists e, p. split; [done|].
    destruct (proj2 (Hall e p Ho) (db_hdr_bytes 0x00080308 1 5000))
      as (_ & _ & Hbad & _); [vm_compute; reflexivity|].
    apply Hbad; [vm_compute; reflexivity | vm_compute; reflexivity|].
    apply (@bool_decide_unpack _ _). vm_compute. exact I.
Defined.

(** C5, as stated, on a database that opens when the storage of its
    cache is given: with a free store that refuses the 20480 bytes of the
    five pages, [open] throws. *)
Lemma open_raises_bad_alloc :
  (exists p, @open ample (pages_new 4) db_ab = Ret (error_none, p))
  /\ @open scarce (pages_new 4) db_ab = Throw std_bad_alloc.
Proof.
  split; [|vm_compute; reflexivity].
  exists pages_ab. vm_cast_no_check (eq_refl (@open ample (pages_new 4) db_ab)).
Qed.

Lemma view_returns_iff_witness :
  returns (view pages_ab 2 96 4000).1 /\ raises (view pages_ab 3 1 0).1.
Proof.
  pose proof (view_returns_iff db_ab 4 pages_ab) as Hview. split.
  - destruct (Hview 2 96 4000 reachable_pages_ab
                (in_range_small 2 96 4000 ltac:(lia) ltac:(lia) ltac:(lia)))
      as (_ & _ & Hret & _).
    apply Hret; [lia | apply readable_plain |].
    vm_compute. split_and!; congruence.
  - destruct (Hview 3 1 0 reachable_pages_ab
                (in_range_small 3 1 0 ltac:(lia) ltac:(lia) ltac:(lia)))
      as (_ & Hrej & _).
    apply Hrej. vm_compute. intros [[_ Hlt] _]. discriminate Hlt.
Defined.

(** C7, as stated, at a request with [1 <= index < length] and
    [pos + count <= page_size]: the guard on [pos] alone rejects it. *)
Lemma view_rejects_pos_at_page_size :
  (1 <= 1 < size pages_ab /\ 4096 + 0 <= page_size pages_ab)
  /\ (view pages_ab 1 0 4096).1
     = throw "Requested data interval to view exceeds page size.".
Proof. vm_compute. split_and!; congruence. Qed.

Lemma cache_transparent_witness :
  read_all pages_ab [(1, 2, 0); (2, 1, 4095); (1, 1, 7)]
  = [Ret ["a"; "a"]%byte; Ret ["b"%byte]; Ret ["a"%byte]].
Proof.
  destruct (cache_transparent db_ab 4 pages_ab [(1, 2, 0); (2, 1, 4095); (1, 1, 7)])
    as [-> _]; [lia | apply readable_plain | apply reachable_pages_ab | | vm_compute; reflexivity].
  repeat apply Forall_cons_2; [| | | apply Forall_nil_2].
  all: split; [apply in_range_small; lia | vm_compute; split_and!; congruence].
Defined.

(** C1, as stated, at a run of one request with [1 <= index < length] and
    [pos + count <= page_size]: the call throws. *)
Lemma read_all_rejects_pos_at_page_size :
  Forall (fun '(index_, count_, pos_) =>
            1 <= index_ < size pages_ab /\ pos_ + count_ <= page_size pages_ab)
    [(1, 0, 4096)]
  /\ read_all pages_ab [(1, 0, 4096)]
     = [throw "Requested data interval to view exceeds page size."].
Proof.
  split; [|vm_compute; reflexivity].
  apply Forall_cons_2; [|apply Forall_nil_2]. vm_compute. split_and!; congruence.
Qed.

Lemma view_slot_accounting_witness :
  (length (cache_pool (view pages_ab 1 3 0).2)
   + length (cache.fifo_items (cache.tq_in (cache_queue (view pages_ab 1 3 0).2)))
   + length (cache.lru_items (cache.tq_main (cache_queue (view pages_ab 1 3 0).2)))
   = 4 + 1)%nat
  /\ (exists what p',
        view (with_file pages_ab (attached db_ab_faulty)) 1 3 0 = (throw what, p')
        /\ cache_pool p' = cache_pool pages_ab
        /\ cache_queue p' = cache_queue pages_ab).
Proof.
  split.
  - apply (proj1 (view_slot_accounting db_ab 4 pages_ab 1 3 0 reachable_pages_ab
                    (in_range_small 1 3 0 ltac:(lia) ltac:(lia) ltac:(lia)))
             (Z.to_nat 16384)).
    rewrite (surjective_pairing (view pages_ab 1 3 0)) at 1.
    f_equal; vm_compute; reflexivity.
  - apply (proj2 (view_slot_accounting db_ab 4 pages_ab 1 3 0 reachable_pages_ab
                    (in_range_small 1 3 0 ltac:(lia) ltac:(lia) ltac:(lia)))
             (attached db_ab_faulty)).
    + vm_compute. split_and!; congruence.
    + vm_compute. reflexivity.
    + vm_compute. reflexivity.
Defined.

(** The text of the exception of a failed read, on a platform that has
    no message for the error. *)
Lemma view_read_error_text :
  (view (with_file pages_ab (attached db_ab_faulty)) 1 3 0).1
  = throw "Error while reading page from file: Unknown system error.".
Proof. vm_compute. reflexivity. Qed.

End pages_examples.

(** ** db_1cd_8x::pages: validity, pointers and hits *)

Module pages_more.

Import pages pages_props pages_facts.

(** *** What [open] leaves behind *)

Lemma replicate_not_nil {A : Type} (n : nat) (x : A) :
  (0 < n)%nat -> replicate n x <> [].
Proof. destruct n; [lia | done]. Qed.

Lemma opened_is_valid N os h :
  4096 <= hdr_page_size h -> is_valid (opened N os h) = true.
Proof.
  intros Hps. unfold is_valid, opened, file.is_valid, attached, slots.
  cbn [file_iface cache_data cache_pool file.file_handle].
  rewrite bool_decide_true by done. cbn [andb].
  apply andb_true_intro. split; apply negb_true_iff, bool_decide_eq_false.
  - apply replicate_not_nil. nia.
  - replace (N + 1)%nat with (S N) by lia. done.
Qed.

(** A call of [open] that reports an error has changed [db_hdr] at most. *)
Lemma open_failed `{!platform} N os e p :
  open (pages_new N) os = Ret (e, p) -> code e <> errors.none ->
  file_iface p = file.file_new /\ cache_data p = [] /\ cache_pool p = []
  /\ cache_queue p = cache.twoq_new N.
Proof.
  unfold open. destruct (file.open os) as [fe tmp].
  destruct (negb (file.ok fe)); [by intros [= <- <-]|].
  destruct (file.read tmp 24 0) as [fe2 d].
  destruct (negb (file.ok fe2)); [by intros [= <- <-]|].
  destruct (negb (bool_decide (hdr_sig _ = _))); [by intros [= <- <-]|].
  destruct (_ && _); [by intros [= <- <-]|].
  set (p0 := with_hdr (pages_new N) _).
  destruct (bool_decide (hdr_version (db_hdr p0) = 918024)).
  - destruct (umod _ _) as [r| |]; [|done..]. cbn [mbind outcome_bind].
    destruct (udiv _ _) as [q| |]; [|done..]. cbn [mbind outcome_bind].
    destruct (_ || _ || _); [by intros [= <- <-]|].
    destruct (cache_init _ _) as [p1| |]; [|done..]. cbn [mbind outcome_bind].
    intros [= <- <-]. done.
  - destruct (negb (valid_page_size _)); [by intros [= <- <-]|].
    destruct (umod _ _) as [r| |]; [|done..]. cbn [mbind outcome_bind].
    destruct (udiv _ _) as [q| |]; [|done..]. cbn [mbind outcome_bind].
    destruct (_ || _ || _); [by intros [= <- <-]|].
    destruct (cache_init _ _) as [p1| |]; [|done..]. cbn [mbind outcome_bind].
    intros [= <- <-]. done.
Qed.

(** X5.  After [open] the object is valid exactly when the call reported
    no error; a call that reports an error leaves the file detached and
    the cache as the constructor built it, so [open] may be tried again. *)
Theorem open_valid_iff `{!platform} N os e p :
  open (pages_new N) os = Ret (e, p) ->
  (is_valid p = true <-> code e = errors.none)
  /\ (code e <> errors.none ->
      file_iface p = file.file_new /\ cache_data p = [] /\ cache_pool p = []
      /\ cache_queue p = cache.twoq_new N).
Proof.
  intros Ho. split; [|exact (open_failed N os e p Ho)].
  destruct (decide (code e = errors.none)) as [Hc|Hc].
  - split; [done|]. intros _.
    destruct (header_read os) as [h|] eqn:Hh; last first.
    { destruct (open_no_header N os Hh) as (e' & p' & Ho' & He). congruence. }
    destruct (open_code N os h e p Hh Ho) as (He & _ & Hp).
    rewrite (Hp Hc). rewrite Hc in He. symmetry in He.
    destruct (verdict_none _ _ He) as (_ & _ & Hps & _).
    apply opened_is_valid. unfold effective_page_size in Hps.
    pose proof (header_read_length _ _ Hh) as Hlen.
    case_bool_decide.
    + rewrite hdr_page_size_set by done. lia.
    + apply valid_page_size_elem in Hps. apply valid_page_size_pos in Hps. lia.
  - destruct (open_failed N os e p Ho Hc) as (Hf & _). split; [|done].
    unfold is_valid. rewrite Hf. done.
Qed.

(** *** A key that was found or pushed is found *)

Section found.
Context {Tindex Tvalue : Type} `{EqDecision Tindex}.
Import cache cache_props cache_facts.

Lemma twoq_find_again (q q1 : twoq Tindex Tvalue) k v :
  twoq_find q k = (Some v, q1) -> is_Some (twoq_find q1 k).1.
Proof.
  unfold twoq_find.
  destruct (decide (k ∈ (lru_items (tq_main q)).*1)) as [Hk|Hk].
  - destruct (lru_find_hit _ _ Hk) as (v0 & i & Hi & _ & ->).
    intros [= -> <-]. cbn [tq_main tq_in].
    set (m := {| lru_max_size := _; lru_items := _ |}).
    assert (k ∈ (lru_items m).*1) as Hk'.
    { simpl. rewrite fmap_app. apply elem_of_app. right. by left. }
    destruct (lru_find_hit m k Hk') as (v1 & j & Hj & Ha & ->). by eexists.
  - rewrite (lru_find_miss _ _ Hk). intros [= Hf <-]. cbn [tq_main tq_in].
    rewrite (lru_find_miss _ _ Hk). cbn [fst]. rewrite Hf. by eexists.
Qed.

Lemma twoq_push_found (q q' : twoq Tindex Tvalue) k v ev :
  twoq_push q (k, v) = Ret (ev, q') -> is_Some (twoq_find q' k).1.
Proof.
  unfold twoq_push. cbn [fst].
  assert (forall (i' : fifo Tindex Tvalue) o' m',
             (k, v) ∈ fifo_items i' ->
             is_Some (twoq_find (mk_twoq i' o' m') k).1) as Hin.
  { intros i' o' m' Hel. unfold twoq_find. cbn [tq_main tq_in].
    destruct (lru_find m' k) as [[v1|] m1]; [by eexists|]. cbn [fst].
    rewrite fifo_find_assoc.
    destruct (assoc (fifo_items i') k) eqn:Ha; [by eexists|].
    apply assoc_None in Ha. exfalso. apply Ha.
    by apply (list_elem_of_fmap_2 fst) in Hel. }
  destruct (fifo_find (tq_out q) k) as [?|].
  - destruct (lru_push (tq_main q) (k, v)) as [[ev1 m']| |] eqn:Hp; simpl; try done.
    intros [= _ <-]. unfold twoq_find. cbn [tq_main tq_in].
    assert (k ∈ (lru_items m').*1) as Hk.
    { revert Hp. unfold lru_push, lru_item_push. destruct (decide _).
      - intros [= _ <-]. simpl. rewrite fmap_app. apply elem_of_app. right. by left.
      - destruct (lru_items (tq_main q)) as [|old rest]; [done|].
        intros [= _ <-]. simpl. rewrite fmap_app. apply elem_of_app. right. by left. }
    destruct (lru_find_hit m' k Hk) as (v1 & j & _ & _ & ->). by eexists.
  - destruct (fifo_push (tq_in q) (k, v)) as [[ev1 in']| |] eqn:Hp; simpl; try done.
    apply fifo_push_elem in Hp. destruct ev1 as [old|].
    + destruct (fifo_push (tq_out q) (old.1, 0)) as [[ev2 out']| |]; simpl; try done.
      intros [= _ <-]. by apply Hin.
    + intros [= _ <-]. by apply Hin.
Qed.
End found.

(** *** The pointer that [view] returns *)

Section view.
Context `{!platform} (os : file.os_file) (N : nat).
Implicit Types (p : pages) (s : nat).

(** A [view] that returns points [pos_] bytes into a slot, and leaves
    the page in the queue. *)
Lemma view_slot p index_ count_ pos_ ptr p' :
  pages_inv os N p -> view p index_ count_ pos_ = (Ret ptr, p') ->
  exists s, s ∈ slots (Z.to_nat (page_size p)) N
    /\ ptr = (s + Z.to_nat pos_)%nat
    /\ is_Some (cache.twoq_find (cache_queue p') index_).1.
Proof.
  intros Hinv. unfold view.
  destruct (bool_decide (index_ = 0) || _); [done|].
  destruct (_ || _ || _); [done|].
  destruct (cache.twoq_find (cache_queue p) index_) as [cached q1] eqn:Hf.
  destruct cached as [s|].
  - intros [= <- <-]. exists s. with_cache_fields. split_and!; [|done|].
    + apply cache_facts.twoq_find_spec in Hf as (_ & _ & _ & _ & Hhit & _).
      by destruct (inv_resident_slot os N p index_ s Hinv (Hhit s eq_refl)).
    + by eapply twoq_find_again.
  - apply cache_facts.twoq_find_spec in Hf as (_ & _ & _ & _ & _ & Hmiss).
    rewrite (Hmiss eq_refl), with_cache_id.
    destruct (last (cache_pool p)) as [s|] eqn:Hs; [|done].
    destruct (file.read _ _ _) as [fe d].
    destruct (negb (file.ok fe)); [done|]. with_cache_fields.
    destruct (cache.twoq_push _ _) as [[freed q2]| |] eqn:Hpush; [|done..].
    intros [= <- <-]. exists s. with_cache_fields. split_and!; [|done|].
    + apply (inv_pool_slot os N p s Hinv). by apply last_Some_elem_of.
    + by eapply twoq_push_found.
Qed.

(** A request for a cached page is answered from the queue alone. *)
Lemma view_hit p index_ count_ pos_ s q :
  0 <= page_size p <= 65536 -> in_range index_ count_ pos_ ->
  accepted p index_ count_ pos_ ->
  cache.twoq_find (cache_queue p) index_ = (Some s, q) ->
  view p index_ count_ pos_
  = (Ret (s + Z.to_nat pos_)%nat, with_cache p (cache_data p) (cache_pool p) q).
Proof.
  intros Hps (Hi & Hc & Ho) (Hidx & _ & Hpos & Hsum) Hf. unfold view.
  change (hdr_length (db_hdr p)) with (size p).
  change (hdr_page_size (db_hdr p)) with (page_size p).
  rewrite (bool_decide_false (index_ = 0)) by lia.
  rewrite (bool_decide_false (index_ >= size p)) by lia. cbn [orb].
  rewrite (proj2 (interval_guard (page_size p) count_ pos_ Hps Hc Ho)) by lia.
  by rewrite Hf.
Qed.

(** X6.  The [count_] bytes at a pointer that [view] returns lie
    inside one page slot of the cache buffer, [pos_] bytes from its
    start, so the copy that [read] makes stays inside [cache_data]. *)
Theorem view_pointer_in_bounds p index_ count_ pos_ ptr p' :
  reachable os N p -> in_range index_ count_ pos_ ->
  view p index_ count_ pos_ = (Ret ptr, p') ->
  exists s, s ∈ slots (Z.to_nat (page_size p)) N
    /\ ptr = (s + Z.to_nat pos_)%nat
    /\ (ptr + Z.to_nat count_ <= s + Z.to_nat (page_size p))%nat
    /\ (s + Z.to_nat (page_size p) <= length (cache_data p'))%nat.
Proof.
  intros Hinv%reachable_inv Hr Hv.
  destruct (view_spec os N p index_ count_ pos_ Hinv Hr)
    as (r & p1 & Hv' & Hstep & _ & _ & Hret & _).
  assert (r = Ret ptr /\ p1 = p') as [-> ->] by (split; congruence).
  assert (pages_inv os N p') as Hinv' by (by apply Hstep).
  destruct (Hret (ex_intro _ ptr eq_refl)) as (_ & Hc & Ho & Hsum).
  destruct (view_slot p index_ count_ pos_ ptr p' Hinv Hv) as (s & Hs & -> & _).
  exists s. split_and!; [done | done | lia |].
  pose proof (view_page_size p index_ count_ pos_) as [Eps _].
  rewrite Hv in Eps. cbn [snd] in Eps.
  rewrite (inv_data _ _ _ Hinv'), Eps. by apply slots_inside.
Qed.

(** X7.  A page that [view] has just returned is answered from the
    cache: the next [view] of that page returns the bytes of the file
    without reading the file, whatever the platform would do, and
    changes neither the cache buffer nor the free pool. *)
Theorem view_again_is_a_hit p index_ count_ pos_ ptr p' f count' pos' :
  reachable os N p -> in_range index_ count_ pos_ ->
  view p index_ count_ pos_ = (Ret ptr, p') ->
  in_range index_ count' pos' ->
  pos' < page_size p -> pos' + count' <= page_size p ->
  exists ptr' p'',
    view p' index_ count' pos' = (Ret ptr', p'')
    /\ view (with_file p' f) index_ count' pos' = (Ret ptr', with_file p'' f)
    /\ cache_data p'' = cache_data p' /\ cache_pool p'' = cache_pool p'
    /\ mem_read (cache_data p'') ptr' (Z.to_nat count')
       = file_bytes os p index_ count' pos'.
Proof.
  intros Hinv%reachable_inv Hr Hv Hr' Hpos' Hsum'.
  destruct (view_spec os N p index_ count_ pos_ Hinv Hr)
    as (r & p1 & Hv' & Hstep & _ & _ & Hret & _).
  assert (r = Ret ptr /\ p1 = p') as [-> ->] by (split; congruence).
  assert (pages_inv os N p') as Hinv' by (by apply Hstep).
  destruct (Hret (ex_intro _ ptr eq_refl)) as (Hidx & _).
  destruct (view_slot p index_ count_ pos_ ptr p' Hinv Hv) as (_ & _ & _ & [s Hhit]).
  pose proof (view_page_size p index_ count_ pos_) as [Eps Esz].
  rewrite Hv in Eps, Esz. cbn [snd] in Eps, Esz.
  destruct (cache.twoq_find (cache_queue p') index_) as [r q] eqn:Hf.
  cbn [fst] in Hhit. subst r.
  pose proof (valid_page_size_pos _ (inv_page_size _ _ _ Hinv')) as Hps.
  assert (accepted p' index_ count' pos') as Hacc.
  { unfold accepted. rewrite Eps, Esz. destruct Hr' as (_ & ? & ?). lia. }
  pose proof (view_hit p' index_ count' pos' s q ltac:(lia) Hr' Hacc Hf) as Hv1.
  assert (0 <= page_size (with_file p' f) <= 65536) as Hps'.
  { change (page_size (with_file p' f)) with (page_size p'). lia. }
  pose proof (view_hit (with_file p' f) index_ count' pos' s q Hps' Hr' Hacc Hf) as Hv2.
  eexists _, _. split; [exact Hv1|]. split; [exact Hv2|]. with_cache_fields.
  split; [done|]. split; [done|].
  destruct (view_spec os N p' index_ count' pos' Hinv' Hr')
    as (r & p2 & Hv3 & _ & Hbytes & _).
  rewrite Hv1 in Hv3. injection Hv3 as <- <-.
  pose proof (Hbytes _ eq_refl) as Hb. revert Hb. with_cache_fields. intros ->.
  unfold file_bytes. by rewrite Eps.
Qed.
End view.

Import examples pages_examples.
#[local] Existing Instance ample.

Lemma open_valid_iff_witness :
  exists e p, open (pages_new 4) db_version_0 = Ret (e, p)
    /\ (is_valid p = true <-> code e = errors.none)
    /\ file_iface p = file.file_new /\ cache_data p = [] /\ cache_pool p = []
    /\ cache_queue p = cache.twoq_new 4.
Proof.
  generalize (open_valid_iff 4 db_version_0).
  destruct (open (pages_new 4) db_version_0) as [[e p]| |] eqn:Ho;
    [|vm_compute in Ho; discriminate Ho..].
  intros Hvalid. destruct (Hvalid e p eq_refl) as [Hiff Hfail].
  exists e, p. split; [done|]. split; [done|]. apply Hfail.
  vm_compute in Ho. injection Ho as <- _. discriminate.
Defined.

Lemma view_pointer_in_bounds_witness :
  exists s, s ∈ slots (Z.to_nat (page_size pages_ab)) 4
    /\ Z.to_nat 16384 = (s + Z.to_nat 0)%nat
    /\ (Z.to_nat 16384 + Z.to_nat 3 <= s + Z.to_nat (page_size pages_ab))%nat
    /\ (s + Z.to_nat (page_size pages_ab)
        <= length (cache_data (view pages_ab 1 3 0).2))%nat.
Proof.
  apply (view_pointer_in_bounds db_ab 4 pages_ab 1 3 0 (Z.to_nat 16384)
           (view pages_ab 1 3 0).2 reachable_pages_ab
           (in_range_small 1 3 0 ltac:(lia) ltac:(lia) ltac:(lia))).
  rewrite (surjective_pairing (view pages_ab 1 3 0)) at 1.
  f_equal; vm_compute; reflexivity.
Defined.

Lemma view_again_is_a_hit_witness :
  exists ptr' p'',
    view (view pages_ab 1 3 0).2 1 1 7 = (Ret ptr', p'')
    /\ view (with_file (view pages_ab 1 3 0).2 file.file_new) 1 1 7
       = (Ret ptr', with_file p'' file.file_new)
    /\ cache_data p'' = cache_data (view pages_ab 1 3 0).2
    /\ cache_pool p'' = cache_pool (view pages_ab 1 3 0).2
    /\ mem_read (cache_data p'') ptr' (Z.to_nat 1) = file_bytes db_ab pages_ab 1 1 7.
Proof.
  apply (view_again_is_a_hit db_ab 4 pages_ab 1 3 0 (Z.to_nat 16384)
           (view pages_ab 1 3 0).2 file.file_new 1 7 reachable_pages_ab
           (in_range_small 1 3 0 ltac:(lia) ltac:(lia) ltac:(lia))).
  - rewrite (surjective_pairing (view pages_ab 1 3 0)) at 1.
    f_equal; vm_compute; reflexivity.
  - apply in_range_small; lia.
  - vm_compute. reflexivity.
  - vm_compute. congruence.
Defined.

End pages_more.

(** ** db_1c_83::object *)

Module db_1c_83_facts.

Import db_1c_83.

Lemma le_uint_bound bs : 0 <= le_uint bs < 256 ^ Z.of_nat (length bs).
Proof.
  induction bs as [|b bs IH]; [simpl; lia|].
  cbn [le_uint length]. rewrite Nat2Z.inj_succ, Z.pow_succ_r by lia.
  assert (0 <= byte_to_Z b < 256) as Hb.
  { unfold byte_to_Z. pose proof (Byte.to_N_bounded b). lia. }
  lia.
Qed.

Lemma page_size_bound p : 0 <= pages.page_size p < 2 ^ 32.
Proof.
  unfold pages.page_size, pages.hdr_page_size, mem_get.
  pose proof (le_uint_bound (take 4 (drop 20 (pages.db_hdr p)))) as Hb.
  assert (256 ^ Z.of_nat (length (take 4 (drop 20 (pages.db_hdr p)))) <= 256 ^ 4).
  { apply Z.pow_le_mono_r; [lia|]. rewrite length_take. lia. }
  change (256 ^ 4) with (2 ^ 32) in *. lia.
Qed.

Section object.
Context `{!platform}.

(** A [read] of [pages] that returns was given a position inside a page. *)
Lemma pages_read_returns p index_ count_ pos_ d p' :
  pages.read p index_ count_ pos_ = (Ret d, p') ->
  pos_ < pages.page_size p /\ pages.page_size p' = pages.page_size p.
Proof.
  unfold pages.read. intros Hr.
  pose proof (pages_facts.view_db_hdr p index_ count_ pos_) as Hhdr.
  destruct (pages.view p index_ count_ pos_) as [r p1] eqn:Hv.
  injection Hr as Hr <-. cbn [snd] in Hhdr. split; [|unfold pages.page_size; by rewrite Hhdr].
  destruct r as [ptr| |]; [|done|done]. clear Hr. revert Hv. unfold pages.view.
  destruct (_ || _); [done|].
  destruct (bool_decide (pos_ >= _) || _ || _) eqn:G2; [done|]. intros _.
  apply orb_false_iff in G2 as [G2 _]. apply orb_false_iff in G2 as [G2 _].
  apply bool_decide_eq_false in G2. unfold pages.page_size. lia.
Qed.

Lemma page_num_to_index_page_size o p page_num_ r p' :
  (if bool_decide (hdr_pmt_type o = 0x01)
   then page_num_to_index o p page_num_
   else page_num_to_index_lite o p page_num_) = (r, p') ->
  pages.page_size p' = pages.page_size p.
Proof.
  case_bool_decide.
  - unfold page_num_to_index, pbind.
    destruct (pages.udiv _ _); [|by intros [= _ <-]..].
    case_bool_decide; [by intros [= _ <-]|].
    pose proof (pages_facts.view_db_hdr p (hdr_blocks o a) (pages.page_size p) 0) as Hhdr.
    destruct (pages.view _ _ _ _) as [[ptr|e|w] p1]; cbn [snd] in Hhdr;
      intros [= _ <-]; unfold pages.page_size; by rewrite Hhdr.
  - unfold page_num_to_index_lite. case_bool_decide; by intros [= _ <-].
Qed.

(** The loop of [read] does not depend on how many passes it is allowed
    beyond the [count_] it is given: no pass that goes on copies less than
    one byte. *)
Lemma read_loop_enough fuel k o p count_ page_num pos_in_page dst :
  0 <= count_ <= Z.of_nat fuel -> 0 <= pos_in_page ->
  read_loop (fuel + k) o p count_ page_num pos_in_page dst
  = read_loop fuel o p count_ page_num pos_in_page dst.
Proof.
  revert p count_ page_num pos_in_page dst.
  induction fuel as [|fuel IH]; intros p count_ page_num pos_in_page dst Hc Hpos.
  - assert (count_ = 0) as -> by lia. by destruct k.
  - cbn [read_loop Nat.add]. case_bool_decide as Hz; [done|].
    set (to_read := if bool_decide (count_ < _) then count_ else _).
    destruct (if bool_decide (hdr_pmt_type o = 1) then _ else _) as [r p1] eqn:Hidx.
    pose proof (page_num_to_index_page_size _ _ _ _ _ Hidx) as Hps.
    destruct r as [page_index|e|w]; cbn [pbind]; [|done..].
    destruct (pages.read p1 page_index to_read pos_in_page) as [[d|e|w] p2] eqn:Hrd;
      cbn [pbind]; [|done..].
    apply pages_read_returns in Hrd as [Hlt _]. rewrite Hps in Hlt.
    pose proof (page_size_bound p) as Hb.
    apply IH; [|lia]. subst to_read. unfold wrap.
    rewrite Z.mod_small by lia.
    destruct (bool_decide (count_ < _)) eqn:Hcmp;
      [apply bool_decide_eq_true in Hcmp | apply bool_decide_eq_false in Hcmp]; lia.
Qed.

End object.

End db_1c_83_facts.

(** ** db_1c_83::object: the data behind the placement table *)

Module object_facts.

Import pages_props db_1c_83 object_props db_1c_83_facts.

(** *** Lists cut into pieces of one length *)

Lemma concat_chunk {A : Type} (cs : list (list A)) (n k : nat) (chunk : list A)
    (off count : nat) :
  Forall (fun c => length c = n) cs -> cs !! k = Some chunk ->
  (off + count <= n)%nat ->
  take count (drop off chunk) = take count (drop (k * n + off) (concat cs)).
Proof.
  intros Hall. revert k. induction Hall as [|c cs Hc Hall IH]; intros k Hk Hle; [done|].
  cbn [concat]. destruct k as [|k].
  - injection Hk as ->. cbn [Nat.mul Nat.add].
    rewrite drop_app_le by lia. rewrite take_app_le; [done|].
    rewrite length_drop. lia.
  - cbn [lookup list_lookup] in Hk.
    replace (S k * n + off)%nat with (length c + (k * n + off))%nat by lia.
    rewrite drop_app_add'; [|done]. by apply IH.
Qed.

Lemma take_drop_take {A : Type} (l : list A) (s c len : nat) :
  (s + c <= len)%nat -> take c (drop s (take len l)) = take c (drop s l).
Proof.
  intros Hle. rewrite !take_drop_commute, take_take.
  by rewrite Nat.min_l by lia.
Qed.

Lemma take_take_drop_drop {A : Type} (l : list A) (s a b : nat) :
  take a (drop s l) ++ take b (drop (s + a) l) = take (a + b) (drop s l).
Proof. rewrite <- drop_drop. apply take_take_drop. Qed.

(** The second guard of [read], with its overflow check, in plain
    arithmetic. *)
Lemma interval_guard64 len count_ pos_ :
  0 <= len <= size_t_max -> 0 <= count_ <= size_t_max -> 0 <= pos_ <= size_t_max ->
  (bool_decide (pos_ >= len) || bool_decide (wrap 64 (pos_ + count_) > len)
   || bool_decide (wrap 64 (pos_ + count_) < pos_)) = false
  <-> pos_ < len /\ pos_ + count_ <= len.
Proof.
  unfold wrap, size_t_max. change (2 ^ 64) with 18446744073709551616.
  intros Hps Hc Ho. rewrite !orb_false_iff, !bool_decide_eq_false.
  destruct (decide (pos_ + count_ < 18446744073709551616)) as [Hsm|Hbig].
  - rewrite Z.mod_small by lia. lia.
  - assert ((pos_ + count_) mod 18446744073709551616
            = pos_ + count_ - 18446744073709551616) as ->.
    { symmetry. apply (Z.mod_unique _ _ 1); lia. }
    lia.
Qed.

Lemma mem_get_bound buff off n : 0 <= mem_get buff off n < 256 ^ Z.of_nat n.
Proof.
  unfold mem_get. pose proof (le_uint_bound (take n (drop off buff))) as Hb.
  assert (256 ^ Z.of_nat (length (take n (drop off buff))) <= 256 ^ Z.of_nat n).
  { apply Z.pow_le_mono_r; [lia|]. rewrite length_take. lia. }
  lia.
Qed.

Lemma hdr_length_bound o : 0 <= hdr_length o <= size_t_max.
Proof.
  unfold hdr_length, size_t_max. pose proof (mem_get_bound (hdr_page o) 16 8) as Hb.
  change (256 ^ Z.of_nat 8) with (2 ^ 64) in Hb. lia.
Qed.

Lemma hdr_blocks_bound o n : 0 <= hdr_blocks o n <= uint32_max.
Proof.
  unfold hdr_blocks, uint32_max.
  pose proof (mem_get_bound (hdr_page o)
                (Z.to_nat (sizeof_obj_hdr + sizeof_index_type * n)) 4) as Hb.
  change (256 ^ Z.of_nat 4) with (2 ^ 32) in Hb. lia.
Qed.

Section object.
Context `{!platform} (os : file.os_file) (N : nat).
Hypothesis (HN : (4 <= N)%nat) (Hread : readable os).
Implicit Types (p : pages.pages) (o : object).

Lemma length_page_of p index_ :
  pages_inv os N p -> 0 <= index_ < pages.size p ->
  length (page_of os p index_) = Z.to_nat (pages.page_size p).
Proof.
  intros Hinv Hi. pose proof (inv_file_size _ _ _ Hinv) as Hsize.
  pose proof (pages_facts.valid_page_size_pos _ (inv_page_size _ _ _ Hinv)) as Hps.
  unfold page_of. rewrite length_take, length_drop. nia.
Qed.

(** [pages::read] of an accepted request: the bytes of the page. *)
Lemma pages_read_spec p index_ count_ pos_ :
  reachable os N p -> in_range index_ count_ pos_ ->
  accepted p index_ count_ pos_ ->
  exists p', pages.read p index_ count_ pos_
             = (Ret (take (Z.to_nat count_) (drop (Z.to_nat pos_) (page_of os p index_))), p')
    /\ reachable os N p'
    /\ pages.page_size p' = pages.page_size p /\ pages.size p' = pages.size p.
Proof.
  intros Hp Hr Hacc. pose proof (pages_facts.reachable_inv os N p Hp) as Hinv.
  destruct (pages_facts.view_spec os N p index_ count_ pos_ Hinv Hr)
    as (r & p' & Hv & _ & Hbytes & _ & _ & _ & _ & Hret).
  destruct (Hret Hacc HN Hread) as [ptr ->].
  pose proof (pages_facts.view_page_size p index_ count_ pos_) as [Eps Esz].
  rewrite Hv in Eps, Esz. cbn [snd] in Eps, Esz.
  exists p'. unfold pages.read. rewrite Hv. cbn [mbind outcome_bind].
  rewrite (Hbytes ptr eq_refl). split_and!; [|by eapply reach_view|done|done].
  destruct Hacc as (Hi & Hc & Ho & Hsum).
  rewrite pages_facts.page_bytes by lia. done.
Qed.

Lemma placed_ext p p' o :
  pages.page_size p' = pages.page_size p -> pages.size p' = pages.size p ->
  placed os p o -> placed os p' o.
Proof.
  intros Eps Esz Hpl k. unfold placed, pages_count, records_in_pmt, records_in_hdr,
    page_index, page_of, records_in_pmt in *.
  rewrite Eps, Esz. apply Hpl.
Qed.

Lemma data_ext p p' o :
  pages.page_size p' = pages.page_size p -> data os p' o = data os p o.
Proof.
  intros Eps. unfold data, data_pages, pages_count, page_index, page_of, records_in_pmt.
  by rewrite Eps.
Qed.

Lemma data_pages_ext p p' o :
  pages.page_size p' = pages.page_size p -> data_pages os p' o = data_pages os p o.
Proof.
  intros Eps. unfold data_pages, pages_count, page_index, page_of, records_in_pmt.
  by rewrite Eps.
Qed.

(** Page numbers with an entry in the placement table fit 32 bits. *)
Lemma placed_page_number p o k :
  pages_inv os N p -> placed os p o -> 0 <= k < pages_count o p -> k + 1 < 2 ^ 32.
Proof.
  intros Hinv Hpl Hk.
  pose proof (pages_facts.valid_page_size_pos _ (inv_page_size _ _ _ Hinv)) as Hps.
  destruct (Hpl k Hk) as [Hentry _]. unfold records_in_hdr, records_in_pmt in Hentry.
  unfold sizeof_obj_hdr, sizeof_index_type in Hentry.
  assert ((pages.page_size p - 24) / 4 <= 16378) as Hh.
  { apply Z.div_le_upper_bound; lia. }
  destruct (bool_decide (hdr_pmt_type o = 1)).
  - destruct Hentry as [Hlt _].
    assert (1024 <= pages.page_size p / 4 <= 16384) as Hq.
    { split; [apply Z.div_le_lower_bound; lia | apply Z.div_le_upper_bound; lia]. }
    pose proof (Z.div_mod k (pages.page_size p / 4) ltac:(lia)) as Hdm.
    pose proof (Z.mod_pos_bound k (pages.page_size p / 4) ltac:(lia)) as Hm.
    assert (0 <= k / (pages.page_size p / 4)) by (apply Z.div_pos; lia).
    nia.
  - lia.
Qed.

(** The number of a page that holds a byte of the data. *)
Lemma page_number_inside p o k :
  4096 <= pages.page_size p -> 0 <= k -> k * pages.page_size p < hdr_length o ->
  0 <= k < pages_count o p.
Proof.
  intros Hps Hk Hlt. split; [done|]. unfold pages_count.
  pose proof (Z.div_mod (hdr_length o) (pages.page_size p) ltac:(lia)) as Hdm.
  pose proof (Z.mod_pos_bound (hdr_length o) (pages.page_size p) ltac:(lia)) as Hm.
  case_bool_decide; nia.
Qed.

(** The entry of the placement table for page number [k]. *)
Lemma page_index_spec p o k :
  reachable os N p -> placed os p o -> 0 <= k < pages_count o p ->
  exists p',
    (if bool_decide (hdr_pmt_type o = 0x01)
     then page_num_to_index o p k
     else page_num_to_index_lite o p k) = (Ret (page_index os p o k), p')
    /\ reachable os N p'
    /\ pages.page_size p' = pages.page_size p /\ pages.size p' = pages.size p
    /\ 1 <= page_index os p o k < pages.size p.
Proof.
  intros Hp Hpl Hk. pose proof (pages_facts.reachable_inv os N p Hp) as Hinv.
  pose proof (pages_facts.valid_page_size_pos _ (inv_page_size _ _ _ Hinv)) as Hps.
  destruct (Hpl k Hk) as [Hentry Hidx]. unfold page_index in *.
  unfold records_in_hdr, records_in_pmt in *.
  assert (wrap 64 (pages.page_size p - sizeof_obj_hdr)
          = pages.page_size p - sizeof_obj_hdr) as Hw.
  { unfold wrap, sizeof_obj_hdr. apply Z.mod_small. lia. }
  destruct (bool_decide (hdr_pmt_type o = 1)) eqn:Hpmt.
  - destruct Hentry as [Hlt Hblk].
    unfold page_num_to_index, pages.udiv.
    assert (pages.page_size p / sizeof_index_type <> 0) as Hnz.
    { unfold sizeof_index_type.
      pose proof (Z.div_le_lower_bound (pages.page_size p) 4 1024 ltac:(lia) ltac:(lia)).
      lia. }
    rewrite bool_decide_false by done. cbn [pbind]. rewrite Hw.
    rewrite bool_decide_false by lia.
    set (idx := hdr_blocks o (k / (pages.page_size p / sizeof_index_type))) in *.
    assert (in_range idx (pages.page_size p) 0) as Hr.
    { pose proof (hdr_blocks_bound o (k / (pages.page_size p / sizeof_index_type))).
      unfold in_range, size_t_max, uint32_max in *. fold idx in H. lia. }
    assert (accepted p idx (pages.page_size p) 0) as Hacc by (unfold accepted; lia).
    destruct (pages_facts.view_spec os N p idx (pages.page_size p) 0 Hinv Hr)
      as (r & p' & Hv & _ & Hbytes & _ & _ & _ & _ & Hret).
    destruct (Hret Hacc HN Hread) as [ptr ->].
    pose proof (pages_facts.view_page_size p idx (pages.page_size p) 0) as [Eps Esz].
    rewrite Hv in Eps, Esz. cbn [snd] in Eps, Esz.
    rewrite Hv. cbn [pbind]. exists p'.
    split; [|split; [by eapply reach_view|split; [done|split; [done|exact Hidx]]]].
    do 2 f_equal. unfold mem_get.
    set (r := k mod (pages.page_size p / sizeof_index_type)).
    assert (0 <= r < pages.page_size p / sizeof_index_type) as Hr4.
    { apply Z.mod_pos_bound. unfold sizeof_index_type in *.
      pose proof (Z.div_le_lower_bound (pages.page_size p) 4 1024 ltac:(lia) ltac:(lia)).
      lia. }
    assert (sizeof_index_type * r + 4 <= pages.page_size p) as Hfit.
    { unfold sizeof_index_type in *.
      pose proof (Z.mul_div_le (pages.page_size p) 4 ltac:(lia)). lia. }
    change (take 4 (drop ?k ?l)) with (mem_read l k 4).
    rewrite (mem_read_inside _ ptr (Z.to_nat (pages.page_size p))) by lia.
    rewrite (Hbytes ptr eq_refl).
    rewrite <- pages_facts.page_bytes by lia.
    change (Z.to_nat 0) with 0%nat. rewrite drop_0.
    rewrite (take_ge (page_of os p idx)); [done|].
    rewrite length_page_of by (done || lia). lia.
  - unfold page_num_to_index_lite. rewrite Hw.
    rewrite bool_decide_false by lia. exists p. done.
Qed.

Lemma data_pages_lookup p o k :
  0 <= k < pages_count o p ->
  data_pages os p o !! Z.to_nat k = Some (page_of os p (page_index os p o k)).
Proof.
  intros Hk. unfold data_pages. rewrite list_lookup_fmap.
  rewrite lookup_seq_lt by lia. cbn. by rewrite Z2Nat.id by lia.
Qed.

Lemma data_pages_length p o :
  pages_inv os N p -> placed os p o ->
  Forall (fun c => length c = Z.to_nat (pages.page_size p)) (data_pages os p o).
Proof.
  intros Hinv Hpl. unfold data_pages. apply Forall_fmap, Forall_forall.
  intros k Hk%elem_of_seq. cbn.
  destruct (Hpl (Z.of_nat k) ltac:(lia)) as [_ Hidx].
  apply length_page_of; [done | lia].
Qed.

(** The loop of [read] from page number [k]. *)
Lemma read_loop_spec fuel p o count_ k pos_in_page dst :
  reachable os N p -> placed os p o ->
  0 <= count_ <= Z.of_nat fuel -> 0 <= k -> 0 <= pos_in_page < pages.page_size p ->
  (0 < count_ -> k * pages.page_size p + pos_in_page + count_ <= hdr_length o) ->
  exists p',
    read_loop fuel o p count_ k pos_in_page dst
    = (Ret (),
       dst ++ take (Z.to_nat count_)
                (drop (Z.to_nat (k * pages.page_size p + pos_in_page))
                   (concat (data_pages os p o))), p')
    /\ reachable os N p'
    /\ pages.page_size p' = pages.page_size p /\ pages.size p' = pages.size p.
Proof.
  revert p count_ k pos_in_page dst.
  induction fuel as [|fuel IH]; intros p count_ k pos_in_page dst Hp Hpl Hc Hk Hpip Hfit.
  { assert (count_ = 0) as -> by lia. exists p. cbn. by rewrite take_0, app_nil_r. }
  cbn [read_loop]. case_bool_decide as Hz.
  { subst count_. exists p. cbn. by rewrite take_0, app_nil_r. }
  specialize (Hfit ltac:(lia)).
  pose proof (pages_facts.reachable_inv os N p Hp) as Hinv.
  pose proof (pages_facts.valid_page_size_pos _ (inv_page_size _ _ _ Hinv)) as Hps.
  set (ps := pages.page_size p) in *.
  assert (wrap 64 (ps - pos_in_page) = ps - pos_in_page) as ->.
  { unfold wrap. apply Z.mod_small. lia. }
  set (to_read := if bool_decide (count_ < ps - pos_in_page)
                  then count_ else ps - pos_in_page).
  assert (0 < to_read <= count_ /\ pos_in_page + to_read <= ps) as [Htr Htr'].
  { subst to_read. case_bool_decide; lia. }
  assert (0 <= k < pages_count o p) as Hkc.
  { apply page_number_inside; [fold ps; lia | done | fold ps; lia]. }
  destruct (page_index_spec p o k Hp Hpl Hkc) as (p1 & -> & Hp1 & Eps1 & Esz1 & Hidx).
  fold ps in Eps1.
  assert (in_range (page_index os p o k) to_read pos_in_page) as Hr.
  { unfold in_range, size_t_max, uint32_max.
    pose proof (inv_length _ _ _ Hinv).
    assert (pages.size p < 2 ^ 32).
    { unfold pages.size, pages.hdr_length.
      pose proof (mem_get_bound (pages.db_hdr p) 12 4) as Hb.
      change (256 ^ Z.of_nat 4) with (2 ^ 32) in Hb. lia. }
    lia. }
  assert (accepted p1 (page_index os p o k) to_read pos_in_page) as Hacc.
  { unfold accepted. rewrite Eps1, Esz1. lia. }
  destruct (pages_read_spec p1 _ _ _ Hp1 Hr Hacc) as (p2 & -> & Hp2 & Eps2 & Esz2).
  rewrite Eps1 in Eps2. rewrite Esz1 in Esz2.
  assert (wrap 32 (k + 1) = k + 1) as ->.
  { unfold wrap. apply Z.mod_small.
    pose proof (placed_page_number p o k Hinv Hpl Hkc). lia. }
  destruct (IH p2 (count_ - to_read) (k + 1) 0
              (dst ++ take (Z.to_nat to_read)
                        (drop (Z.to_nat pos_in_page)
                           (page_of os p1 (page_index os p o k)))))
    as (p3 & -> & Hp3 & Eps3 & Esz3).
  { done. }
  { apply (placed_ext p); done. }
  { lia. }
  { lia. }
  { rewrite Eps2. lia. }
  { intros Hmore. rewrite Eps2. fold ps.
    assert (to_read = ps - pos_in_page) as Hfull.
    { subst to_read. case_bool_decide; lia. }
    lia. }
  exists p3. rewrite Eps3, Esz3, Eps2.
  split_and!; [|done|done|done]. f_equal. rewrite <- (assoc_L (++)). f_equal.
  rewrite (data_pages_ext p p2) by done. fold ps.
  assert (page_of os p1 (page_index os p o k) = page_of os p (page_index os p o k))
    as -> by (unfold page_of; by rewrite Eps1).
  rewrite (concat_chunk (data_pages os p o) (Z.to_nat ps) (Z.to_nat k)
             (page_of os p (page_index os p o k))
             (Z.to_nat pos_in_page) (Z.to_nat to_read));
    [|by apply data_pages_length|by apply data_pages_lookup|lia].
  replace (Z.to_nat (k * ps + pos_in_page))
    with (Z.to_nat k * Z.to_nat ps + Z.to_nat pos_in_page)%nat by nia.
  replace (Z.to_nat count_)
    with (Z.to_nat to_read + Z.to_nat (count_ - to_read))%nat by lia.
  rewrite <- take_take_drop_drop. f_equal.
  destruct (decide (count_ = to_read)) as [Heq|Hne].
  - replace (count_ - to_read) with 0 by lia. by rewrite !take_0.
  - assert (to_read = ps - pos_in_page) as Hfull.
    { subst to_read. case_bool_decide; lia. }
    f_equal. f_equal. rewrite Hfull.
    rewrite <- Z2Nat.inj_mul, <- !Z2Nat.inj_add by nia. f_equal. lia.
Qed.


(** [read] of an interval inside the object. *)
Lemma read_inside p o count_ pos_ :
  reachable os N p -> placed os p o -> inside o count_ pos_ ->
  exists p', read o p count_ pos_
             = (Ret (take (Z.to_nat count_) (drop (Z.to_nat pos_) (data os p o))), p')
    /\ reachable os N p'
    /\ pages.page_size p' = pages.page_size p /\ pages.size p' = pages.size p.
Proof.
  intros Hp Hpl (Hc & Ho & Hsum). pose proof (hdr_length_bound o) as Hlen.
  pose proof (pages_facts.reachable_inv os N p Hp) as Hinv.
  pose proof (pages_facts.valid_page_size_pos _ (inv_page_size _ _ _ Hinv)) as Hps.
  unfold read, read_into.
  rewrite (proj2 (interval_guard64 (hdr_length o) count_ pos_ Hlen Hc ltac:(lia)))
    by lia.
  unfold pages.udiv. rewrite bool_decide_false by lia.
  set (ps := pages.page_size p) in *.
  pose proof (Z.div_mod pos_ ps ltac:(lia)) as Hdm.
  pose proof (Z.mod_pos_bound pos_ ps ltac:(lia)) as Hm.
  assert (0 <= pos_ / ps) as Hk by (apply Z.div_pos; lia).
  assert (0 <= pos_ / ps < pages_count o p) as Hkc.
  { apply page_number_inside; [fold ps; lia | done | fold ps; nia]. }
  assert (wrap 32 (pos_ / ps) = pos_ / ps) as ->.
  { unfold wrap. apply Z.mod_small.
    pose proof (placed_page_number p o _ Hinv Hpl Hkc). lia. }
  destruct (read_loop_spec (Z.to_nat count_) p o count_ (pos_ / ps) (pos_ mod ps) []
              Hp Hpl) as (p' & -> & Hp' & Eps & Esz); [lia | done | done | fold ps; nia |].
  exists p'. split; [|done]. cbn [mbind outcome_bind]. f_equal. cbn [app]. fold ps.
  replace (pos_ / ps * ps + pos_ mod ps) with pos_ by lia.
  unfold data. rewrite take_drop_take by lia. done.
Qed.

(** X9.  On a readable file and with a cache of at least four pages,
    [read] of an object whose placement table stays inside the database
    returns, for every interval inside the [length] of the object, the
    bytes of its data at that interval: the pages that the placement
    table names, one after the other, cut at [length].  Under the same
    conditions an interval that is not inside the object is refused, the
    overflow of [pos_ + count_] included, and no page is touched. *)
Theorem object_read_data p o count_ pos_ :
  reachable os N p -> placed os p o ->
  (inside o count_ pos_ ->
     exists p', read o p count_ pos_
                = (Ret (take (Z.to_nat count_) (drop (Z.to_nat pos_) (data os p o))), p')
       /\ reachable os N p')
  /\ (0 <= count_ <= size_t_max -> 0 <= pos_ <= size_t_max ->
      ~ (pos_ < hdr_length o /\ pos_ + count_ <= hdr_length o) ->
      read o p count_ pos_
      = (throw "Requested interval to read exceeds object size.", p)).
Proof.
  intros Hp Hpl. pose proof (hdr_length_bound o) as Hlen. split.
  - intros Hin. destruct (read_inside p o count_ pos_ Hp Hpl Hin) as (p' & Hrd & Hp' & _).
    by exists p'.
  - intros Hc Ho Hout. unfold read, read_into.
    destruct (_ || _ || _) eqn:Hg; [done|].
    apply interval_guard64 in Hg; [done | done | done | done].
Qed.

End object.

Import examples samples pages_examples.
#[local] Existing Instance ample.

Lemma reachable_pages_small : reachable db_small 4 pages_small.
Proof. apply reachable_pages_on. vm_compute. reflexivity. Defined.

Lemma placed_object_small : placed db_small pages_small object_small.
Proof.
  assert (pages_count object_small pages_small = 1) as Hpc by (vm_compute; reflexivity).
  intros k Hk. rewrite Hpc in Hk. assert (k = 0) as -> by lia.
  vm_compute. split_and!; congruence.
Defined.


Lemma object_read_data_witness :
  exists p', read object_small pages_small 5 2
             = (Ret (take (Z.to_nat 5) (drop (Z.to_nat 2)
                                          (data db_small pages_small object_small))), p')
    /\ reachable db_small 4 p'.
Proof.
  apply (object_read_data db_small 4 ltac:(lia) (readable_plain _)
           pages_small object_small 5 2 reachable_pages_small placed_object_small).
  vm_compute. split_and!; congruence.
Defined.

End object_facts.

(** ** db_1c_8x::records *)

Module records_facts.

Import field records records_props.

Lemma wrap_small bits z : 0 <= z < 2 ^ bits -> wrap bits z = z.
Proof. intros Hz. unfold wrap. by apply Z.mod_small. Qed.

Lemma slot_width_nonneg type length_ :
  0 <= length_ -> 0 <= slot_width half_floor type length_.
Proof.
  intros Hl. destruct type; simpl; unfold half_floor; try lia.
  apply Z.div_pos; lia.
Qed.

Lemma column_width_nonneg prm :
  0 <= fparams.length prm -> 0 <= column_width half_floor prm.
Proof.
  intros Hl. unfold column_width.
  pose proof (slot_width_nonneg (fparams.type prm) _ Hl).
  destruct (fparams.null_exists prm); lia.
Qed.

Lemma columns_width_nonneg params_ :
  Forall (fun prm => fparams.type prm <> ftype.unknown
                     /\ 0 <= fparams.length prm <= size_t_max - 2) params_ ->
  0 <= columns_width half_floor params_.
Proof.
  induction 1 as [|prm rest [_ Hl] _ IH]; simpl; [lia|].
  pose proof (column_width_nonneg prm). lia.
Qed.

(** The size of a field in [std::size_t] arithmetic is its width in the
    integers when that fits. *)
Lemma field_size_width prm :
  fparams.type prm <> ftype.unknown ->
  0 <= fparams.length prm <= size_t_max - 2 ->
  column_width half_floor prm <= size_t_max ->
  field_size prm = Ret (column_width half_floor prm).
Proof.
  unfold field_size, column_width, field.size, size_t_max.
  unfold binary.size, boolean.size, digit.size, str_fix.size, str_var.size,
    version.size, str_blob.size, bin_blob.size, datetime.size, sizeof_wchar_t.
  intros Hty Hl Hfit.
  assert (0 <= (fparams.length prm + 2) / 2) by (apply Z.div_pos; lia).
  destruct (fparams.type prm); simpl in *; unfold half_floor in *; try done;
    destruct (fparams.null_exists prm); f_equal;
    rewrite ?(wrap_small 64 (fparams.length prm + 2)) by lia;
    rewrite ?(wrap_small 64 (fparams.length prm * 2)) by lia;
    rewrite ?(wrap_small 64 (fparams.length prm * 2 + 2)) by lia;
    apply wrap_small; lia.
Qed.

Lemma prepare_loop_stride params_ index shift fields indexes :
  Forall (fun prm => fparams.type prm <> ftype.unknown
                     /\ 0 <= fparams.length prm <= size_t_max - 2) params_ ->
  0 <= shift -> shift + columns_width half_floor params_ <= size_t_max ->
  exists fields' indexes',
    prepare_loop params_ index shift fields indexes
    = Ret (fields', indexes', shift + columns_width half_floor params_)
    /\ length fields' = (length fields + length params_)%nat.
Proof.
  intros Hall. revert index shift fields indexes.
  induction Hall as [|prm rest [Hty Hl] Hrest IH]; intros index shift fields indexes Hs Hfit.
  - simpl. eexists _, _. split; [by rewrite Z.add_0_r | lia].
  - simpl in Hfit |- *.
    pose proof (column_width_nonneg prm (proj1 Hl)) as Hw.
    pose proof (columns_width_nonneg rest Hrest) as Hws.
    rewrite field_size_width by (done || lia). cbn [mbind outcome_bind].
    rewrite (wrap_small 64 (shift + _)) by (unfold size_t_max in *; lia).
    destruct (IH (wrap 32 (index + 1)) (shift + column_width half_floor prm)
                (fields ++ [ {| helper.params := prm; helper.shift := shift;
                                helper.size := column_width half_floor prm |} ])
                (<[fparams.name prm := index]> indexes))
      as (f' & i' & -> & Hlen); [lia | lia |].
    eexists _, _. split; [by rewrite Z.add_assoc|].
    rewrite Hlen, length_app. simpl. lia.
Qed.

(** C4 (amended).  For every schema that [std::size_t] arithmetic can
    represent, the record size that [prepare_fields] computes is one byte
    for the tombstone plus, for each column in order, one byte when the
    column is nullable plus the slot width of its type, which for a digit
    column is [(length + 2) / 2] rounded down; or [1 + 4] when that is
    less. *)
Theorem prepare_fields_stride params_ :
  representable params_ ->
  exists fields indexes,
    prepare_fields params_ = Ret (fields, indexes, stride half_floor params_)
    /\ length fields = length params_.
Proof.
  intros (Hcount & Hall & Hfit). unfold prepare_fields, stride.
  rewrite bool_decide_false by lia.
  pose proof (columns_width_nonneg _ Hall) as Hnn.
  destruct (prepare_loop_stride params_ 0 1 [] ∅ Hall) as (f & i & -> & Hlen); [lia | lia|].
  cbn [mbind outcome_bind]. eexists _, _. split; [|exact Hlen].
  do 2 f_equal. unfold min_rec_size, sizeof_index_type. case_bool_decide; lia.
Qed.

Lemma representable_users : representable examples.schema_users.
Proof.
  split_and!; [vm_compute; congruence | | vm_compute; congruence].
  repeat apply Forall_cons_2; [| | apply Forall_nil_2];
    (split; [done | vm_compute; split; congruence]).
Defined.

Lemma prepare_fields_stride_witness :
  exists fields indexes,
    prepare_fields examples.schema_users = Ret (fields, indexes, 133)
    /\ length fields = 2%nat.
Proof. exact (prepare_fields_stride examples.schema_users representable_users). Defined.

(** C4, as stated, at one digit column of nine digits: the code gives it
    [(9 + 2) / 2 = 5] bytes, the ceiling is [6]. *)
Lemma digit_slot_rounds_down :
  representable examples.schema_digit9
  /\ snd <$> prepare_fields examples.schema_digit9 = Ret 6
  /\ stride half_ceil examples.schema_digit9 = 7.
Proof.
  split_and!; [|reflexivity|reflexivity].
  split_and!; [vm_compute; congruence | | vm_compute; congruence].
  apply Forall_cons_2; [|apply Forall_nil_2].
  split; [done | vm_compute; split; congruence].
Qed.

(** *** The cursor *)

(** C8 (amended).  On a cursor that no [seek] has positioned, [is_deleted]
    and [get_field], whatever the type and the index asked for, throw the
    library's exception: the use before a seek is reported through the
    channel of the user-visible errors. *)
Theorem unseeked_access_throws {T : Type} (r : records T) :
  last_index r = None ->
  is_deleted r = throw "Attempting to access a table entry before reading it."
  /\ forall Tvalue_type index_,
       get_field Tvalue_type r index_
       = throw "Attempting to access a table entry before reading it.".
Proof.
  intros Hlast. unfold is_deleted, get_field, seek_success. rewrite Hlast.
  rewrite bool_decide_false by (intros Hne; by apply Hne). done.
Qed.

Lemma unseeked_access_throws_witness :
  is_deleted examples.cursor_small_fresh
  = throw "Attempting to access a table entry before reading it."
  /\ get_field ftype.boolean examples.cursor_small_fresh 0
     = throw "Attempting to access a table entry before reading it.".
Proof.
  destruct (unseeked_access_throws examples.cursor_small_fresh) as [Hdel Hget];
    [vm_compute; reflexivity|].
  split; [exact Hdel | apply Hget].
Defined.

(** C8, as stated, on the cursor that the constructor leaves on a table of
    two records: both calls raise the exception. *)
Lemma unseeked_access_is_reported :
  is_Some examples.cursor_small
  /\ last_index examples.cursor_small_fresh = None
  /\ raises (is_deleted examples.cursor_small_fresh)
  /\ raises (get_field ftype.boolean examples.cursor_small_fresh 0).
Proof.
  split_and!.
  - apply (@bool_decide_unpack _ _). vm_compute. exact I.
  - vm_compute. reflexivity.
  - eexists. vm_compute. reflexivity.
  - eexists. vm_compute. reflexivity.
Qed.

End records_facts.

(** ** db_1c_8x::records: the layout of a record and the cursor *)

Module records_layout.

Import field records records_props cursor_props records_facts.

(** *** The helpers that [prepare_fields] builds *)

Lemma columns_width_cons prm params_ :
  columns_width half_floor (prm :: params_)
  = column_width half_floor prm + columns_width half_floor params_.
Proof. reflexivity. Qed.

Lemma columns_width_app params1 params2 :
  columns_width half_floor (params1 ++ params2)
  = columns_width half_floor params1 + columns_width half_floor params2.
Proof.
  induction params1 as [|prm rest IH]; simpl; [lia|]. rewrite IH. lia.
Qed.

Lemma columns_width_take params_ k prm :
  params_ !! k = Some prm ->
  columns_width half_floor (take (S k) params_)
  = columns_width half_floor (take k params_) + column_width half_floor prm.
Proof.
  intros Hk. rewrite (take_S_r _ _ _ Hk), columns_width_app. simpl. lia.
Qed.

Lemma prepare_loop_layout params_ index shift fields indexes :
  Forall (fun prm => fparams.type prm <> ftype.unknown
                     /\ 0 <= fparams.length prm <= size_t_max - 2) params_ ->
  0 <= shift -> shift + columns_width half_floor params_ <= size_t_max ->
  exists added indexes',
    prepare_loop params_ index shift fields indexes
    = Ret (fields ++ added, indexes', shift + columns_width half_floor params_)
    /\ helper.params <$> added = params_
    /\ forall k hlp, added !! k = Some hlp ->
         helper.shift hlp = shift + columns_width half_floor (take k params_)
         /\ helper.size hlp = column_width half_floor (helper.params hlp).
Proof.
  intros Hall. revert index shift fields indexes.
  induction Hall as [|prm rest [Hty Hl] Hrest IH]; intros index shift fields indexes Hs Hfit.
  - exists [], indexes. simpl. rewrite app_nil_r, Z.add_0_r. done.
  - simpl in Hfit |- *.
    pose proof (column_width_nonneg prm (proj1 Hl)) as Hw.
    pose proof (columns_width_nonneg rest Hrest) as Hws.
    rewrite field_size_width by (done || lia). cbn [mbind outcome_bind].
    rewrite (wrap_small 64 (shift + _)) by (unfold size_t_max in *; lia).
    set (hlp0 := {| helper.params := prm; helper.shift := shift;
                    helper.size := column_width half_floor prm |}).
    destruct (IH (wrap 32 (index + 1)) (shift + column_width half_floor prm)
                (fields ++ [hlp0]) (<[fparams.name prm := index]> indexes))
      as (added & i' & -> & Hparams & Hlayout); [lia | lia |].
    exists (hlp0 :: added), i'. split; [|split].
    + rewrite <- (assoc_L (++)). cbn [app]. by rewrite Z.add_assoc.
    + cbn. by rewrite Hparams.
    + intros [|k] hlp Hk; cbn in Hk.
      * injection Hk as <-. cbn. split; [lia | done].
      * destruct (Hlayout k hlp Hk) as [Hsh Hsz]. split; [|done].
        rewrite Hsh. cbn [take]. rewrite columns_width_cons. lia.
Qed.

(** X14.  For a schema that [std::size_t] arithmetic can represent,
    [prepare_fields] builds one helper for each column, in the order of
    the columns; the slot of the first column starts after the
    tombstone byte, the slot of every other column starts where the
    slot before it ends, and every slot ends inside the record. *)
Theorem prepare_fields_layout params_ :
  representable params_ ->
  exists fields indexes,
    prepare_fields params_ = Ret (fields, indexes, stride half_floor params_)
    /\ helper.params <$> fields = params_
    /\ forall k hlp, fields !! k = Some hlp ->
         helper.shift hlp = 1 + columns_width half_floor (take k params_)
         /\ helper.size hlp = column_width half_floor (helper.params hlp)
         /\ 0 <= helper.size hlp
         /\ 1 <= helper.shift hlp
         /\ helper.shift hlp + helper.size hlp
            = 1 + columns_width half_floor (take (S k) params_)
         /\ helper.shift hlp + helper.size hlp <= stride half_floor params_.
Proof.
  intros (Hcount & Hall & Hfit). unfold prepare_fields, stride.
  rewrite bool_decide_false by lia.
  pose proof (columns_width_nonneg _ Hall) as Hnn.
  destruct (prepare_loop_layout params_ 0 1 [] ∅ Hall)
    as (added & i & -> & Hparams & Hlayout); [lia | lia|].
  cbn [mbind outcome_bind app]. exists added, i. split; [|split; [done|]].
  { do 2 f_equal. unfold min_rec_size, sizeof_index_type. case_bool_decide; lia. }
  intros k hlp Hk. destruct (Hlayout k hlp Hk) as [Hshift Hsize].
  assert (params_ !! k = Some (helper.params hlp)) as Hprm.
  { rewrite <- Hparams, list_lookup_fmap, Hk. done. }
  assert (0 <= columns_width half_floor (take k params_)) as Hpre.
  { apply columns_width_nonneg. by apply Forall_take. }
  assert (0 <= column_width half_floor (helper.params hlp)) as Hcol.
  { apply column_width_nonneg.
    rewrite Forall_forall in Hall.
    destruct (Hall _ (list_elem_of_lookup_2 _ _ _ Hprm)) as [_ ?]. lia. }
  assert (columns_width half_floor (take (S k) params_)
          <= columns_width half_floor params_) as Hle.
  { rewrite <- (take_drop (S k) params_) at 2. rewrite columns_width_app.
    assert (0 <= columns_width half_floor (drop (S k) params_)).
    { apply columns_width_nonneg. by apply Forall_drop. }
    lia. }
  rewrite (columns_width_take _ _ _ Hprm) in *.
  split_and!; lia.
Qed.

Lemma prepare_fields_layout_witness :
  exists fields indexes,
    prepare_fields examples.schema_users = Ret (fields, indexes, 133)
    /\ helper.params <$> fields = examples.schema_users
    /\ forall k hlp, fields !! k = Some hlp ->
         helper.shift hlp = 1 + columns_width half_floor (take k examples.schema_users)
         /\ helper.size hlp = column_width half_floor (helper.params hlp)
         /\ 0 <= helper.size hlp
         /\ 1 <= helper.shift hlp
         /\ helper.shift hlp + helper.size hlp
            = 1 + columns_width half_floor (take (S k) examples.schema_users)
         /\ helper.shift hlp + helper.size hlp <= 133.
Proof. exact (prepare_fields_layout examples.schema_users representable_users). Defined.

(** *** The name index *)

Lemma prepare_loop_params params_ index shift fields indexes fields' indexes' shift' :
  prepare_loop params_ index shift fields indexes = Ret (fields', indexes', shift') ->
  exists added, fields' = fields ++ added /\ helper.params <$> added = params_.
Proof.
  revert index shift fields indexes.
  induction params_ as [|prm rest IH]; intros index shift fields indexes.
  - intros [= <- _ _]. exists []. by rewrite app_nil_r.
  - cbn [prepare_loop]. destruct (field_size prm) as [size| |]; [|done..].
    cbn [mbind outcome_bind]. intros Hloop.
    destruct (IH _ _ _ _ Hloop) as (added & -> & Hparams).
    eexists (_ :: added). rewrite <- (assoc_L (++)). split; [done|].
    cbn. by rewrite Hparams.
Qed.

Lemma prepare_loop_indexes params_ index shift fields indexes fields' indexes' shift' :
  prepare_loop params_ index shift fields indexes = Ret (fields', indexes', shift') ->
  0 <= index -> index + Z.of_nat (length params_) < 2 ^ 32 ->
  (forall name, name ∉ fparams.name <$> params_ -> indexes' !! name = indexes !! name)
  /\ (forall k prm, params_ !! k = Some prm -> last_named params_ k (fparams.name prm) ->
        indexes' !! fparams.name prm = Some (index + Z.of_nat k)).
Proof.
  revert index shift fields indexes.
  induction params_ as [|prm rest IH]; intros index shift fields indexes.
  - intros [= _ <- _] _ _. split; [done|]. intros k prm Hk. done.
  - cbn [prepare_loop]. destruct (field_size prm) as [size| |]; [|done..].
    cbn [mbind outcome_bind]. cbn [length]. intros Hloop Hi Hlen.
    rewrite (wrap_small 32 (index + 1)) in Hloop by lia.
    destruct (IH _ _ _ _ Hloop) as [Hother Hlast]; [lia | lia |]. split.
    + intros name Hname. rewrite fmap_cons in Hname.
      apply not_elem_of_cons in Hname as [Hne Hname].
      rewrite (Hother name Hname). by rewrite lookup_insert_ne.
    + intros [|k] prm' Hk Hl; cbn in Hk.
      * injection Hk as <-. rewrite Hother.
        { rewrite lookup_insert_eq. f_equal. lia. }
        intros Hin. apply list_elem_of_fmap in Hin as (prm' & Hname & Hin).
        apply list_elem_of_lookup in Hin as [j Hj].
        apply (Hl (S j) prm'); [lia | done | done].
      * rewrite (Hlast k prm' Hk); [f_equal; lia|].
        intros j prm'' Hj Hjj. apply (Hl (S j) prm''); [lia | done].
Qed.

(** X15.  On a cursor over the columns [params_], [field_index] gives
    for the name of a column the position of that column, the last one
    when several columns have the name, and the helper at that position
    is the one of the column; for a name that no column has it throws. *)
Theorem field_index_finds_column {T : Type} (params_ : list fparams.t) (r : records T) :
  cursor_of params_ r ->
  (forall k prm, params_ !! k = Some prm -> last_named params_ k (fparams.name prm) ->
     field_index r (fparams.name prm) = Ret (Z.of_nat k)
     /\ helper.params <$> fields r !! k = Some prm)
  /\ (forall name, name ∉ fparams.name <$> params_ ->
      field_index r name = throw "Table field by name not found.").
Proof.
  unfold cursor_of, prepare_fields. case_bool_decide as Hcount; [done|].
  destruct (prepare_loop params_ 0 1 [] ∅) as [[[f i] sh]| |] eqn:Hloop; [|done..].
  intros Heq. simpl in Heq. injection Heq as Hf Hi _.
  destruct (prepare_loop_indexes _ _ _ _ _ _ _ _ Hloop) as [Hother Hlast];
    [lia | unfold uint32_max in *; lia |].
  destruct (prepare_loop_params _ _ _ _ _ _ _ _ Hloop) as (added & -> & Hparams).
  cbn [app] in *. split.
  - intros k prm Hk Hl. unfold field_index. rewrite <- Hi, (Hlast k prm Hk Hl).
    split; [f_equal; lia|]. by rewrite <- Hf, <- list_lookup_fmap, Hparams.
  - intros name Hname. unfold field_index. rewrite <- Hi, (Hother name Hname).
    by rewrite lookup_empty.
Qed.

(** *** Reading a field *)

Lemma field_size_slot type length_ :
  type <> ftype.unknown -> 0 <= length_ <= size_t_max - 2 ->
  slot_width half_floor type length_ <= size_t_max ->
  field.size type length_ = Some (slot_width half_floor type length_).
Proof.
  unfold field.size, size_t_max.
  unfold binary.size, boolean.size, digit.size, str_fix.size, str_var.size,
    version.size, str_blob.size, bin_blob.size, datetime.size, sizeof_wchar_t.
  intros Hty Hl Hfit.
  assert (0 <= (length_ + 2) / 2) by (apply Z.div_pos; lia).
  destruct type; simpl in *; unfold half_floor in *; try done; f_equal;
    rewrite ?(wrap_small 64 (length_ + 2)) by lia;
    rewrite ?(wrap_small 64 (length_ * 2)) by lia;
    rewrite ?(wrap_small 64 (length_ * 2 + 2)) by lia; done.
Qed.

(** A constructor that finds its bytes in the buffer returns the field
    of its column, but for a string whose stored length is more than the
    column allows. *)
Lemma construct_outcome type prm buff size_ sz :
  field.size type (fparams.length prm) = Some sz ->
  sz <= Z.of_nat (length buff) ->
  (exists v, construct type prm buff size_ = Ret {| params := prm; exists_ := Some v |})
  \/ type = ftype.str_var
     /\ construct type prm buff size_
        = throw "String length stored in table record more of field size.".
Proof.
  intros Hsz Hlen. unfold construct. rewrite Hsz.
  rewrite bool_decide_false by lia. cbn zeta.
  destruct type; try discriminate Hsz; try (left; by eexists).
  case_bool_decide; [by right | left; by eexists].
Qed.

(** X18.  On a positioned cursor over a schema that [std::size_t]
    arithmetic can represent, [get_field] reads inside the record
    buffer: for a column of the schema it returns a field of that column
    or throws (for a type other than that of the column, or for a string
    whose stored length exceeds the column), and a nullable column whose
    flag byte is zero gives the field without a value; for an index that
    is not a column [fields.at] throws [std::out_of_range]. *)
Theorem get_field_inside_record {T : Type} (params_ : list fparams.t) (r : records T)
    (index_ : Z) :
  representable params_ -> cursor_of params_ r -> seek_success r = true ->
  0 <= index_ ->
  (forall prm, params_ !! Z.to_nat index_ = Some prm ->
     (forall Tvalue_type, Tvalue_type <> fparams.type prm ->
        get_field Tvalue_type r index_
        = throw "Attempting reads table field with wrong type.")
     /\ (fparams.null_exists prm = true ->
         forall flag,
           record r !! Z.to_nat (1 + columns_width half_floor
                                       (take (Z.to_nat index_) params_)) = Some flag ->
           byte_to_Z flag = 0 ->
           get_field (fparams.type prm) r index_ = Ret (field.null prm))
     /\ ((exists v, get_field (fparams.type prm) r index_
                    = Ret {| params := prm; exists_ := v |})
         \/ fparams.type prm = ftype.str_var
            /\ get_field (fparams.type prm) r index_
               = throw "String length stored in table record more of field size."))
  /\ ((length params_ <= Z.to_nat index_)%nat ->
      forall Tvalue_type, get_field Tvalue_type r index_ = Throw std_out_of_range).
Proof.
  intros Hrep Hcur Hseek Hidx.
  destruct (prepare_fields_layout params_ Hrep) as (f & i & Hprep & Hparams & Hlayout).
  unfold cursor_of in Hcur. rewrite Hprep in Hcur. injection Hcur as Hf Hi Hlen.
  split.
  - intros prm Hprm.
    assert (exists hlp, f !! Z.to_nat index_ = Some hlp /\ helper.params hlp = prm)
      as (hlp & Hhlp & Hp).
    { rewrite <- Hparams, list_lookup_fmap in Hprm.
      destruct (f !! Z.to_nat index_) as [hlp|]; [|done].
      injection Hprm as <-. by exists hlp. }
    destruct (Hlayout _ _ Hhlp) as (Hshift & Hsize & Hnn & Hone & Hend & Hfit).
    rewrite Hp in Hsize. unfold get_field. rewrite Hseek. cbn [negb].
    rewrite <- Hf, Hhlp, Hp.
    destruct Hrep as (_ & Hall & Hwidth).
    rewrite Forall_forall in Hall.
    destruct (Hall prm (list_elem_of_lookup_2 _ _ _ Hprm)) as [Hty Hl].
    assert (column_width half_floor prm <= size_t_max) as Hcw
      by (unfold stride, size_t_max in *; lia).
    assert (0 <= slot_width half_floor (fparams.type prm) (fparams.length prm)) as Hsw.
    { apply slot_width_nonneg. lia. }
    assert (field.size (fparams.type prm) (fparams.length prm)
            = Some (slot_width half_floor (fparams.type prm) (fparams.length prm)))
      as Hfs.
    { apply field_size_slot; [done | done |].
      unfold column_width in Hcw. destruct (fparams.null_exists prm); lia. }
    set (buff := drop (Z.to_nat (helper.shift hlp)) (record r)).
    assert (Z.of_nat (length buff) = stride half_floor params_ - helper.shift hlp)
      as Hbuff.
    { subst buff. rewrite length_drop. lia. }
    split; [|split].
    + intros Tv Hne. rewrite bool_decide_false by done. done.
    + intros Hnull flag Hflag Hzero. rewrite bool_decide_true by done. cbn [negb].
      rewrite Hnull. subst buff. rewrite <- Hshift in Hflag.
      rewrite (drop_S _ _ _ Hflag). by rewrite bool_decide_true.
    + rewrite bool_decide_true by done. cbn [negb].
      unfold column_width in Hsize.
      destruct (fparams.null_exists prm) eqn:Hnull.
      * destruct buff as [|has_value rest] eqn:Hb; [simpl in Hbuff; lia|].
        case_bool_decide; [left; by eexists|].
        destruct (construct_outcome (fparams.type prm) prm rest
                    (wrap 64 (helper.size hlp - 1)) _ Hfs) as [[v Hv]|[Hs Hthrow]].
        { cbn [length] in Hbuff. lia. }
        { left. by eexists. }
        { by right. }
      * destruct (construct_outcome (fparams.type prm) prm buff
                    (helper.size hlp) _ Hfs) as [[v Hv]|[Hs Hthrow]].
        { lia. }
        { left. by eexists. }
        { by right. }
  - intros Hout Tv. unfold get_field. rewrite Hseek. cbn [negb].
    rewrite <- Hf. rewrite lookup_ge_None_2; [done|].
    rewrite <- (length_fmap helper.params), Hparams. done.
Qed.

Lemma length_wchars n buff : length (wchars n buff) = n.
Proof. revert buff. induction n as [|n IH]; intros buff; simpl; [done|]. by rewrite IH. Qed.

(** X19.  A [str_var] field that its constructor returns holds as many
    characters as the two bytes at the start of its slot say, and no
    more than the column allows; when they say more, and the slot is in
    the buffer, the constructor throws. *)
Theorem str_var_within_length prm buff size_ :
  (forall f, construct ftype.str_var prm buff size_ = Ret f ->
     exists w, f = {| params := prm; exists_ := Some (str_var_value w) |}
       /\ Z.of_nat (length w) = mem_get buff 0 2
       /\ Z.of_nat (length w) <= fparams.length prm)
  /\ (str_var.size (fparams.length prm) <= Z.of_nat (length buff) ->
      mem_get buff 0 2 > fparams.length prm ->
      construct ftype.str_var prm buff size_
      = throw "String length stored in table record more of field size.").
Proof.
  unfold construct. cbn [field.size]. split.
  - intros f. case_bool_decide; [done|]. cbn zeta.
    case_bool_decide as Hlen; [done|]. intros [= <-].
    eexists. split; [done|]. rewrite length_wchars.
    pose proof (object_facts.mem_get_bound buff 0 2). lia.
  - intros Hfit Hmore. rewrite bool_decide_false by lia. cbn zeta.
    by rewrite bool_decide_true.
Qed.

(** *** The constructor and [seek] *)

Lemma prepare_fields_min params_ fields indexes rec_size :
  prepare_fields params_ = Ret (fields, indexes, rec_size) -> min_rec_size <= rec_size.
Proof.
  unfold prepare_fields. case_bool_decide; [done|].
  destruct (prepare_loop params_ 0 1 [] ∅) as [[[f i] sh]| |]; [|done..].
  cbn [mbind outcome_bind]. intros [= _ _ <-]. case_bool_decide; lia.
Qed.

Section cursor.
Context {T : Type} `{object_type T}.
Implicit Types (r : records T) (p : pages.pages).

(** X16.  A cursor that the constructor returns is a cursor over the
    columns it was given, not yet positioned; its record buffer has
    the size of a record, at least [1 + 4] bytes; the object holds a
    whole number of records, fewer than [2^32] of them, which is what
    [size] reports; and every record that [seek] accepts lies inside
    the object. *)
Theorem records_new_counts p index_ params_ r p' :
  new p index_ params_ = (Ret r, p') -> 0 <= object_size (obj_iface r) ->
  cursor_of params_ r /\ last_index r = None
  /\ min_rec_size <= Z.of_nat (length (record r))
  /\ object_size (obj_iface r) = size r * Z.of_nat (length (record r))
  /\ 0 <= size r <= uint32_max
  /\ forall i, 0 <= i < size r ->
       Z.of_nat (length (record r)) * i + Z.of_nat (length (record r))
       <= object_size (obj_iface r).
Proof.
  unfold new, pbind. destruct (object_new p index_) as [[o| |] p1]; [|done..].
  destruct (prepare_fields params_) as [[[f i] rec_size]| |] eqn:Hprep; [|done..].
  destruct (_ || _) eqn:Hbad; [done|]. intros [= <- _].
  cbn [obj_iface record fields indexes last_index size records_count].
  intros Hsize. pose proof (prepare_fields_min _ _ _ _ Hprep) as Hmin.
  unfold min_rec_size, sizeof_index_type in Hmin.
  apply orb_false_iff in Hbad as [Hmod Hmax].
  apply negb_false_iff, bool_decide_eq_true in Hmod.
  apply bool_decide_eq_false in Hmax.
  rewrite length_replicate, Z2Nat.id by lia.
  pose proof (Z.div_mod (object_size o) rec_size ltac:(lia)) as Hdm.
  assert (0 <= object_size o / rec_size) as Hq by (apply Z.div_pos; lia).
  unfold cursor_of. cbn [fields indexes record].
  rewrite length_replicate, Z2Nat.id by lia.
  split_and!; try done; try lia.
  intros j Hj. rewrite Hmod in Hdm. nia.
Qed.

(** X17.  A [seek] that returns leaves the cursor on the record asked
    for, with its columns as they were, and a further [seek] of that
    record does nothing: it does not ask the object.  A [seek] that
    throws for a record number past the end changes nothing; one that
    throws while it reads leaves the cursor on no record, so that
    [is_deleted] then reports the use before a read. *)
Theorem seek_positions_cursor r p index_ res r' p' :
  seek r p index_ = (res, r', p') ->
  fields r' = fields r /\ indexes r' = indexes r /\ size r' = size r
  /\ (res = Ret () ->
      last_index r' = Some index_ /\ index_ < size r
      /\ forall p'', seek r' p'' index_ = (Ret (), r', p''))
  /\ (forall e, res = Throw e ->
      index_ >= size r /\ r' = r /\ p' = p
      \/ index_ < size r /\ last_index r' = None
         /\ is_deleted r'
            = throw "Attempting to access a table entry before reading it.").
Proof.
  unfold seek. case_bool_decide as Hidx.
  { intros [= <- <- <-]. split_and!; try done. intros e _. by left. }
  case_bool_decide as Hsame.
  { intros [= <- <- <-]. split_and!; try done. intros _.
    split_and!; [done | lia |]. intros p''.
    rewrite bool_decide_false by done. by rewrite bool_decide_true. }
  destruct (object_read _ _ _ _) as [[d| |] p1] eqn:Hread; intros [= <- <- <-];
    cbn [fields indexes size records_count with_record last_index].
  - split_and!; try done. intros _. split_and!; [done | lia |]. intros p''.
    unfold seek. cbn [size records_count with_record last_index].
    rewrite bool_decide_false by done. by rewrite bool_decide_true.
  - split_and!; try done. intros e0 _. right. split_and!; [lia | done | done].
  - split_and!; done.
Qed.
End cursor.

Import examples samples.
#[local] Existing Instance ample.

Lemma cursor_of_cursor_at_0 : cursor_of schema_small (cursor_at 0).
Proof. vm_compute. reflexivity. Defined.

Lemma representable_small : representable schema_small.
Proof.
  split_and!; [vm_compute; congruence | | vm_compute; congruence].
  repeat apply Forall_cons_2; [| | apply Forall_nil_2];
    (split; [done | vm_compute; split; congruence]).
Defined.

Lemma last_named_NAME : last_named schema_small 1 (L "NAME").
Proof. intros [|[|j]] prm Hj Hprm; [lia | lia | done]. Defined.

Lemma field_index_finds_column_witness :
  field_index (cursor_at 0) (L "NAME") = Ret (Z.of_nat 1)
  /\ helper.params <$> fields (cursor_at 0) !! 1%nat
     = Some (column "NAME" ftype.str_var true 2).
Proof.
  apply (proj1 (field_index_finds_column schema_small (cursor_at 0) cursor_of_cursor_at_0)
           1%nat (column "NAME" ftype.str_var true 2) eq_refl last_named_NAME).
Defined.

Lemma records_new_counts_witness :
  cursor_of schema_small cursor_small_fresh /\ last_index cursor_small_fresh = None
  /\ min_rec_size <= Z.of_nat (length (record cursor_small_fresh))
  /\ object_size (obj_iface cursor_small_fresh)
     = size cursor_small_fresh * Z.of_nat (length (record cursor_small_fresh))
  /\ 0 <= size cursor_small_fresh <= uint32_max
  /\ forall i, 0 <= i < size cursor_small_fresh ->
       Z.of_nat (length (record cursor_small_fresh)) * i
       + Z.of_nat (length (record cursor_small_fresh))
       <= object_size (obj_iface cursor_small_fresh).
Proof.
  apply (records_new_counts (pages_on (db_object table_small)) 1 schema_small
           cursor_small_fresh
           (new (T:=db_1c_83.object) (pages_on (db_object table_small)) 1 schema_small).2).
  - rewrite (surjective_pairing (new _ _ _)) at 1. f_equal; vm_compute; reflexivity.
  - vm_compute. congruence.
Defined.

Lemma seek_positions_cursor_witness :
  last_index (cursor_at 0) = Some 0 /\ 0 < size cursor_small_fresh
  /\ forall p'', seek (cursor_at 0) p'' 0 = (Ret (), cursor_at 0, p'').
Proof.
  apply (seek_positions_cursor cursor_small_fresh cursor_pages 0 (Ret ()) (cursor_at 0)
           (seek cursor_small_fresh cursor_pages 0).2).
  - rewrite (surjective_pairing (seek cursor_small_fresh cursor_pages 0)) at 1.
    rewrite (surjective_pairing (seek cursor_small_fresh cursor_pages 0).1) at 1.
    assert ((seek cursor_small_fresh cursor_pages 0).1.1 = Ret ()) as ->
      by (vm_compute; reflexivity).
    reflexivity.
  - reflexivity.
Defined.

Lemma get_field_inside_record_witness :
  (exists v, get_field ftype.str_var (cursor_at 0) 1
             = Ret {| params := column "NAME" ftype.str_var true 2; exists_ := v |})
  \/ ftype.str_var = ftype.str_var
     /\ get_field ftype.str_var (cursor_at 0) 1
        = throw "String length stored in table record more of field size.".
Proof.
  apply (proj1 (get_field_inside_record schema_small (cursor_at 0) 1 representable_small
                  cursor_of_cursor_at_0 eq_refl ltac:(lia))
           (column "NAME" ftype.str_var true 2) eq_refl).
Defined.

Lemma str_var_within_length_witness :
  exists w,
    {| params := column "NAME" ftype.str_var true 2;
       exists_ := Some (str_var_value (L "hi")) |}
    = {| params := column "NAME" ftype.str_var true 2;
         exists_ := Some (str_var_value w) |}
    /\ Z.of_nat (length w)
       = mem_get (le_bytes 2 2 ++ le_bytes 2 104 ++ le_bytes 2 105) 0 2
    /\ Z.of_nat (length w) <= fparams.length (column "NAME" ftype.str_var true 2).
Proof.
  apply (proj1 (str_var_within_length (column "NAME" ftype.str_var true 2)
                  (le_bytes 2 2 ++ le_bytes 2 104 ++ le_bytes 2 105) 6)).
  vm_compute. reflexivity.
Defined.

End records_layout.
(** ** db_1c_8x::blob *)

Module blob_facts.

Import blob blob_props.

Lemma storage_outcome `{!platform} bytes :
  storage bytes = Ret ()
  \/ storage bytes = Throw std_length_error \/ storage bytes = Throw std_bad_alloc.
Proof. unfold storage. destruct (allocate bytes) as [[]|]; auto. Qed.

Lemma reserve_outcome `{!platform} size_ :
  reserve size_ = Ret ()
  \/ reserve size_ = Throw std_length_error \/ reserve size_ = Throw std_bad_alloc.
Proof. unfold reserve. case_bool_decide; [by left | apply storage_outcome]. Qed.

Lemma grow_outcome `{!platform} size_ res count :
  grow size_ res count = Ret ()
  \/ grow size_ res count = Throw std_length_error
  \/ grow size_ res count = Throw std_bad_alloc.
Proof. unfold grow. destruct (_ || _); [by left | apply storage_outcome]. Qed.

Lemma nextblock_nonneg buffer : 0 <= nextblock buffer.
Proof. unfold nextblock, mem_get. apply pages_facts.le_uint_nonneg. Qed.

(** The check of the length of a block. *)
Lemma valid_block_check buffer :
  (bool_decide (length buffer > sizeof_data)
   || (bool_decide (length buffer = 0) && negb (bool_decide (nextblock buffer = 0))))
  = false <-> valid_block buffer.
Proof.
  unfold valid_block. rewrite orb_false_iff, andb_false_iff, negb_false_iff.
  rewrite !bool_decide_eq_false, bool_decide_eq_true. split.
  - intros [Hle [Hz|Hn]]; (split; [lia|]); [done | done].
  - intros [Hle Hz]. split; [lia|].
    destruct (decide (length buffer = 0)); [right; auto | by left].
Qed.

Section get.
Context {T : Type} `{object_type T} `{!platform}.
Implicit Types (b : blob T) (p : pages.pages) (res : buffer_type).

(** A pass that goes on to the condition of the loop. *)
Lemma get_body_continue b p blk_count size_ index_ res p' buffer index' res' :
  get_body b p blk_count size_ index_ res = Continue p' buffer index' res' ->
  index_ < blk_count /\ index' = nextblock buffer /\ nextblock buffer <> 0
  /\ res' = res ++ payload buffer
  /\ taken size_ res buffer.
Proof.
  unfold get_body. case_bool_decide as Hidx; [done|].
  destruct (object_read _ _ _ _) as [[buf|e|w] p1]; [|done..].
  destruct (_ || _) eqn:Hlen; [done|]. apply valid_block_check in Hlen.
  destruct (negb (bool_decide (size_ = 0)) && bool_decide _) eqn:Hroom; [done|].
  destruct (grow size_ res (length buf)) as [[]|e|w] eqn:Hgrow; [|done..].
  cbn zeta. destruct (bool_decide (nextblock buf = 0)) eqn:Hnext;
    [destruct (negb (bool_decide (size_ = 0)) && negb _); done|].
  apply bool_decide_eq_false in Hnext.
  intros [= <- <- <- <-]. split_and!; try done; [lia|].
  split_and!; [done | | done].
  intros Hnz. apply andb_false_iff in Hroom as [Hs|Hs].
  - apply negb_false_iff, bool_decide_eq_true in Hs. done.
  - apply bool_decide_eq_false in Hs. lia.
Qed.

(** A pass that ends the call. *)
Lemma get_body_stop b p blk_count size_ index_ res r p' buffer :
  0 < index_ ->
  get_body b p blk_count size_ index_ res = Stop r p' buffer ->
  (index_ >= blk_count -> buffer = None)
  /\ (forall out, r = Ret out ->
        exists lb, buffer = Some lb /\ nextblock lb = 0
                   /\ out = res ++ payload lb)
  /\ (forall w, r = Undefined w ->
        exists p0 i, 0 < i < blk_count
          /\ (object_read (obj_iface b) p0 sizeof_blob_blk (sizeof_blob_blk * i)).1
             = Undefined w)
  /\ (forall e, r = Throw e ->
        foreign b blk_count e
        \/ exists what, e = exception what /\ what ∈ check_errors)
  /\ (forall lb, buffer = Some lb -> taken size_ res lb -> nextblock lb = 0).
Proof.
  intros Hpos. unfold get_body, check_errors. case_bool_decide as Hidx.
  { intros [= <- <- <-]. refine (conj _ (conj _ (conj _ (conj _ _)))); try done; try lia.
    intros e [= <-]. right. eexists. split; [done|]. set_solver. }
  destruct (object_read _ _ _ _) as [[buf|e|w] p1] eqn:Hrd.
  2:{ intros [= <- <- <-]. refine (conj _ (conj _ (conj _ (conj _ _)))); try done; try lia.
      intros e0 [= <-]. left. right. exists p, index_.
      split; [lia|]. by rewrite Hrd. }
  2:{ intros [= <- <- <-]. refine (conj _ (conj _ (conj _ (conj _ _)))); try done; try lia.
      intros w0 [= <-]. exists p, index_. split; [lia|]. by rewrite Hrd. }
  destruct (_ || _) eqn:Hlen.
  { intros [= <- <- <-]. refine (conj _ (conj _ (conj _ (conj _ _)))); try done; try lia.
    - intros e [= <-]. right. eexists. split; [done|]. set_solver.
    - intros lb [= <-] (Hv & _). apply valid_block_check in Hv. congruence. }
  destruct (negb (bool_decide (size_ = 0)) && bool_decide _) eqn:Hroom.
  { intros [= <- <- <-]. refine (conj _ (conj _ (conj _ (conj _ _)))); try done; try lia.
    - intros e [= <-]. right. eexists. split; [done|]. set_solver.
    - intros lb [= <-] (_ & Hfit & _). exfalso.
      apply andb_true_iff in Hroom as [Hs Hr].
      apply negb_true_iff, bool_decide_eq_false in Hs.
      apply bool_decide_eq_true in Hr. specialize (Hfit Hs). lia. }
  destruct (grow size_ res (length buf)) as [[]|e|w] eqn:Hgrow.
  2:{ intros [= <- <- <-]. refine (conj _ (conj _ (conj _ (conj _ _)))); try done; try lia.
        - intros e0 [= <-]. left. left.
        destruct (grow_outcome size_ res (length buf)) as [Hg|[Hg|Hg]];
          rewrite Hg in Hgrow; [done | |]; injection Hgrow as <-; auto.
      - intros lb [= <-] (_ & _ & Hg). congruence. }
  2:{ exfalso. destruct (grow_outcome size_ res (length buf)) as [Hg|[Hg|Hg]];
        congruence. }
  cbn zeta. destruct (bool_decide (nextblock buf = 0)) eqn:Hnext; [|done].
  apply bool_decide_eq_true in Hnext.
  destruct (negb (bool_decide (size_ = 0)) && negb _) eqn:Hsize.
  - intros [= <- <- <-]. refine (conj _ (conj _ (conj _ (conj _ _)))); try done; try lia.
    + intros e [= <-]. right. eexists. split; [done|]. set_solver.
    + by intros lb [= <-] _.
  - intros [= <- <- <-]. refine (conj _ (conj _ (conj _ (conj _ _)))); try done; try lia.
    + intros out [= <-]. by exists buf.
    + by intros lb [= <-] _.
Qed.

(** The loop of [get], pass by pass: its bound and what it returns. *)
Lemma get_loop_spec again b p blk_count size_ index_ res :
  0 < index_ ->
  let r := get_loop again b p blk_count size_ index_ res in
  (List.length (blocks r) <= iterations r <= S again)%nat
  /\ (index_ >= blk_count -> blocks r = [] /\ iterations r = 1%nat)
  /\ (forall out, result r = Ret out ->
        exists lb, last (blocks r) = Some lb /\ nextblock lb = 0
          /\ out = res ++ concat (payload <$> blocks r)
          /\ iterations r = List.length (blocks r)).
Proof.
  revert p index_ res. induction again as [|again IH]; intros p index_ res Hpos r;
    subst r.
  all: cbn [get_loop];
    destruct (get_body b p blk_count size_ index_ res)
      as [r p' buffer|p' buffer index' res'] eqn:Hbody.
  1, 3: apply get_body_stop in Hbody as (Hnone & Hret & _); [|done];
    cbn [stop result state iterations blocks];
    (split; [destruct buffer; simpl; lia|]);
    (split; [intros Hge; by rewrite (Hnone Hge)|]);
    intros out Hout; destruct (Hret out Hout) as (lb & -> & Hnb & ->);
    exists lb; cbn; by rewrite app_nil_r.
  - apply get_body_continue in Hbody as (Hlt & -> & Hnz & -> & _).
    cbn [stop result state iterations blocks option_list].
    split; [simpl; lia|]. split; [lia|]. done.
  - apply get_body_continue in Hbody as (Hlt & -> & Hnz & -> & _).
    pose proof (nextblock_nonneg buffer) as Hnn.
    specialize (IH p' (nextblock buffer) (res ++ payload buffer) ltac:(lia)).
    cbn zeta in IH. destruct IH as (Hbound & _ & Hret).
    set (r' := get_loop again b p' blk_count size_ (nextblock buffer) _) in *.
    cbn [later result state iterations blocks option_list app].
    split; [|split].
    + simpl. lia.
    + lia.
    + intros out Hout. destruct (Hret out Hout) as (lb & Hlast & Hnb & -> & Hit).
      exists lb. split_and!; try done.
      * destruct (blocks r'); [done|]. exact Hlast.
      * change (option_list (Some buffer) ++ blocks r') with (buffer :: blocks r').
        rewrite fmap_cons, concat_cons.
        by rewrite (assoc_L (++)).
      * simpl. by rewrite Hit.
Qed.

(** The loop of [get], pass by pass: how it ends otherwise. *)
Lemma get_loop_ends again b p blk_count size_ index_ res :
  0 < index_ ->
  let r := get_loop again b p blk_count size_ index_ res in
  (forall w, result r = Undefined w ->
     exists p0 i, 0 < i < blk_count
       /\ (object_read (obj_iface b) p0 sizeof_blob_blk (sizeof_blob_blk * i)).1
          = Undefined w)
  /\ (forall e, result r = Throw e ->
        foreign b blk_count e
        \/ (exists what, e = exception what /\ what ∈ check_errors)
        \/ e = exception "Loop detected while BLOB reading."
           /\ exhausted size_ res (blocks r) (S again))
  /\ (exhausted size_ res (blocks r) (S again) ->
      result r = throw "Loop detected while BLOB reading.").
Proof.
  revert p index_ res. induction again as [|again IH]; intros p index_ res Hpos r;
    subst r.
  all: cbn [get_loop];
    destruct (get_body b p blk_count size_ index_ res)
      as [r p' buffer|p' buffer index' res'] eqn:Hbody.
  1, 3: apply get_body_stop in Hbody as (_ & _ & Hundef & Hthrow & Hlast); [|done];
    cbn [stop result state iterations blocks];
    (split; [exact Hundef|]);
    (split; [intros e He; destruct (Hthrow e He) as [?|?]; auto|]);
    intros (Hlen & Htaken & Hnz); destruct buffer as [lb|]; [|done];
    cbn in Htaken, Hnz; apply Forall_cons in Hnz as [Hnz _];
    destruct Htaken as [Htaken _]; by specialize (Hlast lb eq_refl Htaken).
  - apply get_body_continue in Hbody as (Hlt & -> & Hnz & -> & Htaken).
    cbn [stop result state iterations blocks option_list].
    split; [done|]. split; [|done].
    intros e [= <-]. right. right. split; [done|].
    split_and!; [done | by split | by apply Forall_singleton].
  - apply get_body_continue in Hbody as (Hlt & -> & Hnz & -> & Htaken).
    pose proof (nextblock_nonneg buffer) as Hnn.
    specialize (IH p' (nextblock buffer) (res ++ payload buffer) ltac:(lia)).
    cbn zeta in IH. destruct IH as (Hundef & Hthrow & Hloop).
    set (r' := get_loop again b p' blk_count size_ (nextblock buffer) _) in *.
    cbn [later result state iterations blocks option_list app].
    split; [exact Hundef|]. split.
    + intros e He. destruct (Hthrow e He) as [?|[?|[-> (Hlen & Hall & Hfor)]]]; auto.
      right. right. split; [done|]. split_and!.
      * simpl. by rewrite Hlen.
      * by split.
      * by apply Forall_cons.
    + intros (Hlen & [_ Hall] & [_ Hfor]%Forall_cons). apply Hloop.
      split_and!; [|done|done]. simpl in Hlen. lia.
Qed.

(** C6 (amended).  For a start index other than zero, [get] reads at most
    [block_count] blocks and enters the body of its loop at most
    [block_count] times (once when there is no block, to throw).  When it
    returns, the last block read has [nextblock = 0] and the result is the
    payloads of the blocks read, in their order; a chain none of whose
    blocks has [nextblock = 0] is never returned.  It has no undefined
    behaviour of its own: it is undefined only when a read of the object
    is.  An exception that leaves it is the [std::length_error] or
    [std::bad_alloc] of the storage of its result, the exception of a
    read of the object, one of its four checks of a block and of the
    result, or the loop-detection error; it throws the loop-detection
    error when [block_count] blocks were read, each of them taken (it
    passes the checks and the result gets the storage for it) and
    linking on, and, unless a read of the object throws that exception,
    only then. *)
Theorem get_within_block_count b p index_ size_ :
  0 < index_ <= uint32_max ->
  let r := get_run b p index_ size_ in
  Z.of_nat (List.length (blocks r)) <= block_count b
  /\ Z.of_nat (iterations r) <= Z.max 1 (block_count b)
  /\ (forall out, result r = Ret out ->
        exists lb, last (blocks r) = Some lb /\ nextblock lb = 0
          /\ out = concat (payload <$> blocks r)
          /\ iterations r = List.length (blocks r))
  /\ (Forall (fun blk => nextblock blk <> 0) (blocks r) -> ~ returns (result r))
  /\ (forall w, result r = Undefined w ->
        exists p0 i, 0 < i < block_count b
          /\ (object_read (obj_iface b) p0 sizeof_blob_blk (sizeof_blob_blk * i)).1
             = Undefined w)
  /\ (forall e, result r = Throw e ->
        foreign b (block_count b) e
        \/ (exists what, e = exception what /\ what ∈ check_errors)
        \/ e = exception "Loop detected while BLOB reading."
           /\ 1 <= block_count b
           /\ exhausted size_ [] (blocks r) (Z.to_nat (block_count b)))
  /\ (1 <= block_count b ->
      exhausted size_ [] (blocks r) (Z.to_nat (block_count b)) ->
      result r = throw "Loop detected while BLOB reading.").
Proof.
  intros Hidx r. subst r. unfold get_run. rewrite bool_decide_false by lia.
  fold (block_count b).
  assert (0 <= block_count b < 2 ^ 32) as Hbc by apply Z.mod_pos_bound, eq_refl.
  pose proof (reserve_outcome size_) as Hreserve.
  destruct (reserve size_) as [[]|e0|w0] eqn:Hres.
  2:{ cbn [result blocks iterations].
      refine (conj _ (conj _ (conj _ (conj _ (conj _ (conj _ _))))));
        try done; try (simpl; lia).
      - by intros _ [out Hout].
      - intros e [= <-]. left. left.
        destruct Hreserve as [Hr|[Hr|Hr]]; [done|..]; injection Hr as ->; auto.
      - intros Hpos (Hlen & _). simpl in Hlen. lia. }
  2:{ exfalso. destruct Hreserve as [Hr|[Hr|Hr]]; congruence. }
  clear Hreserve Hres.
  set (again := Z.to_nat (wrap 32 (block_count b - 1))).
  destruct (get_loop_spec again b p (block_count b) size_ index_ [] ltac:(lia))
    as (Hbound & Hnone & Hret).
  destruct (get_loop_ends again b p (block_count b) size_ index_ [] ltac:(lia))
    as (Hundef & Hthrow & Hloop).
  set (r := get_loop again b p (block_count b) size_ index_ []) in *.
  assert (1 <= block_count b -> S again = Z.to_nat (block_count b)) as Hagain.
  { intros Hpos. subst again. unfold wrap. rewrite Z.mod_small by lia. lia. }
  assert (forall out, result r = Ret out ->
            exists lb, last (blocks r) = Some lb /\ nextblock lb = 0
              /\ out = concat (payload <$> blocks r)
              /\ iterations r = List.length (blocks r)) as Hret'.
  { intros out Hout. destruct (Hret out Hout) as (lb & ? & ? & ? & ?). eauto. }
  assert (Forall (fun blk => nextblock blk <> 0) (blocks r) -> ~ returns (result r))
    as Hnever.
  { intros Hnz [out Hout]. destruct (Hret' out Hout) as (lb & Hlast & Hnb & _).
    apply last_Some_elem_of in Hlast.
    rewrite Forall_forall in Hnz. by apply (Hnz lb). }
  destruct (decide (1 <= block_count b)) as [Hpos|Hzero].
  - specialize (Hagain Hpos). rewrite <- Hagain.
    split_and!; [lia | lia | done | done | done | | by intros _].
    intros e He. destruct (Hthrow e He) as [?|[?|[? ?]]]; auto.
  - destruct Hnone as [Hb Hi]; [lia|]. rewrite Hb, Hi in *.
    split_and!; [simpl; lia | lia | done | done | done | | intros; lia].
    intros e He. destruct (Hthrow e He) as [?|[?|[_ (Hlen & _)]]]; auto.
    simpl in Hlen. lia.
Qed.
End get.

#[local] Existing Instance examples.ample.

Lemma get_within_block_count_witness :
  result (get_run (examples.blob_of examples.blks_cycle)
            (examples.pages_of examples.blks_cycle) 1 0)
  = throw "Loop detected while BLOB reading.".
Proof.
  apply (get_within_block_count (examples.blob_of examples.blks_cycle)
           (examples.pages_of examples.blks_cycle) 1 0).
  - unfold uint32_max. lia.
  - vm_compute. congruence.
  - apply (@bool_decide_unpack _ _). vm_compute. exact I.
Defined.

(** The storage of the result: with a free store that gives 16 KiB at
    most, an expected size of a megabyte is refused with [std::bad_alloc]
    and one of [2^63] bytes with [std::length_error], before a block is
    read. *)
Lemma get_reserve_refused :
  let b := examples.blob_of examples.blks_chain in
  let p := examples.pages_of examples.blks_chain in
  result (@get_run _ _ examples.scarce b p 1 (2 ^ 20)) = Throw std_bad_alloc
  /\ result (@get_run _ _ examples.scarce b p 1 (2 ^ 63)) = Throw std_length_error
  /\ blocks (@get_run _ _ examples.scarce b p 1 (2 ^ 63)) = [].
Proof. vm_compute. split_and!; reflexivity. Qed.

(** C6, as stated, at a chain whose second block links to a block that the
    object does not have: [get] neither returns nor throws the
    loop-detection error. *)
Lemma get_throws_another_error :
  let r := get_run (examples.blob_of examples.blks_stray)
             (examples.pages_of examples.blks_stray) 1 0 in
  is_Some (examples.blob_on examples.blks_stray)
  /\ block_count (examples.blob_of examples.blks_stray) = 3
  /\ ~ (returns (result r)
        \/ result r = throw "Loop detected while BLOB reading.").
Proof.
  intros r.
  assert (result r = throw "Index of next BLOB block exceeds object size.") as Hr
    by (vm_compute; reflexivity).
  split_and!.
  - apply (@bool_decide_unpack _ _). vm_compute. exact I.
  - vm_compute. reflexivity.
  - rewrite Hr. intros [[out Hout]|Hloop]; discriminate.
Qed.

End blob_facts.

(** ** db_1c_8x::blob: sizes *)

Module blob_sizes.

Import blob blob_props blob_facts.

Lemma length_payload (buffer : buffer_type) :
  (List.length (payload buffer) <= 250)%nat.
Proof.
  unfold payload, data, mem_read. rewrite !length_take. lia.
Qed.

Lemma length_concat_payload (blks : list buffer_type) :
  (List.length (concat (payload <$> blks)) <= 250 * List.length blks)%nat.
Proof.
  induction blks as [|blk blks IH]; [simpl; lia|].
  rewrite fmap_cons, concat_cons, length_app. cbn [List.length].
  pose proof (length_payload blk). lia.
Qed.

Section get.
Context {T : Type} `{object_type T} `{!platform}.
Implicit Types (b : blob T) (p : pages.pages) (res : buffer_type).

(** A pass that returns has compared the size gathered with the size
    expected. *)
Lemma get_body_size b p blk_count size_ index_ res out p' buffer :
  get_body b p blk_count size_ index_ res = Stop (Ret out) p' buffer ->
  size_ <> 0 -> size_ = Z.of_nat (List.length out).
Proof.
  unfold get_body. case_bool_decide as Hidx; [done|].
  destruct (object_read _ _ _ _) as [[buf|e|w] p1]; [|done..].
  destruct (_ || _); [done|].
  destruct (negb (bool_decide (size_ = 0)) && bool_decide _); [done|].
  destruct (grow size_ res (length buf)) as [[]| |]; [|done..].
  cbn zeta. destruct (bool_decide (nextblock buf = 0)); [|done].
  destruct (negb (bool_decide (size_ = 0)) && negb _) eqn:Hsize; [done|].
  intros [= <- _ _] Hnz.
  apply andb_false_iff in Hsize as [Hs|Hs].
  - apply negb_false_iff, bool_decide_eq_true in Hs. done.
  - apply negb_false_iff, bool_decide_eq_true in Hs. done.
Qed.

Lemma get_loop_size again b p blk_count size_ index_ res out :
  result (get_loop again b p blk_count size_ index_ res) = Ret out ->
  size_ <> 0 -> size_ = Z.of_nat (List.length out).
Proof.
  revert p index_ res. induction again as [|again IH]; intros p index_ res.
  all: cbn [get_loop];
    destruct (get_body b p blk_count size_ index_ res)
      as [r p' buffer|p' buffer index' res'] eqn:Hbody.
  - cbn [stop result]. intros ->. by eapply get_body_size.
  - done.
  - cbn [stop result]. intros ->. by eapply get_body_size.
  - cbn [later result]. apply IH.
Qed.

(** [get] gathers at most 250 bytes from each block of the object. *)
Lemma get_length_bound b p index_ size_ out p' :
  0 <= index_ ->
  get b p index_ size_ = (Ret out, p') ->
  Z.of_nat (List.length out) <= 250 * block_count b.
Proof.
  intros Hrange. unfold get, get_run. case_bool_decide as Hidx; [done|].
  destruct (reserve size_) as [[]| |]; [|done..].
  fold (block_count b).
  assert (0 <= block_count b < 2 ^ 32) as Hbc by apply Z.mod_pos_bound, eq_refl.
  set (again := Z.to_nat (wrap 32 (block_count b - 1))).
  intros [= Hout _].
  destruct (get_loop_spec again b p (block_count b) size_ index_ [] ltac:(lia))
    as (Hbound & Hnone & Hret).
  destruct (Hret out Hout) as (lb & Hlast & _ & -> & _). cbn [app].
  pose proof (length_concat_payload
                (blocks (get_loop again b p (block_count b) size_ index_ []))) as Hlen.
  destruct (decide (1 <= block_count b)) as [Hpos|Hzero].
  - assert (S again = Z.to_nat (block_count b)) as Hagain.
    { subst again. unfold wrap. rewrite Z.mod_small by lia. lia. }
    lia.
  - destruct (Hnone ltac:(lia)) as [Hb _]. by rewrite Hb in Hlast.
Qed.

(** X10.  What [get] returns has the size that was asked for, when one
    was asked for, and never more than 250 bytes for each block of the
    object. *)
Theorem get_result_size b p index_ size_ out p' :
  0 <= index_ <= uint32_max ->
  get b p index_ size_ = (Ret out, p') ->
  (size_ <> 0 -> Z.of_nat (List.length out) = size_)
  /\ Z.of_nat (List.length out) <= 250 * block_count b.
Proof.
  intros Hrange Hget. split; [|eapply get_length_bound; [|done]; lia].
  revert Hget. unfold get, get_run. case_bool_decide as Hidx; [done|].
  destruct (reserve size_) as [[]| |]; [|done..].
  intros [= Hout _] Hnz. symmetry. by eapply get_loop_size.
Qed.

(** X11.  A [blob] that its constructor returned sits on an object of
    whole 256-byte blocks, fewer than [2^32] of them, so that the count
    of blocks that [get] takes is exact, and every block that [get]
    asks the object for lies inside the object. *)
Theorem blob_blocks_inside_object p index_ b p' :
  new p index_ = (Ret b, p') -> 0 <= object_size (obj_iface b) ->
  object_size (obj_iface b) = sizeof_blob_blk * block_count b
  /\ forall i, 0 <= i < block_count b ->
       sizeof_blob_blk * i + sizeof_blob_blk <= object_size (obj_iface b).
Proof.
  unfold new, pbind. destruct (object_new p index_) as [[o| |] p1]; [|done..].
  destruct (_ || _) eqn:Hbad; [done|]. intros [= <- _]. cbn [obj_iface].
  intros Hsize. apply orb_false_iff in Hbad as [Hmod Hmax].
  apply negb_false_iff, bool_decide_eq_true in Hmod.
  apply bool_decide_eq_false in Hmax.
  unfold block_count. cbn [obj_iface]. unfold sizeof_blob_blk, uint32_max in *.
  pose proof (Z.div_mod (object_size o) 256 ltac:(lia)) as Hdm.
  assert (0 <= object_size o / 256) as Hq by (apply Z.div_pos; lia).
  unfold wrap. rewrite Z.mod_small by lia. split; [lia|]. intros i Hi. lia.
Qed.
End get.

Import examples.
#[local] Existing Instance ample.

Lemma get_result_size_witness :
  (5 <> 0 -> Z.of_nat (List.length (list_byte_of_string "abcde")) = 5)
  /\ Z.of_nat (List.length (list_byte_of_string "abcde")) <= 250 * block_count (blob_of blks_chain).
Proof.
  apply (get_result_size (blob_of blks_chain) (pages_of blks_chain) 1 5
           (list_byte_of_string "abcde")
           (get (blob_of blks_chain) (pages_of blks_chain) 1 5).2).
  - unfold uint32_max. lia.
  - rewrite (surjective_pairing (get _ _ _ _)) at 1. f_equal; vm_compute; reflexivity.
Defined.

Lemma blob_blocks_inside_object_witness :
  object_size (obj_iface (blob_of blks_chain))
  = sizeof_blob_blk * block_count (blob_of blks_chain)
  /\ forall i, 0 <= i < block_count (blob_of blks_chain) ->
       sizeof_blob_blk * i + sizeof_blob_blk <= object_size (obj_iface (blob_of blks_chain)).
Proof.
  apply (blob_blocks_inside_object (pages_on (db_object (concat blks_chain))) 1
           (blob_of blks_chain)
           (new (T:=db_1c_83.object) (pages_on (db_object (concat blks_chain))) 1).2).
  - rewrite (surjective_pairing (new _ _)) at 1. f_equal; vm_compute; reflexivity.
  - vm_compute. congruence.
Defined.

End blob_sizes.

(** ** db_1cd_8x::blob_base::decompress *)

Module blob_base_facts.

Import blob_base.

Section zlib.
Context {z_state : Type}.
Variable inflateInit2 : Z -> Z * z_state.
Variable inflate : z_state -> list byte -> Z -> Z * z_state * Z * list byte.
Variable inflateEnd : z_state -> Z.
Variable to_string : Z -> string.

Abbreviation inflate_loop := (inflate_loop inflate inflateEnd to_string).
Abbreviation decompress := (decompress inflateInit2 inflate inflateEnd to_string).

Lemma defined_Ret {A : Type} (a : A) : defined (Ret a).
Proof. intros w. discriminate. Qed.

Lemma defined_Throw {A : Type} (e : exn) : defined (Throw (A:=A) e).
Proof. intros w. discriminate. Qed.

(** The passes allowed are never used up: the output buffer doubles
    until it is [max_size_] bytes, and the pass after that throws. *)
Lemma inflate_loop_defined fuel strm src_ max_size_ total_in out dst_size :
  (1 <= fuel)%nat -> 1 <= dst_size ->
  max_size_ <= dst_size \/ max_size_ < dst_size * 2 ^ (Z.of_nat fuel - 1) ->
  defined (inflate_loop fuel strm src_ max_size_ total_in out dst_size).
Proof.
  revert strm total_in out dst_size.
  induction fuel as [|fuel IH]; intros strm total_in out dst_size Hfuel Hd Hmax; [lia|].
  cbn [blob_base.inflate_loop].
  destruct (inflate strm _ _) as [[[res strm'] consumed] produced].
  case_bool_decide as Hend.
  { cbn zeta. destruct (negb _); [apply defined_Throw | apply defined_Ret]. }
  destruct (negb (bool_decide (res = Z_OK))); [apply defined_Throw|].
  case_bool_decide as Hfull; [apply defined_Throw|].
  assert (max_size_ < dst_size * 2 ^ Z.of_nat fuel) as Hlt.
  { destruct Hmax as [?|Hmax]; [lia|].
    replace (Z.of_nat (S fuel) - 1) with (Z.of_nat fuel) in Hmax by lia. done. }
  assert (1 <= fuel)%nat as Hfuel'.
  { destruct fuel; [|lia]. simpl in Hlt. lia. }
  cbn zeta. destruct (negb (bool_decide (wrap 32 _ = 0))); [|apply defined_Throw].
  apply IH; [done | case_bool_decide; lia |].
  case_bool_decide as Hinc; [left; lia|]. right.
  replace (Z.of_nat fuel) with (Z.succ (Z.of_nat fuel - 1)) in Hlt by lia.
  rewrite Z.pow_succ_r in Hlt by lia. lia.
Qed.

Lemma decompress_defined src_ max_size_ : defined (decompress src_ max_size_).
Proof.
  unfold blob_base.decompress. case_bool_decide as Hempty; [apply defined_Ret|].
  cbn zeta.
  set (max_size' := if bool_decide (max_size_ > uInt_max) then uInt_max else max_size_).
  case_bool_decide as Hbig; [apply defined_Throw|].
  destruct (inflateInit2 _) as [res strm].
  destruct (negb (bool_decide (res = Z_OK))); [apply defined_Throw|].
  assert (1 <= Z.of_nat (length src_)) as Hsrc by (destruct src_; simpl in *; [done | lia]).
  apply inflate_loop_defined; [unfold passes; lia | done |].
  right. unfold passes. pose proof (Z.log2_nonneg max_size') as Hnn.
  replace (Z.of_nat (Z.to_nat (Z.log2 max_size') + 2) - 1)
    with (Z.succ (Z.log2 max_size')) by lia.
  destruct (Z.log2_spec max_size') as [_ Hlog]; [lia|].
  nia.
Qed.

(** C10.  With any inflate implementation, [decompress] of an empty
    buffer returns an empty buffer; so when it throws that the data flow
    ended before it was decompressed, the input was not empty. *)
Theorem decompress_empty max_size_ :
  decompress [] max_size_ = Ret []
  /\ forall src_ max_size_',
       decompress src_ max_size_'
       = throw "Data flow ended before it was decompressed by ZLIB." ->
       src_ <> [].
Proof.
  split; [reflexivity|].
  intros src_ max_size_' Hthrow ->. discriminate Hthrow.
Qed.
End zlib.

Lemma decompress_empty_witness :
  decompress examples.idle_inflateInit2 examples.idle_inflate examples.idle_inflateEnd
    examples.no_to_string ["x"%byte] 16
  = throw "Data flow ended before it was decompressed by ZLIB."
  /\ ["x"%byte] <> [].
Proof.
  assert (decompress examples.idle_inflateInit2 examples.idle_inflate
            examples.idle_inflateEnd examples.no_to_string ["x"%byte] 16
          = throw "Data flow ended before it was decompressed by ZLIB.") as Hthrow
    by (vm_compute; reflexivity).
  split; [exact Hthrow|].
  exact (proj2 (decompress_empty examples.idle_inflateInit2 examples.idle_inflate
                  examples.idle_inflateEnd examples.no_to_string 0)
           ["x"%byte] 16 Hthrow).
Defined.

End blob_base_facts.

(** ** db_1cd_8x::blob_base::decompress: the size of the output *)

Module decompress_size.

Import blob_base.

Section zlib.
Context {z_state : Type}.
Variable inflateInit2 : Z -> Z * z_state.
Variable inflate : z_state -> list byte -> Z -> Z * z_state * Z * list byte.
Variable inflateEnd : z_state -> Z.
Variable to_string : Z -> string.

(** What zlib promises of [inflate]: it stores no more than
    [avail_out] bytes. *)
Hypothesis inflate_fits : forall strm next_in avail_out res strm' consumed produced,
  0 <= avail_out ->
  inflate strm next_in avail_out = (res, strm', consumed, produced) ->
  Z.of_nat (length produced) <= avail_out.

Lemma inflate_loop_bounded fuel strm src_ max_size_ total_in out dst_size res :
  Z.of_nat (length out) <= dst_size <= max_size_ ->
  inflate_loop inflate inflateEnd to_string fuel strm src_ max_size_ total_in out dst_size
  = Ret res ->
  Z.of_nat (length res) <= max_size_.
Proof.
  revert strm total_in out dst_size.
  induction fuel as [|fuel IH]; intros strm total_in out dst_size Hinv; [done|].
  cbn [inflate_loop].
  destruct (inflate strm _ _) as [[[r strm'] consumed] produced] eqn:Hinf.
  apply inflate_fits in Hinf; [|lia].
  assert (Z.of_nat (length (out ++ produced)) <= dst_size) as Hout.
  { rewrite length_app. lia. }
  case_bool_decide as Hend.
  { cbn zeta. destruct (negb _); [done|]. intros [= <-]. lia. }
  destruct (negb (bool_decide (r = Z_OK))); [done|].
  case_bool_decide as Hfull; [done|].
  cbn zeta. destruct (negb (bool_decide (wrap 32 _ = 0))); [|done].
  apply IH. case_bool_decide; lia.
Qed.

(** X12.  With an [inflate] that keeps to [avail_out], what
    [decompress] returns is never longer than [max_size_], nor than
    zlib's own limit of [2^32 - 1] bytes; an input longer than that
    limit is refused before zlib is set up. *)
Theorem decompress_within_max_size src_ max_size_ :
  0 <= max_size_ ->
  (forall out, decompress inflateInit2 inflate inflateEnd to_string src_ max_size_ = Ret out ->
     Z.of_nat (length out) <= Z.min max_size_ uInt_max)
  /\ (Z.min max_size_ uInt_max < Z.of_nat (length src_) ->
      decompress inflateInit2 inflate inflateEnd to_string src_ max_size_
      = throw "Size of data to decompress by ZLIB too large.").
Proof.
  intros Hmax. unfold decompress.
  set (max_size' := if bool_decide (max_size_ > uInt_max) then uInt_max else max_size_).
  assert (max_size' = Z.min max_size_ uInt_max) as Hmin.
  { subst max_size'. case_bool_decide; lia. }
  split.
  - intros out. case_bool_decide as Hempty.
    { intros [= <-]. simpl. unfold uInt_max. lia. }
    cbn zeta. fold max_size'. case_bool_decide as Hbig; [done|].
    destruct (inflateInit2 _) as [r strm].
    destruct (negb (bool_decide (r = Z_OK))); [done|].
    intros Hout. apply inflate_loop_bounded in Hout; [lia|]. simpl. lia.
  - intros Hlong. rewrite bool_decide_false by (destruct src_; simpl in *; [unfold uInt_max in *; lia | done]).
    cbn zeta. fold max_size'. by rewrite bool_decide_true by lia.
Qed.
End zlib.

Import samples.

Lemma stored_inflate_fits strm next_in avail_out res strm' consumed produced :
  0 <= avail_out ->
  stored_inflate strm next_in avail_out = (res, strm', consumed, produced) ->
  Z.of_nat (length produced) <= avail_out.
Proof.
  intros Ha. unfold stored_inflate. intros [= _ _ _ <-]. rewrite length_take. lia.
Defined.

Lemma decompress_within_max_size_witness :
  decompress examples.idle_inflateInit2 stored_inflate examples.idle_inflateEnd
    examples.no_to_string (list_byte_of_string "abc") 16
  = Ret (list_byte_of_string "abc")
  /\ Z.of_nat (length (list_byte_of_string "abc")) <= Z.min 16 uInt_max.
Proof.
  split; [vm_compute; reflexivity|].
  apply (proj1 (decompress_within_max_size examples.idle_inflateInit2 stored_inflate
                  examples.idle_inflateEnd examples.no_to_string stored_inflate_fits
                  (list_byte_of_string "abc") 16 ltac:(lia))).
  vm_compute. reflexivity.
Defined.

End decompress_size.

(** ** db_1cd_8x::blob_base::utf8to16 *)

Module utf8_facts.

Import utf8.

Lemma starts_with_BOM (src_ : buffer_type) :
  src_ !! 0%nat = Some "239"%byte -> src_ !! 1%nat = Some "187"%byte ->
  src_ !! 2%nat = Some "191"%byte -> take 3 src_ = BOM.
Proof.
  destruct src_ as [|b0 [|b1 [|b2 rest]]]; try done.
  cbn. by intros [= ->] [= ->] [= ->].
Qed.

Section platform.
Variable MultiByteToWideChar : list byte -> nat -> nat * wstring.

(** X13.  [utf8to16] returns only for a buffer that starts with the
    byte order mark [EF BB BF], which it never passes to the converter;
    for the mark alone it returns the empty string without a
    conversion; a longer text gives a string that is not empty and has
    the length that the platform announced for the bytes after the
    mark.  A buffer without the mark is refused. *)
Theorem utf8to16_needs_BOM (src_ : buffer_type) :
  (forall w, utf8to16 MultiByteToWideChar src_ = Ret w ->
     take 3 src_ = BOM
     /\ (length src_ = 3%nat -> w = [])
     /\ (length src_ <> 3%nat ->
         length w = (MultiByteToWideChar (drop 3 src_) 0).1
         /\ (0 < length w)%nat))
  /\ (take 3 src_ <> BOM ->
      utf8to16 MultiByteToWideChar src_
      = throw "The buffer data does not contain UTF-8 string to UTF-16 conversion.")
  /\ utf8to16 MultiByteToWideChar BOM = Ret [].
Proof.
  split; [|split; [|reflexivity]].
  - intros w. unfold utf8to16.
    destruct (_ || _ || _ || _) eqn:Hg; [done|].
    apply orb_false_iff in Hg as [Hg H2]. apply orb_false_iff in Hg as [Hg H1].
    apply orb_false_iff in Hg as [Hlen H0].
    apply negb_false_iff, bool_decide_eq_true in H0, H1, H2.
    pose proof (starts_with_BOM src_ H0 H1 H2) as Hbom.
    destruct (bool_decide (Z.of_nat (length src_) = 3)) eqn:H3.
    { intros [= <-]. split; [done|]. split; [done | intros Hn].
      apply bool_decide_eq_true in H3. lia. }
    apply bool_decide_eq_false in H3.
    cbn zeta. destruct (bool_decide (_ > int_max)); [done|].
    destruct (MultiByteToWideChar (drop 3 src_) 0) as [size ignored] eqn:Hsize.
    destruct (bool_decide (size = 0%nat)) eqn:Hz; [done|].
    apply bool_decide_eq_false in Hz.
    destruct (MultiByteToWideChar (drop 3 src_) size) as [size' stored].
    destruct (bool_decide (size < length stored)%nat) eqn:Hover; [done|].
    apply bool_decide_eq_false in Hover.
    destruct (negb _); [done|]. intros [= <-].
    split; [done|]. split; [lia|]. intros _.
    rewrite length_app, length_replicate. cbn [fst]. lia.
  - intros Hbom. unfold utf8to16.
    destruct (_ || _ || _ || _) eqn:Hg; [done|]. exfalso. apply Hbom.
    apply orb_false_iff in Hg as [Hg H2]. apply orb_false_iff in Hg as [Hg H1].
    apply orb_false_iff in Hg as [Hlen H0].
    apply negb_false_iff, bool_decide_eq_true in H0, H1, H2.
    by apply starts_with_BOM.
Qed.
End platform.

Lemma utf8to16_needs_BOM_witness :
  utf8to16 samples.widen (BOM ++ list_byte_of_string "ok") = Ret (L "ok")
  /\ take 3 (BOM ++ list_byte_of_string "ok") = BOM
  /\ length (L "ok") = (samples.widen (drop 3 (BOM ++ list_byte_of_string "ok")) 0).1.
Proof.
  assert (utf8to16 samples.widen (BOM ++ list_byte_of_string "ok") = Ret (L "ok")) as Hr
    by (vm_compute; reflexivity).
  split; [exact Hr|].
  destruct (proj1 (utf8to16_needs_BOM samples.widen (BOM ++ list_byte_of_string "ok"))
              (L "ok") Hr) as (Hbom & _ & Hlen).
  split; [exact Hbom|]. apply Hlen. simpl. lia.
Defined.

End utf8_facts.

(** ** Records and BLOBs read through [db_1c_83::object] *)

Module stack_facts.

Import pages_props object_props data_props object_facts.

Lemma length_concat_same {A : Type} (cs : list (list A)) (n : nat) :
  Forall (fun c => length c = n) cs -> length (concat cs) = (n * length cs)%nat.
Proof.
  induction 1 as [|c cs Hc _ IH]; [simpl; lia|].
  cbn [concat length]. rewrite length_app, IH, Hc. lia.
Qed.

Section stack.
Context `{!platform} (os : file.os_file) (N : nat).
Hypothesis (HN : (4 <= N)%nat) (Hread : readable os).
Implicit Types (p : pages.pages) (o : db_1c_83.object).

(** The data of a placed object has the length that its header states. *)
Lemma length_data p o :
  pages_inv os N p -> placed os p o ->
  length (data os p o) = Z.to_nat (db_1c_83.hdr_length o).
Proof.
  intros Hinv Hpl. unfold data.
  pose proof (pages_facts.valid_page_size_pos _ (inv_page_size _ _ _ Hinv)) as Hps.
  pose proof (hdr_length_bound o) as Hlen.
  rewrite length_take, (length_concat_same _ _ (data_pages_length os N HN p o Hinv Hpl)).
  unfold data_pages. rewrite length_fmap, length_seq.
  assert (db_1c_83.hdr_length o <= pages.page_size p * pages_count o p) as Hcover.
  { unfold pages_count.
    pose proof (Z.div_mod (db_1c_83.hdr_length o) (pages.page_size p) ltac:(lia)) as Hdm.
    pose proof (Z.mod_pos_bound (db_1c_83.hdr_length o) (pages.page_size p) ltac:(lia)).
    case_bool_decide; nia. }
  assert (0 <= pages_count o p).
  { unfold pages_count.
    assert (0 <= db_1c_83.hdr_length o / pages.page_size p) by (apply Z.div_pos; lia).
    case_bool_decide; lia. }
  nia.
Qed.

Lemma length_piece p o size_ i :
  pages_inv os N p -> placed os p o ->
  0 <= size_ -> 0 <= i -> size_ * i + size_ <= db_1c_83.hdr_length o ->
  length (piece (data os p o) size_ i) = Z.to_nat size_.
Proof.
  intros Hinv Hpl Hs Hi Hfit. unfold piece.
  rewrite length_take, length_drop, (length_data p o Hinv Hpl). nia.
Qed.

(** *** The cursor *)

(** X20.  On a readable file and with a cache of at least four pages,
    for a cursor whose object has its placement table inside the
    database and a [length] of [size()] records, whose record buffer is
    not empty and which, when it is positioned, holds the record it is
    positioned on: [seek] of a record number below [size()] returns and
    leaves in the record buffer the bytes of that record in the data of
    the object, the [record_size] bytes at [record_size * index_],
    whatever pages and page boundaries they lie on and whatever the
    cache held; [is_deleted] then reports whether the first of these
    bytes is [1]. *)
Theorem seek_loads_record (r : records.records db_1c_83.object) p index_ :
  reachable os N p -> placed os p (records.obj_iface r) ->
  (1 <= length (records.record r))%nat ->
  db_1c_83.hdr_length (records.obj_iface r)
  = records.size r * Z.of_nat (length (records.record r)) ->
  loaded os p r -> 0 <= index_ < records.size r ->
  exists r' p',
    records.seek r p index_ = (Ret (), r', p')
    /\ reachable os N p'
    /\ records.last_index r' = Some index_
    /\ records.record r'
       = piece (data os p (records.obj_iface r))
           (Z.of_nat (length (records.record r))) index_
    /\ length (records.record r') = length (records.record r)
    /\ loaded os p' r'
    /\ records.is_deleted r'
       = Ret (bool_decide
                (mem_get (piece (data os p (records.obj_iface r))
                            (Z.of_nat (length (records.record r))) index_) 0 1 = 1)).
Proof.
  intros Hp Hpl Hrec Hwhole Hloaded Hidx.
  pose proof (pages_facts.reachable_inv os N p Hp) as Hinv.
  pose proof (hdr_length_bound (records.obj_iface r)) as Hlen.
  set (c := Z.of_nat (length (records.record r))) in *.
  set (o := records.obj_iface r) in *.
  assert (c * index_ + c <= db_1c_83.hdr_length o) as Hfit by nia.
  assert (length (piece (data os p o) c index_) = length (records.record r)) as Hpiece.
  { rewrite (length_piece p o) by (done || lia). lia. }
  assert (forall rec, length rec = length (records.record r) ->
            records.is_deleted (records.with_record r rec (Some index_))
            = Ret (bool_decide (mem_get rec 0 1 = 1))) as Hdel.
  { intros rec Hrl. unfold records.is_deleted, records.seek_success.
    cbn [records.last_index records.with_record records.record].
    rewrite bool_decide_true by done. cbn [negb].
    destruct rec; [simpl in Hrl; lia | done]. }
  unfold records.seek. rewrite bool_decide_false by lia.
  case_bool_decide as Hsame.
  { exists r, p. pose proof (Hloaded _ Hsame) as Hl. fold c o in Hl.
    split_and!; try done.
    unfold records.is_deleted, records.seek_success.
    rewrite bool_decide_true by (by rewrite Hsame). cbn [negb]. rewrite <- Hl.
    destruct (records.record r); [simpl in Hrec; lia | done]. }
  cbn [records.record records.with_record records.obj_iface]. fold c o.
  destruct (read_inside os N HN Hread p o c (c * index_) Hp Hpl)
    as (p' & Hrd & Hp' & Eps & _); [unfold inside, size_t_max in *; nia|].
  cbn [object_read db_1c_83.object_object_type]. rewrite Hrd.
  fold (piece (data os p o) c index_).
  assert (mem_write (records.record r) 0 (piece (data os p o) c index_)
          = piece (data os p o) c index_) as Hw.
  { unfold mem_write. rewrite take_0. cbn [app Nat.add]. rewrite Hpiece.
    by rewrite drop_all, app_nil_r. }
  rewrite Hw. eexists _, p'. split; [done|].
  cbn [records.last_index records.with_record records.record].
  split_and!; try done.
  - intros i [= <-]. cbn [records.obj_iface records.with_record records.record].
    rewrite Hpiece. fold c o. by rewrite (data_ext os p p').
  - by apply Hdel.
Qed.

(** *** The chain of blocks of a BLOB *)

Lemma defined_result {A : Type} (a : A) : defined (Ret a).
Proof. intros w. discriminate. Qed.

Lemma defined_throw {A : Type} (what : string) :
  defined (Throw (A:=A) (exception what)).
Proof. intros w. discriminate. Qed.

(** One pass of [get] over an object of [blk_count] whole blocks. *)
Lemma get_body_chain (b : blob.blob db_1c_83.object) p blk_count size_ index_ res :
  reachable os N p -> placed os p (blob.obj_iface b) ->
  db_1c_83.hdr_length (blob.obj_iface b) = blob.sizeof_blob_blk * blk_count ->
  0 <= index_ ->
  match blob.get_body b p blk_count size_ index_ res with
  | blob.Stop r p' buffer =>
      reachable os N p' /\ pages.page_size p' = pages.page_size p
      /\ pages.size p' = pages.size p /\ defined r
      /\ forall blk, buffer = Some blk ->
           blk = piece (data os p (blob.obj_iface b)) blob.sizeof_blob_blk index_
  | blob.Continue p' buffer index' _ =>
      reachable os N p' /\ pages.page_size p' = pages.page_size p
      /\ pages.size p' = pages.size p
      /\ buffer = piece (data os p (blob.obj_iface b)) blob.sizeof_blob_blk index_
      /\ index' = blob.nextblock buffer
  end.
Proof.
  intros Hp Hpl Hwhole Hidx. unfold blob.get_body.
  case_bool_decide as Hge.
  { split_and!; try done; apply defined_throw. }
  destruct (read_inside os N HN Hread p (blob.obj_iface b) blob.sizeof_blob_blk
              (blob.sizeof_blob_blk * index_) Hp Hpl)
    as (p' & Hrd & Hp' & Eps & Esz).
  { unfold inside, size_t_max, blob.sizeof_blob_blk in *. nia. }
  cbn [object_read db_1c_83.object_object_type]. rewrite Hrd.
  fold (piece (data os p (blob.obj_iface b)) blob.sizeof_blob_blk index_).
  set (blk := piece _ _ _).
  destruct (_ || _).
  { split_and!; try done;
      first [apply defined_throw | by intros ? [= <-]]. }
  destruct (_ && _).
  { split_and!; try done;
      first [apply defined_throw | by intros ? [= <-]]. }
  pose proof (blob_facts.grow_outcome size_ res (blob.length blk)) as Hgrow.
  destruct (blob.grow size_ res (blob.length blk)) as [[]|e|w].
  2:{ split_and!; try done; by intros ? [= <-]. }
  2:{ exfalso. destruct Hgrow as [?|[?|?]]; congruence. }
  cbn zeta. destruct (bool_decide (blob.nextblock blk = 0)); [|done].
  destruct (_ && _).
  - split_and!; try done;
      first [apply defined_throw | by intros ? [= <-]].
  - split_and!; try done;
      first [apply defined_result | by intros ? [= <-]].
Qed.

Lemma get_loop_chain again (b : blob.blob db_1c_83.object) p blk_count size_ index_ res :
  reachable os N p -> placed os p (blob.obj_iface b) ->
  db_1c_83.hdr_length (blob.obj_iface b) = blob.sizeof_blob_blk * blk_count ->
  0 <= index_ ->
  chained (data os p (blob.obj_iface b)) index_
    (blob.blocks (blob.get_loop again b p blk_count size_ index_ res))
  /\ reachable os N (blob.state (blob.get_loop again b p blk_count size_ index_ res))
  /\ defined (blob.result (blob.get_loop again b p blk_count size_ index_ res)).
Proof.
  revert p index_ res.
  induction again as [|again IH]; intros p index_ res Hp Hpl Hwhole Hidx.
  all: cbn [blob.get_loop];
    pose proof (get_body_chain b p blk_count size_ index_ res Hp Hpl Hwhole Hidx) as Hbody;
    destruct (blob.get_body b p blk_count size_ index_ res)
      as [r p' buffer|p' buffer index' res'].
  1, 3: destruct Hbody as (Hp' & _ & _ & Hdef & Hblk);
    cbn [blob.stop blob.result blob.state blob.blocks];
    (split; [|done]);
    destruct buffer as [blk|]; cbn; [split; [by apply Hblk | done] | done].
  - destruct Hbody as (Hp' & _ & _ & Hblk & _).
    cbn [blob.stop blob.result blob.state blob.blocks option_list].
    split; [|split; [done | apply defined_throw]]. cbn. done.
  - destruct Hbody as (Hp' & Eps & Esz & Hblk & ->).
    cbn [blob.later blob.result blob.state blob.blocks option_list app].
    destruct (IH p' (blob.nextblock buffer) res' Hp') as (Hchain & Hstate & Hdef).
    { by apply (placed_ext os p). }
    { done. }
    { pose proof (mem_get_bound buffer 0 4). unfold blob.nextblock. lia. }
    split; [|done]. cbn. split; [done|].
    by rewrite <- (data_ext os p p').
Qed.

(** X21.  On a readable file and with a cache of at least four pages,
    for a BLOB whose object has its placement table inside the database
    and a [length] of [block_count] whole blocks: [get] reads the blocks
    of the data of the object along the chain from [index_], the block
    at [index_], then the one that its [nextblock] names, and so on;
    what it returns is the payloads of these blocks up to the first with
    [nextblock = 0].  Under these conditions it throws or returns, and
    it leaves [pages] in a state of the cache. *)
Theorem blob_get_follows_chain (b : blob.blob db_1c_83.object) p index_ size_ :
  reachable os N p -> placed os p (blob.obj_iface b) ->
  db_1c_83.hdr_length (blob.obj_iface b)
  = blob.sizeof_blob_blk * blob_props.block_count b ->
  0 <= index_ ->
  chained (data os p (blob.obj_iface b)) index_ (blob.blocks (blob.get_run b p index_ size_))
  /\ reachable os N (blob.state (blob.get_run b p index_ size_))
  /\ defined (blob.result (blob.get_run b p index_ size_))
  /\ forall out, blob.result (blob.get_run b p index_ size_) = Ret out ->
       out = concat (blob_props.payload <$> blob.blocks (blob.get_run b p index_ size_))
       /\ exists lb, last (blob.blocks (blob.get_run b p index_ size_)) = Some lb
            /\ blob.nextblock lb = 0.
Proof.
  intros Hp Hpl Hwhole Hidx. unfold blob.get_run.
  case_bool_decide as Hz.
  { cbn. split_and!; [done | done | apply defined_throw | done]. }
  pose proof (blob_facts.reserve_outcome size_) as Hreserve.
  destruct (blob.reserve size_) as [[]|e|w].
  2:{ cbn. split_and!; done. }
  2:{ exfalso. destruct Hreserve as [?|[?|?]]; congruence. }
  fold (blob_props.block_count b).
  set (again := Z.to_nat (wrap 32 (blob_props.block_count b - 1))).
  destruct (get_loop_chain again b p (blob_props.block_count b) size_ index_ []
              Hp Hpl Hwhole Hidx) as (Hchain & Hstate & Hdef).
  split_and!; [done | done | done |].
  intros out Hout.
  destruct (blob_facts.get_loop_spec again b p (blob_props.block_count b) size_ index_ []
              ltac:(lia)) as (_ & _ & Hret).
  destruct (Hret out Hout) as (lb & Hlast & Hnb & -> & _). split; [done|]. by exists lb.
Qed.

End stack.

Import examples samples pages_examples.
#[local] Existing Instance ample.

Lemma reachable_after_view os p index_ count_ pos_ :
  reachable os 4 p -> in_range index_ count_ pos_ ->
  defined (pages.view p index_ count_ pos_).1 ->
  reachable os 4 (pages.view p index_ count_ pos_).2.
Proof.
  intros Hp Hr Hdef.
  apply (reach_view os 4 p index_ count_ pos_ (pages.view p index_ count_ pos_).1 _ Hp Hr);
    [apply surjective_pairing | done].
Defined.

Lemma defined_returns {A : Type} (m : outcome A) (a : A) : m = Ret a -> defined m.
Proof. intros -> w. discriminate. Defined.

Lemma reachable_cursor_pages : reachable db_small 4 cursor_pages.
Proof.
  assert (cursor_pages = (pages.view pages_small 1 4096 0).2) as ->
    by (vm_cast_no_check (eq_refl (pages.view pages_small 1 4096 0).2)).
  apply reachable_after_view;
    [apply reachable_pages_small | apply in_range_small; lia |].
  apply (defined_returns _ (Z.to_nat 16384)). vm_compute. reflexivity.
Defined.

Lemma placed_cursor_small :
  placed db_small cursor_pages (records.obj_iface cursor_small_fresh).
Proof.
  assert (pages_count (records.obj_iface cursor_small_fresh) cursor_pages = 1) as Hpc
    by (vm_compute; reflexivity).
  intros k Hk. rewrite Hpc in Hk. assert (k = 0) as -> by lia.
  vm_compute. split_and!; congruence.
Defined.

Lemma loaded_cursor_small : loaded db_small cursor_pages cursor_small_fresh.
Proof. intros i Hi. vm_compute in Hi. discriminate Hi. Defined.

Lemma seek_loads_record_witness :
  exists r' p',
    records.seek cursor_small_fresh cursor_pages 1 = (Ret (), r', p')
    /\ reachable db_small 4 p'
    /\ records.last_index r' = Some 1
    /\ records.record r'
       = piece (data db_small cursor_pages (records.obj_iface cursor_small_fresh))
           (Z.of_nat (length (records.record cursor_small_fresh))) 1
    /\ length (records.record r') = length (records.record cursor_small_fresh)
    /\ loaded db_small p' r'
    /\ records.is_deleted r'
       = Ret (bool_decide
                (mem_get (piece (data db_small cursor_pages
                                   (records.obj_iface cursor_small_fresh))
                            (Z.of_nat (length (records.record cursor_small_fresh))) 1)
                   0 1 = 1)).
Proof.
  apply (seek_loads_record db_small 4 ltac:(lia) (readable_plain _)
           cursor_small_fresh cursor_pages 1 reachable_cursor_pages placed_cursor_small).
  - vm_compute. lia.
  - vm_compute. reflexivity.
  - apply loaded_cursor_small.
  - vm_compute. split; congruence.
Defined.

Lemma reachable_pages_chain : reachable db_chain 4 (pages_of blks_chain).
Proof.
  assert (pages_of blks_chain = (pages.view (pages_on db_chain) 1 4096 0).2) as ->
    by (vm_cast_no_check (eq_refl (pages.view (pages_on db_chain) 1 4096 0).2)).
  apply reachable_after_view;
    [apply reachable_pages_on; vm_compute; reflexivity | apply in_range_small; lia |].
  apply (defined_returns _ (Z.to_nat 16384)). vm_compute. reflexivity.
Defined.

Lemma placed_blob_chain :
  placed db_chain (pages_of blks_chain) (blob.obj_iface (blob_of blks_chain)).
Proof.
  assert (pages_count (blob.obj_iface (blob_of blks_chain)) (pages_of blks_chain) = 1)
    as Hpc by (vm_compute; reflexivity).
  intros k Hk. rewrite Hpc in Hk. assert (k = 0) as -> by lia.
  vm_compute. split_and!; congruence.
Defined.

Lemma blob_get_follows_chain_witness :
  chained (data db_chain (pages_of blks_chain) (blob.obj_iface (blob_of blks_chain))) 1
    (blob.blocks (blob.get_run (blob_of blks_chain) (pages_of blks_chain) 1 0))
  /\ reachable db_chain 4
       (blob.state (blob.get_run (blob_of blks_chain) (pages_of blks_chain) 1 0))
  /\ defined (blob.result (blob.get_run (blob_of blks_chain) (pages_of blks_chain) 1 0))
  /\ forall out,
       blob.result (blob.get_run (blob_of blks_chain) (pages_of blks_chain) 1 0) = Ret out ->
       out = concat (blob_props.payload
                       <$> blob.blocks (blob.get_run (blob_of blks_chain)
                                          (pages_of blks_chain) 1 0))
       /\ exists lb,
            last (blob.blocks (blob.get_run (blob_of blks_chain)
                                 (pages_of blks_chain) 1 0)) = Some lb
            /\ blob.nextblock lb = 0.
Proof.
  apply (blob_get_follows_chain db_chain 4 ltac:(lia) (readable_plain _)
           (blob_of blks_chain) (pages_of blks_chain) 1 0
           reachable_pages_chain placed_blob_chain).
  - vm_compute. reflexivity.
  - lia.
Defined.

End stack_facts.

(** * The root object: [db_1c_83::root] *)

Module root_facts.
Import root blob_props.

Section root.
Context `{!platform}.

(** What the constructor has checked when it returns. *)
Lemma new_checked p rt p' :
  new p = (Ret rt, p') ->
  exists p1,
    blob.new p 2 = (Ret (blob_iface rt), p1)
    /\ blob.get (blob_iface rt) p1 1 0 = (Ret (hdr_data rt), p')
    /\ sizeof_root_hdr <= Z.of_nat (length (hdr_data rt))
    /\ wrap 64 (Z.of_nat (length (hdr_data rt)) - sizeof_root_hdr) / sizeof_index_type
       = size rt.
Proof.
  unfold new, pbind.
  destruct (blob.new p 2) as [[b| |] p1] eqn:Hnew; [|done..].
  destruct (blob.get b p1 1 0) as [[hdr| |] p2] eqn:Hget; [|done..].
  cbn zeta. destruct (_ || _) eqn:Hbad; [done|]. intros [= <- <-].
  apply orb_false_iff in Hbad as [Hshort Hcount].
  apply bool_decide_eq_false in Hshort.
  apply negb_false_iff, bool_decide_eq_true in Hcount.
  exists p1. cbn [blob_iface hdr_data]. unfold size. cbn [hdr_data].
  split_and!; [done|done|lia|done].
Qed.

(** The header buffer ends less than one entry after the [numtables]
    entries that follow its 36 bytes. *)
Lemma new_layout p rt p' :
  new p = (Ret rt, p') ->
  0 <= size rt
  /\ sizeof_root_hdr + sizeof_index_type * size rt <= Z.of_nat (length (hdr_data rt))
     < sizeof_root_hdr + sizeof_index_type * size rt + sizeof_index_type.
Proof.
  intros Hnew. destruct (new_checked p rt p' Hnew) as (p1 & _ & Hget & Hlen & Hcount).
  pose proof (blob_sizes.get_length_bound (blob_iface rt) p1 1 0 _ _ ltac:(lia) Hget) as Hbound.
  assert (0 <= block_count (blob_iface rt) < 2 ^ 32) as Hbc
    by apply Z.mod_pos_bound, eq_refl.
  unfold sizeof_root_hdr, sizeof_index_type in *.
  unfold wrap in Hcount. rewrite Z.mod_small in Hcount by lia.
  pose proof (Z.div_mod (Z.of_nat (length (hdr_data rt)) - 36) 4 ltac:(lia)) as Hdm.
  pose proof (Z.mod_pos_bound (Z.of_nat (length (hdr_data rt)) - 36) 4 ltac:(lia)) as Hm.
  rewrite Hcount in Hdm. lia.
Qed.

(** X22.  A root object that its constructor returned holds a header of
    at least 36 bytes whose [numtables] is the count of whole 4-byte
    entries after them, so every entry [tables[num]] with [num < size()]
    lies inside the header buffer. *)
Theorem root_header_holds_tables p rt p' :
  new p = (Ret rt, p') ->
  0 <= size rt
  /\ sizeof_root_hdr + sizeof_index_type * size rt <= Z.of_nat (length (hdr_data rt))
     < sizeof_root_hdr + sizeof_index_type * size rt + sizeof_index_type
  /\ forall num, 0 <= num < size rt ->
       (Z.to_nat (sizeof_root_hdr + sizeof_index_type * num) + 4
        <= length (hdr_data rt))%nat.
Proof.
  intros Hnew. destruct (new_layout p rt p' Hnew) as (Hsize & Hlo & Hhi).
  split_and!; [done..|]. intros num Hnum.
  unfold sizeof_root_hdr, sizeof_index_type in *. lia.
Qed.

(** X23.  On a root object that its constructor returned, [read] refuses
    a number that is not below [size()] and leaves [pages] alone; for a
    number below it the entry [tables[num]] is read inside the header
    buffer, and the description returned is the BLOB that starts at that
    block, one character for each of its bytes, so every character is
    below 256. *)
Theorem root_read_widens p rt p' num_ :
  new p = (Ret rt, p') -> 0 <= num_ ->
  (size rt <= num_ ->
     forall q, read rt q num_
               = (throw "Requested table index exceeds tables count in database.", q))
  /\ (num_ < size rt ->
      length (take 4 (drop (Z.to_nat (sizeof_root_hdr + sizeof_index_type * num_))
                        (hdr_data rt))) = 4%nat
      /\ forall q descr q',
           read rt q num_ = (Ret descr, q') ->
           exists res_blob,
             blob.get (blob_iface rt) q (tables (hdr_data rt) num_) 0 = (Ret res_blob, q')
             /\ descr = byte_to_Z <$> res_blob
             /\ Forall (fun c => 0 <= c < 256) descr
             /\ Z.of_nat (length descr) <= 250 * block_count (blob_iface rt)).
Proof.
  intros Hnew Hnum. split.
  - intros Hge q. unfold read. rewrite bool_decide_eq_true_2 by lia. done.
  - intros Hlt. split.
    { destruct (new_layout p rt p' Hnew) as (Hsize & Hlo & Hhi).
      rewrite length_take, length_drop.
      unfold sizeof_root_hdr, sizeof_index_type in *. lia. }
    intros q descr q'. unfold read, pbind. rewrite bool_decide_eq_false_2 by lia.
    destruct (blob.get _ _ _ _) as [[res_blob| |] q1] eqn:Hget; [|done..].
    intros [= <- <-]. exists res_blob. split_and!; [done|done| |].
    + apply Forall_fmap, Forall_forall. intros c _.
      unfold compose, byte_to_Z. pose proof (Byte.to_N_bounded c). lia.
    + rewrite length_fmap. eapply blob_sizes.get_length_bound; [|done].
      apply (object_facts.mem_get_bound _ _ 4).
Qed.

End root.

Import examples samples.
#[local] Existing Instance ample.

Lemma root_new_small : new (pages_on db_root) = (Ret root_small, root_pages).
Proof.
  vm_cast_no_check (eq_refl (new (pages_on db_root))).
Defined.

Lemma root_header_holds_tables_witness :
  0 <= size root_small
  /\ sizeof_root_hdr + sizeof_index_type * size root_small
     <= Z.of_nat (length (hdr_data root_small))
     < sizeof_root_hdr + sizeof_index_type * size root_small + sizeof_index_type
  /\ forall num, 0 <= num < size root_small ->
       (Z.to_nat (sizeof_root_hdr + sizeof_index_type * num) + 4
        <= length (hdr_data root_small))%nat.
Proof.
  apply (root_header_holds_tables (pages_on db_root) root_small root_pages root_new_small).
Defined.

Lemma root_read_widens_witness :
  (size root_small <= 0 ->
     forall q, read root_small q 0
               = (throw "Requested table index exceeds tables count in database.", q))
  /\ (0 < size root_small ->
      length (take 4 (drop (Z.to_nat (sizeof_root_hdr + sizeof_index_type * 0))
                        (hdr_data root_small))) = 4%nat
      /\ forall q descr q',
           read root_small q 0 = (Ret descr, q') ->
           exists res_blob,
             blob.get (blob_iface root_small) q (tables (hdr_data root_small) 0) 0
             = (Ret res_blob, q')
             /\ descr = byte_to_Z <$> res_blob
             /\ Forall (fun c => 0 <= c < 256) descr
             /\ Z.of_nat (length descr) <= 250 * block_count (blob_iface root_small)).
Proof.
  apply (root_read_widens (pages_on db_root) root_small root_pages 0 root_new_small).
  lia.
Defined.

End root_facts.
